(** * XRPL portfolio monitor: ledger client and token whitelist

    A shallow embedding of [frontend/src/lib/xrpl.ts] (address validation,
    retry wrapper, JSON-RPC request, the three fetch operations) and of
    [frontend/src/lib/tokenConfig.ts] (currency codec, whitelist store,
    whitelist matcher), with the properties the specification states
    about them.

    Conventions.
    - A JavaScript string is the list of its UTF-16 code units, each an [N].
    - A JavaScript number that can be [NaN] is an [option Z].
    - Code that throws returns a [Res]; the state it leaves behind is
      returned next to it, because a throw does not undo earlier writes. *)

From Stdlib Require Import NArith ZArith Ascii String.
From stdpp Require Import base tactics list numbers.

Local Open Scope N_scope.

(** ** JavaScript strings *)

Abbreviation jsstring := (list N).

(** The code units of an ASCII literal. *)
Definition js (s : string) : jsstring :=
  List.map N_of_ascii (list_ascii_of_string s).
Arguments js s%_string.

(** [a === b] on strings. *)
Fixpoint strictEq (a b : jsstring) : bool :=
  match a, b with
  | [], [] => true
  | x :: a', y :: b' => (x =? y) && strictEq a' b'
  | _, _ => false
  end.

Definition inRange (lo hi c : N) : bool := (lo <=? c) && (c <=? hi).

(** WhiteSpace and LineTerminator code units of ECMAScript: what
    [String.prototype.trim] strips and [parseInt] skips. *)
Definition isWhiteSpace (c : N) : bool :=
  inRange 9 13 c || (c =? 32) || (c =? 160) || (c =? 5760)
  || inRange 8192 8202 c || (c =? 8232) || (c =? 8233) || (c =? 8239)
  || (c =? 8287) || (c =? 12288) || (c =? 65279).

Fixpoint trimStart (s : jsstring) : jsstring :=
  match s with
  | c :: s' => if isWhiteSpace c then trimStart s' else s
  | [] => []
  end.

Definition trimEnd (s : jsstring) : jsstring := rev (trimStart (rev s)).

(** [s.trim()] strips both ends. *)
Definition trim (s : jsstring) : jsstring := trimEnd (trimStart s).

(** [s.substr(i, n)] for [0 <= i], [0 <= n]. *)
Definition substr (s : jsstring) (i n : nat) : jsstring := take n (drop i s).

(** [s.padStart(n, p)] and [s.padEnd(n, p)] for a one-unit pad [p]:
    a string already [n] long or longer is returned as it is. *)
Definition padStart (n : nat) (p : N) (s : jsstring) : jsstring :=
  replicate (n - length s) p ++ s.
Definition padEnd (n : nat) (p : N) (s : jsstring) : jsstring :=
  s ++ replicate (n - length s) p.

(** Case mapping of one code unit, for Basic Latin and Latin-1 (U+0000 to
    U+00FF); code units above U+00FF are left as they are. The codec only
    upper-cases the output of [toString(16)], which is Basic Latin. *)
Definition upperUnit (c : N) : jsstring :=
  if inRange 97 122 c then [c - 32]
  else if c =? 181 then [924]
  else if c =? 223 then [83; 83]
  else if inRange 224 254 c && negb (c =? 247) then [c - 32]
  else if c =? 255 then [376]
  else [c].
Definition toUpperCase (s : jsstring) : jsstring := flat_map upperUnit s.

Definition lowerUnit (c : N) : N :=
  if inRange 65 90 c then c + 32
  else if inRange 192 222 c && negb (c =? 215) then c + 32
  else c.
Definition toLowerCaseLatin1 (s : jsstring) : jsstring := List.map lowerUnit s.

(** ** Numbers and digits *)

(** Digit [d < 16] as [Number.prototype.toString(16)] prints it. *)
Definition hexDigitChar (d : N) : N := if d <? 10 then 48 + d else 87 + d.

Fixpoint toString16_aux (fuel : nat) (n : N) (acc : jsstring) : jsstring :=
  match fuel with
  | O => acc
  | S fuel' =>
      let acc' := hexDigitChar (n mod 16) :: acc in
      if n / 16 =? 0 then acc' else toString16_aux fuel' (n / 16) acc'
  end.

(** [n.toString(16)] for a non-negative integer [n]. *)
Definition toString16 (n : N) : jsstring :=
  toString16_aux (S (N.to_nat (N.log2 n))) n [].

(** Value of a radix-16 digit, in either case. *)
Definition hexDigitValue (c : N) : option N :=
  if inRange 48 57 c then Some (c - 48)
  else if inRange 65 70 c then Some (c - 55)
  else if inRange 97 102 c then Some (c - 87)
  else None.

Definition isHexDigit (c : N) : bool :=
  match hexDigitValue c with Some _ => true | None => false end.

(** The longest prefix of radix-16 digits, as their values. *)
Fixpoint hexPrefix (s : jsstring) : list N :=
  match s with
  | c :: s' =>
      match hexDigitValue c with
      | Some d => d :: hexPrefix s'
      | None => []
      end
  | [] => []
  end.

Definition hexValue (ds : list N) : N := fold_left (fun acc d => 16 * acc + d) ds 0.

(** [parseInt(s, 16)]: leading white space is skipped, one sign is read,
    a [0x] or [0X] prefix is dropped, the longest run of hex digits is the
    value; [None] is [NaN]. A negative zero is [Some 0], which is what
    [=== 0] sees. *)
Definition parseInt16 (s : jsstring) : option Z :=
  let s1 := trimStart s in
  let '(neg, s2) :=
    match s1 with
    | 45 :: r => (true, r)
    | 43 :: r => (false, r)
    | _ => (false, s1)
    end in
  let s3 :=
    match s2 with
    | 48 :: 120 :: r => r
    | 48 :: 88 :: r => r
    | _ => s2
    end in
  match hexPrefix s3 with
  | [] => None
  | ds => let v := Z.of_N (hexValue ds) in Some (if neg then (- v)%Z else v)
  end.

(** [String.fromCharCode(x)]: ToUint16 of the number, [NaN] giving 0. *)
Definition fromCharCode (x : option Z) : N :=
  match x with
  | Some z => Z.to_N (z mod 65536)
  | None => 0
  end.

(** ** Address validator ([xrpl.ts]) *)

(** The class [[1-9A-HJ-NP-Za-km-z]]. *)
Definition isBase58 (c : N) : bool :=
  inRange 49 57 c || inRange 65 72 c || inRange 74 78 c || inRange 80 90 c
  || inRange 97 107 c || inRange 109 122 c.

(** [/^r[1-9A-HJ-NP-Za-km-z]{24,34}$/.test(address)] *)
Definition validateXRPLAddress (address : jsstring) : bool :=
  match address with
  | 114 :: body =>
      (24 <=? length body)%nat && (length body <=? 34)%nat && forallb isBase58 body
  | _ => false
  end.

(** ** Currency codec ([tokenConfig.ts]) *)

(** The body of [for (let i = 0; i < hex.length; i += 2)] in [hexToString];
    [fuel] bounds the iterations and [length hex] is always enough. *)
Fixpoint hexToString_loop (fuel : nat) (hex : jsstring) (i : nat) (str : jsstring)
  : jsstring :=
  match fuel with
  | O => str
  | S fuel' =>
      if (i <? length hex)%nat then
        let charCode := parseInt16 (substr hex i 2) in
        match charCode with
        | Some 0%Z => str
        | _ => hexToString_loop fuel' hex (i + 2) (str ++ [fromCharCode charCode])
        end
      else str
  end.

(** [hexToString]. Nothing in the [try] block throws, so the [catch]
    branch is never taken. *)
Definition hexToString (hex : jsstring) : jsstring :=
  if negb (length hex =? 40)%nat then hex
  else
    let str := hexToString_loop (length hex) hex 0 [] in
    match trim str with
    | [] => hex
    | t => t
    end.

(** [stringToHex] *)
Definition stringToHex (str : jsstring) : jsstring :=
  if (length str =? 3)%nat then str
  else
    let hex := flat_map (fun c => padStart 2 48 (toString16 c)) str in
    toUpperCase (padEnd 40 48 hex).

(** [currency.length === 40 && /^[0-9A-F]{40}$/i.test(currency)] *)
Definition isHexCurrency (currency : jsstring) : bool :=
  (length currency =? 40)%nat && forallb isHexDigit currency.

(** ** Results and state-passing *)

Inductive Res (E A : Type) : Type :=
| Ok (a : A)
| Err (e : E).
Arguments Ok {E A} a.
Arguments Err {E A} e.

(** A computation over state [S] that returns or throws [E]. The state
    comes back in both cases. *)
Definition M (S E A : Type) : Type := S -> Res E A * S.

Definition ret {S E A} (a : A) : M S E A := fun s => (Ok a, s).
Definition throw {S E A} (e : E) : M S E A := fun s => (Err e, s).
Definition bind {S E A B} (m : M S E A) (k : A -> M S E B) : M S E B :=
  fun s =>
    match m s with
    | (Ok a, s') => k a s'
    | (Err e, s') => (Err e, s')
    end.
(** [try { m } catch (e) { h e }] *)
Definition catch {S E A} (m : M S E A) (h : E -> M S E A) : M S E A :=
  fun s =>
    match m s with
    | (Ok a, s') => (Ok a, s')
    | (Err e, s') => h e s'
    end.

Notation "'let*' x ':=' m 'in' k" := (bind m (fun x => k))
  (at level 10, x name, m at level 100, k at level 200).
Notation "m ';;' k" := (bind m (fun _ => k))
  (at level 100, k at level 200, right associativity).

(** ** Token whitelist store ([tokenConfig.ts]) *)

Record TokenConfig : Type := mkToken {
  currency : jsstring;
  issuer : jsstring;
  customName : option jsstring
}.

(** [t.currency === c && t.issuer === i] *)
Definition sameKey (c i : jsstring) (t : TokenConfig) : bool :=
  strictEq (currency t) c && strictEq (issuer t) i.

Definition key (t : TokenConfig) : jsstring * jsstring := (currency t, issuer t).

(** The initial value of the module-level array [DEFAULT_TOKENS]. *)
Definition DEFAULT_TOKENS : list TokenConfig :=
  [ mkToken (js "GreedyJEW") (js "rdRvw4pKmEtSnz3cjXBL6HLJJmejtkoQ4") (Some (js "GreedyJEW Token"));
    mkToken (js "JewNomicaN") (js "rEz5RdLqRex7YxYZ1bEskCDHbvKy3zcUnq") (Some (js "JewNomicaN"));
    mkToken (js "HEBROID") (js "rdRvw4pKmEtSnz3cjXBL6HLJJmejtkoQ4") (Some (js "HEBROID"));
    mkToken (js "ASC") (js "r3qWgpz2ry3BhcRJ8JE6rxM8esrfhuKp4R") (Some (js "Ascension"));
    mkToken (js "RPR") (js "r3qWgpz2ry3BhcRJ8JE6rxM8esrfhuKp4R") (Some (js "Reaper"));
    mkToken (js "PLR") (js "rNSYhWLhuHvmURwWbJPBKZMSPsyG5Qek17") (Some (js "Pylons"));
    mkToken (js "ARK") (js "rf5Jzzy6oAFBJjLhokha1v8pXVgYYjee3b") (Some (js "Ark Institute"));
    mkToken (js "Schmeckles") (js "rPxw83ZP6thv7KmG5DpAW4cDW55DZRZ9wu") (Some (js "Schmeckles"));
    mkToken (js "MKS") (js "rwU8xXxSQPzqX7DEfeSUdUjb5NB17ixkzJ") (Some (js "MKS"));
    mkToken (js "TriForce") (js "rGeevxdLguXxvh7RmUmMEXr7DSRNTXPRpX") (Some (js "TriForce"));
    mkToken (js "DeerChickenn") (js "rw3DPxgusRrvdsbXSjHdXD14ogkNidTTRx") (Some (js "DeerChickenn")) ].

(** What [localStorage.getItem(STORAGE_KEY)] followed by [JSON.parse] finds:
    nothing (or the empty string), something that makes the [try] block
    throw, or a list of tokens. *)
Inductive Item : Type :=
| NoItem
| Unreadable
| Json (tokens : list TokenConfig).

(** The state the store works on: the item under [STORAGE_KEY], whether
    the storage takes a given write ([setItem] throws otherwise, as it does
    over quota), and the current contents of the array [DEFAULT_TOKENS],
    which [loadTokenConfig] hands out as it is and its callers then
    mutate. *)
Record Store : Type := mkStore {
  item : Item;
  room : list TokenConfig -> bool;
  defaults : list TokenConfig
}.

Definition setItem (tokens : list TokenConfig) (w : Store) : Store :=
  mkStore (Json tokens) (room w) (defaults w).
Definition setDefaults (tokens : list TokenConfig) (w : Store) : Store :=
  mkStore (item w) (room w) tokens.

(** An array a function holds: the array [DEFAULT_TOKENS] itself, or one
    of its own. *)
Inductive Arr : Type :=
| TheDefaults
| Fresh (l : list TokenConfig).

Definition deref (w : Store) (a : Arr) : list TokenConfig :=
  match a with
  | TheDefaults => defaults w
  | Fresh l => l
  end.

(** The [Error]s of the store, by message:
    'Invalid XRPL address format. ...' is [InvalidAddress],
    'This token is already in your monitoring list' and
    'A token with this currency and issuer already exists' are
    [DuplicateToken], 'Token not found' is [NotFound],
    'Failed to save token configuration' is [PersistenceError];
    [HostError] is what the host throws inside [loadTokenConfig]
    ([JSON.parse], [getItem]), which never leaves that function. *)
Inductive StoreError : Type :=
| InvalidAddress
| DuplicateToken
| NotFound
| PersistenceError
| HostError.

(** [saveTokenConfig] *)
Definition saveTokenConfig (tokens : list TokenConfig) : M Store StoreError unit :=
  fun w =>
    if room w tokens then (Ok tt, setItem tokens w)
    else (Err PersistenceError, w).

(** The callback of the [forEach] in [loadTokenConfig]: a default token
    that no entry of [merged] equals by key is pushed onto [merged]. *)
Definition mergeStep (merged : list TokenConfig) (defaultToken : TokenConfig)
  : list TokenConfig :=
  let exists_ :=
    existsb (sameKey (currency defaultToken) (issuer defaultToken)) merged in
  if negb exists_ then merged ++ [defaultToken] else merged.

(** [const merged = [...parsed]; DEFAULT_TOKENS.forEach(...)] *)
Definition mergeDefaults (parsed dflt : list TokenConfig) : list TokenConfig :=
  fold_left mergeStep dflt parsed.

(** [loadTokenConfig]. The outer [catch] turns every throw, also the one of
    [saveTokenConfig], into [return DEFAULT_TOKENS]. *)
Definition loadTokenConfig : M Store StoreError Arr :=
  catch
    (fun w =>
       match item w with
       | NoItem => (saveTokenConfig (defaults w) ;; ret TheDefaults) w
       | Unreadable => (Err HostError, w)
       | Json parsed =>
           if (length parsed <? length (defaults w))%nat then
             let merged := mergeDefaults parsed (defaults w) in
             (saveTokenConfig merged ;; ret (Fresh merged)) w
           else (Ok (Fresh parsed), w)
       end)
    (fun _ => ret TheDefaults).

(** [tokens.push(token)] and [tokens[index] = newToken]: through the
    handle [TheDefaults] they change the array [DEFAULT_TOKENS]. *)
Definition push (a : Arr) (token : TokenConfig) : M Store StoreError Arr :=
  fun w =>
    match a with
    | TheDefaults => (Ok TheDefaults, setDefaults (defaults w ++ [token]) w)
    | Fresh l => (Ok (Fresh (l ++ [token])), w)
    end.

Definition assign (a : Arr) (index : nat) (token : TokenConfig) : M Store StoreError Arr :=
  fun w =>
    match a with
    | TheDefaults => (Ok TheDefaults, setDefaults (<[index := token]> (defaults w)) w)
    | Fresh l => (Ok (Fresh (<[index := token]> l)), w)
    end.

(** Reading the array behind a handle. *)
Definition read (a : Arr) : M Store StoreError (list TokenConfig) :=
  fun w => (Ok (deref w a), w).

(** [addToken] *)
Definition addToken (token : TokenConfig) : M Store StoreError unit :=
  let* tokens := loadTokenConfig in
  if negb (validateXRPLAddress (issuer token)) then throw InvalidAddress
  else
    let* l := read tokens in
    let exists_ := existsb (sameKey (currency token) (issuer token)) l in
    if exists_ then throw DuplicateToken
    else
      let* tokens' := push tokens token in
      let* l' := read tokens' in
      saveTokenConfig l'.

(** [removeToken] *)
Definition removeToken (currency issuer : jsstring) : M Store StoreError unit :=
  let* tokens := loadTokenConfig in
  let* l := read tokens in
  let filtered := List.filter (fun t => negb (sameKey currency issuer t)) l in
  saveTokenConfig filtered.

(** [tokens.findIndex(p)], [None] for [-1]. *)
Fixpoint findIndex {A} (p : A -> bool) (l : list A) : option nat :=
  match l with
  | [] => None
  | x :: l' => if p x then Some O else option_map S (findIndex p l')
  end.

(** [tokens.some((t, i) => p t i)], the index counted from [i]. *)
Fixpoint someFrom {A} (p : A -> nat -> bool) (i : nat) (l : list A) : bool :=
  match l with
  | [] => false
  | x :: l' => p x i || someFrom p (S i) l'
  end.

(** [updateToken] *)
Definition updateToken (oldCurrency oldIssuer : jsstring) (newToken : TokenConfig)
  : M Store StoreError unit :=
  if negb (validateXRPLAddress (issuer newToken)) then throw InvalidAddress
  else
    let* tokens := loadTokenConfig in
    let* l := read tokens in
    match findIndex (sameKey oldCurrency oldIssuer) l with
    | None => throw NotFound
    | Some index =>
        let isDuplicate :=
          someFrom
            (fun t i =>
               negb (i =? index)%nat
               && sameKey (currency newToken) (issuer newToken) t)
            O l in
        if isDuplicate then throw DuplicateToken
        else
          let* tokens' := assign tokens index newToken in
          let* l' := read tokens' in
          saveTokenConfig l'
    end.

(** ** Whitelist matcher ([tokenConfig.ts]) *)

Section Matcher.

(** [String.prototype.toLowerCase], the host's Unicode case mapping. The
    matcher is verified for whatever it is; [toLowerCaseLatin1] is the one
    used to run it. *)
Variable toLowerCase : jsstring -> jsstring.

(** The callback of [tokens.some] in [isTokenWhitelisted]; the observed
    pair is the function's [currency] and [issuer]. *)
Definition matchesToken (xrplCurrency xrplIssuer : jsstring) (t : TokenConfig) : bool :=
  let normalizedIssuer := trim (toLowerCase xrplIssuer) in
  let isHex := isHexCurrency xrplCurrency in
  let normalizedWhitelistIssuer := trim (toLowerCase (issuer t)) in
  if negb (strictEq normalizedWhitelistIssuer normalizedIssuer) then false
  else if isHex then
    let decodedCurrency := hexToString xrplCurrency in
    strictEq (toLowerCase decodedCurrency) (toLowerCase (currency t))
    || strictEq (toLowerCase xrplCurrency) (toLowerCase (stringToHex (currency t)))
  else strictEq (toLowerCase xrplCurrency) (toLowerCase (currency t)).

(** [isTokenWhitelisted] *)
Definition isTokenWhitelisted (xrplCurrency xrplIssuer : jsstring)
  : M Store StoreError bool :=
  let* tokens := loadTokenConfig in
  let* l := read tokens in
  ret (existsb (matchesToken xrplCurrency xrplIssuer) l).

End Matcher.

(** ** The whitelist as the specification words it *)

(** The list [loadTokenConfig] returns in state [w]: the snapshot the
    matcher and the store operations work on. *)
Definition loaded (w : Store) : list TokenConfig :=
  match loadTokenConfig w with
  | (Ok a, w') => deref w' a
  | (Err _, _) => []
  end.

(** The entries in storage. *)
Definition stored (w : Store) : list TokenConfig :=
  match item w with
  | Json l => l
  | _ => []
  end.

(** The default tokens whose key no entry of [l] has. *)
Definition missingFrom (l dflt : list TokenConfig) : list TokenConfig :=
  List.filter (fun d => negb (existsb (sameKey (currency d) (issuer d)) l)) dflt.

(** No two entries share a key. *)
Definition noDuplicateKeys (l : list TokenConfig) : Prop :=
  List.NoDup (List.map key l).

(** The same, as a check that runs. *)
Fixpoint distinctKeys (l : list TokenConfig) : bool :=
  match l with
  | [] => true
  | t :: l' => negb (existsb (sameKey (currency t) (issuer t)) l') && distinctKeys l'
  end.

(** Each entry has all three fields and a valid issuer address. *)
Definition wellShaped (t : TokenConfig) : bool :=
  match customName t with
  | Some _ => validateXRPLAddress (issuer t)
  | None => false
  end.

(** The store invariant: it holds of the entries in storage and of the
    array [DEFAULT_TOKENS], which seeds the storage. *)
Definition storeInvariant (w : Store) : Prop :=
  noDuplicateKeys (stored w) /\ noDuplicateKeys (defaults w).

(** Sample data for running the store: a valid issuer that is not a
    default token's, one entry under it, and stores over the canonical
    defaults whose storage takes every write or none. *)
Definition sampleIssuer : jsstring := js "rw3DPxgusRrvdsbXSjHdXD14ogkNidTTRx".
Definition tokenABCD : TokenConfig := mkToken (js "ABCD") sampleIssuer None.
Definition roomyStore (i : Item) : Store := mkStore i (fun _ => true) DEFAULT_TOKENS.
Definition fullStore (i : Item) : Store := mkStore i (fun _ => false) DEFAULT_TOKENS.

(** A store whose storage is short of room: a list of more than ten
    entries does not fit, a shorter one does. *)
Definition tightStore (i : Item) : Store :=
  mkStore i (fun l => (length l <=? 10)%nat) DEFAULT_TOKENS.

(** Section 8 on [load()] over [k < default_count] stored entries, for one
    state. *)
Definition load_merge_claim (w : Store) : Prop :=
  forall l, item w = Json l -> (length l < length (defaults w))%nat ->
    exists w',
      loadTokenConfig w = (Ok (Fresh (l ++ missingFrom l (defaults w))), w')
      /\ item w' = Json (l ++ missingFrom l (defaults w))
      /\ (length (defaults w) <= length (l ++ missingFrom l (defaults w)))%nat.

(** Section 8 on [add] of a duplicate key, for one state and token. *)
Definition add_duplicate_claim (w : Store) (token : TokenConfig) : Prop :=
  existsb (sameKey (currency token) (issuer token)) (loaded w) = true ->
  addToken token w = (Err DuplicateToken, w).

(** An entry with an issuer that is not an address, as storage written
    by hand or by an older version can hold. *)
Definition tokenBadIssuer : TokenConfig := mkToken (js "ABCD") (js "x") None.

Section MatcherRule.

Variable toLowerCase : jsstring -> jsstring.

(** Issuers equal after lower-casing and trimming both. *)
Definition issuerRule (observedIssuer : jsstring) (t : TokenConfig) : Prop :=
  trim (toLowerCase (issuer t)) = trim (toLowerCase observedIssuer).

(** Equal without regard to case. *)
Definition sameIgnoringCase (a b : jsstring) : Prop := toLowerCase a = toLowerCase b.

(** The hex-aware rule of section 4.5. *)
Definition currencyRule (observedCurrency : jsstring) (t : TokenConfig) : Prop :=
  if isHexCurrency observedCurrency then
    sameIgnoringCase (hexToString observedCurrency) (currency t)
    \/ sameIgnoringCase observedCurrency (stringToHex (currency t))
  else sameIgnoringCase observedCurrency (currency t).

(** Section 8 on the hex side: a code [p] kept in the whitelist and
    observed as [stringToHex p] is matched exactly when [stringToHex p]
    kept in the whitelist and observed as [p] is. *)
Definition hexSideSymmetric : Prop :=
  forall (p iss : jsstring) (nm : option jsstring) (rm : list TokenConfig -> bool)
         (dflt : list TokenConfig),
    fst (isTokenWhitelisted toLowerCase (stringToHex p) iss
           (mkStore (Json [mkToken p iss nm]) rm dflt))
    = fst (isTokenWhitelisted toLowerCase p iss
             (mkStore (Json [mkToken (stringToHex p) iss nm]) rm dflt)).

End MatcherRule.

(** ** Ledger RPC client ([xrpl.ts]) *)

Record AccountInfo : Type := mkAccountInfo {
  Account : jsstring;
  Balance : jsstring;
  Flags : Z;
  OwnerCount : Z;
  Sequence : Z;
  PreviousTxnID : option jsstring;
  PreviousTxnLgrSeq : option Z
}.

Record TrustLine : Type := mkTrustLine {
  account : jsstring;
  balance : jsstring;
  line_currency : jsstring;
  limit : jsstring;
  limit_peer : jsstring;
  quality_in : Z;
  quality_out : Z
}.

Record NFToken : Type := mkNFToken {
  nft_Flags : Z;
  Issuer : jsstring;
  NFTokenID : jsstring;
  NFTokenTaxon : Z;
  URI : option jsstring;
  nft_serial : Z
}.

Definition XRPL_SERVERS : list jsstring :=
  [ js "https://xrplcluster.com"; js "https://s1.ripple.com:51234";
    js "https://s2.ripple.com:51234" ].

Inductive Method : Type := account_info | account_lines | account_nfts.

(** The [result] member of a response, with the members the client reads. *)
Record Result : Type := mkResult {
  error : option jsstring;
  error_message : option jsstring;
  account_data : option AccountInfo;
  lines : option (list TrustLine);
  r_account_nfts : option (list NFToken)
}.

(** An exception of the host, by what the client tests of it:
    [error instanceof TypeError] and [error.message.includes('fetch')]. *)
Record Thrown : Type := mkThrown { isTypeError : bool; mentionsFetch : bool }.

(** How a promise of the transport settles. *)
Inductive Settled (A : Type) : Type :=
| Resolves (a : A)
| Rejects (t : Thrown).
Arguments Resolves {A} a.
Arguments Rejects {A} t.

(** The parsed body: [null], or an object with or without a truthy
    [result]. *)
Inductive Data : Type :=
| DataNull
| DataObj (result : option Result).

(** What one [fetch] meets: the promise rejects, or a response arrives with
    its status and the outcomes of [response.text()] and
    [response.json()]. *)
Inductive Reply : Type :=
| FetchRejects (t : Thrown)
| Response (status : N) (text : Settled jsstring) (json : Settled Data).

(** [response.ok] *)
Definition ok (status : N) : bool := inRange 200 299 status.

(** The [Error]s of the client. [ErrInvalidFormat] is the one
    [makeXRPLRequest] makes for a bad address, [ErrInvalidAddress] the one
    of the fetch operations; [ErrHost] is a host exception passed on as it
    is, [ErrNull] the [null] that [retryWithBackoff] throws when its loop
    never ran. *)
Inductive RpcError : Type :=
| ErrInvalidFormat (address : jsstring)
| ErrInvalidAddress (address : jsstring)
| ErrNetwork (server : nat)
| ErrServer (status : N)
| ErrApi (msg : jsstring)
| ErrNoResult
| ErrMissingAccountData
| ErrHost (t : Thrown)
| ErrNull.

(** What the client does that the outside sees. *)
Inductive Event : Type :=
| Request (server : nat) (method : Method) (address : jsstring)
| Sleep (ms : Z).

(** The client's state: the module variable [currentServerIndex], the log
    of requests and waits, and the network, which answers the [n]-th
    request (from 0) sent to server [k] with [net n k]. *)
Record Client : Type := mkClient {
  currentServerIndex : nat;
  trace : list Event;
  net : nat -> nat -> Reply
}.

Definition isRequest (e : Event) : bool :=
  match e with Request _ _ _ => true | Sleep _ => false end.
Definition requestsSent (w : Client) : nat := length (List.filter isRequest (trace w)).

Definition emit (e : Event) : M Client RpcError unit :=
  fun w => (Ok tt, mkClient (currentServerIndex w) (trace w ++ [e]) (net w)).

(** [await fetch(server, ...)] *)
Definition fetch (server : nat) (method : Method) (address : jsstring)
  : M Client RpcError Reply :=
  fun w => (emit (Request server method address) ;; ret (net w (requestsSent w) server)) w.

(** [if (currentServerIndex < XRPL_SERVERS.length - 1) currentServerIndex++] *)
Definition advanceServer : M Client RpcError unit :=
  fun w =>
    if (currentServerIndex w <? length XRPL_SERVERS - 1)%nat
    then (Ok tt, mkClient (S (currentServerIndex w)) (trace w) (net w))
    else (Ok tt, w).

(** [await p] on a promise of the transport. *)
Definition await {A} (p : Settled A) : M Client RpcError A :=
  match p with
  | Resolves a => ret a
  | Rejects t => throw (ErrHost t)
  end.

(** A string that is present and not empty. *)
Definition truthy (s : option jsstring) : bool :=
  match s with
  | Some (_ :: _) => true
  | _ => false
  end.

(** [makeXRPLRequest(method, [{account, ledger_index: 'validated'}])] *)
Definition makeXRPLRequest (method : Method) (address : jsstring)
  : M Client RpcError Result :=
  fun w0 =>
    let server := currentServerIndex w0 in
    (if truthy (Some address) && negb (validateXRPLAddress address)
     then throw (ErrInvalidFormat address)
     else
       catch
         (let* response := fetch server method address in
          match response with
          | FetchRejects t => throw (ErrHost t)
          | Response status text json =>
              if negb (ok status) then
                let* errorText := await text in
                advanceServer ;;
                throw (ErrServer status)
              else
                let* data := await json in
                match data with
                | DataNull => throw (ErrHost (mkThrown true false))
                | DataObj (Some r) =>
                    if truthy (error r) then
                      throw (ErrApi (if truthy (error_message r)
                                     then default [] (error_message r)
                                     else default [] (error r)))
                    else ret r
                | DataObj None => throw ErrNoResult
                end
          end)
         (fun e =>
            match e with
            | ErrHost t =>
                if isTypeError t && mentionsFetch t then throw (ErrNetwork server)
                else throw e
            | _ => throw e
            end)) w0.

(** The loop of [retryWithBackoff] from [attempt] on; [left_] is
    [maxRetries - attempt], the iterations the loop test still lets
    through, after which [lastError] is thrown. *)
Fixpoint retryLoop {A} (fn : M Client RpcError A) (left_ : nat) (attempt maxRetries : nat)
  (initialDelay : Z) (lastError : RpcError) : M Client RpcError A :=
  match left_ with
  | O => throw lastError
  | S left' =>
      catch fn
        (fun e =>
           (if (attempt <? maxRetries - 1)%nat
            then emit (Sleep (initialDelay * 2 ^ Z.of_nat attempt))
            else ret tt) ;;
           retryLoop fn left' (S attempt) maxRetries initialDelay e)
  end.

(** [retryWithBackoff(fn, maxRetries, initialDelay)]. The function is
    private to the module and every call of it leaves both numbers at
    their defaults, 3 and 1000. [maxRetries : nat] and [initialDelay : Z]
    stand for whole numbers on which the arithmetic of the source, on
    doubles, is exact: the loop counter, [maxRetries - 1] and
    [initialDelay * Math.pow(2, attempt)] are then the integers computed
    here. A fraction, [NaN], an infinity, or a product beyond the exact
    range of a double is outside this model. *)
Definition retryWithBackoff {A} (fn : M Client RpcError A) (maxRetries : nat)
  (initialDelay : Z) : M Client RpcError A :=
  retryLoop fn maxRetries O maxRetries initialDelay ErrNull.

(** The call with the default arguments, [maxRetries = 3] and
    [initialDelay = 1000]. *)
Definition retryDefault {A} (fn : M Client RpcError A) : M Client RpcError A :=
  retryWithBackoff fn 3 1000.

(** [fetchAccountInfo] *)
Definition fetchAccountInfo (address : jsstring) : M Client RpcError AccountInfo :=
  if negb (validateXRPLAddress address) then throw (ErrInvalidAddress address)
  else
    catch
      (let* result := retryDefault (makeXRPLRequest account_info address) in
       match account_data result with
       | None => throw ErrMissingAccountData
       | Some d => ret d
       end)
      (fun e => throw e).

(** [fetchAccountLines] *)
Definition fetchAccountLines (address : jsstring) : M Client RpcError (list TrustLine) :=
  if negb (validateXRPLAddress address) then throw (ErrInvalidAddress address)
  else
    catch
      (let* result := retryDefault (makeXRPLRequest account_lines address) in
       ret (default [] (lines result)))
      (fun e => throw e).

(** [fetchAccountNFTs] *)
Definition fetchAccountNFTs (address : jsstring) : M Client RpcError (list NFToken) :=
  if negb (validateXRPLAddress address) then throw (ErrInvalidAddress address)
  else
    catch
      (let* result := retryDefault (makeXRPLRequest account_nfts address) in
       ret (default [] (r_account_nfts result)))
      (fun _ => ret []).

(** ** The retry policy as the specification words it *)

(** The state after waiting [ms]. *)
Definition wait (ms : Z) (w : Client) : Client := snd (emit (Sleep ms) w).

(** The wait before retry attempt [k], from 1: [initialDelay * 2^(k-1)]
    with [initialDelay = 1000]. *)
Definition retryDelay (k : nat) : Z := 1000 * 2 ^ (Z.of_nat k - 1).

(** Section 4.2 on the NFT fetch being outside the retry policy, for one
    state and address: what is sent and waited is what one request sends. *)
Definition nft_single_attempt_claim (w : Client) (address : jsstring) : Prop :=
  validateXRPLAddress address = true ->
  trace (snd (fetchAccountNFTs address w))
  = trace (snd (makeXRPLRequest account_nfts address w)).

(** A reply that is not a result: the transport fails, the status is not
    2xx, the body cannot be parsed or has no result, or the result is an
    API error. *)
Definition failing (r : Reply) : bool :=
  match r with
  | FetchRejects _ => true
  | Response status _ json =>
      if ok status then
        match json with
        | Resolves (DataObj (Some r)) => truthy (error r)
        | _ => true
        end
      else true
  end.

(** Sample data for running the client: a trust line, a result carrying
    it, a network that never answers, one that answers 503, one that
    answers with an API error, and one that fails twice and then
    answers. *)
Definition sampleLine : TrustLine :=
  mkTrustLine sampleIssuer (js "12.5") (js "ASC") (js "1000") (js "0") 0 0.
Definition linesResult : Result := mkResult None None None (Some [sampleLine]) None.
Definition entryNotFound : Result :=
  mkResult (Some (js "actNotFound")) (Some (js "Account not found.")) None None None.
Definition good (r : Result) : Reply :=
  Response 200 (Resolves []) (Resolves (DataObj (Some r))).
Definition unreachable : Reply := FetchRejects (mkThrown true true).
Definition deadClient : Client := mkClient 0 [] (fun _ _ => unreachable).
Definition busyClient : Client :=
  mkClient 0 [] (fun _ _ => Response 503 (Resolves []) (Resolves DataNull)).
Definition refusingClient : Client := mkClient 0 [] (fun _ _ => good entryNotFound).
Definition flakyClient : Client :=
  mkClient 0 [] (fun n _ => if (n <? 2)%nat then unreachable else good linesResult).

(** ** The codec as the specification words it *)

Definition isUpperHexDigit (c : N) : bool := inRange 48 57 c || inRange 65 70 c.

(** Digit [d < 16] in upper case. *)
Definition upperDigit (d : N) : N := if d <? 10 then 48 + d else 55 + d.

(** A character as a 2-hex-digit byte, upper case. *)
Definition byteHex (c : N) : jsstring := [upperDigit (c / 16); upperDigit (c mod 16)].

(** The byte two hex digits spell. *)
Definition pairByte (a b : N) : N :=
  16 * default 0 (hexDigitValue a) + default 0 (hexDigitValue b).

(** The byte pairs of a hex string, as numbers. *)
Fixpoint bytePairs (s : jsstring) : list N :=
  match s with
  | a :: b :: r => pairByte a b :: bytePairs r
  | _ => []
  end.

(** The bytes before the first zero byte. *)
Fixpoint untilZero (bs : list N) : list N :=
  match bs with
  | b :: r => if b =? 0 then [] else b :: untilZero r
  | [] => []
  end.

(** [decode] of section 4.3, over the trimming it names: an input that is
    not 40 hex characters is returned as it is; otherwise the byte pairs up
    to the first zero byte are the characters, trimmed, and an empty result
    gives the hex back. *)
Definition decode_ref (trimming : jsstring -> jsstring) (hex : jsstring) : jsstring :=
  if isHexCurrency hex then
    match trimming (untilZero (bytePairs hex)) with
    | [] => hex
    | t => t
    end
  else hex.

(** [encode] of section 4.3: a string of length 3 as it is; otherwise each
    character as a 2-hex-digit byte, padded on the right with '0' to 40,
    upper case. *)
Definition encode_ref (str : jsstring) : jsstring :=
  if (length str =? 3)%nat then str
  else padEnd 40 48 (flat_map byteHex str).

(** The value of the hex pair at byte position [i] of [r]. *)
Definition pairValue (r : jsstring) (i : nat) : option N :=
  match r !! (2 * i)%nat, r !! (2 * i + 1)%nat with
  | Some a, Some b =>
      match hexDigitValue a, hexDigitValue b with
      | Some x, Some y => Some (16 * x + y)
      | _, _ => None
      end
  | _, _ => None
  end.

(** What section 8 says of [encode s] for [s] of length other than 3. *)
Definition encode_shape (s r : jsstring) : Prop :=
  length r = 40%nat
  /\ Forall (fun c => isUpperHexDigit c = true) r
  /\ forall (i : nat) (c : N), s !! i = Some c -> pairValue r i = Some c.

(** [c.toString(16).padStart(2, '0')], the piece [stringToHex] adds for
    one character. *)
Definition pad2 (c : N) : jsstring := padStart 2 48 (toString16 c).

(** Every code is at most 255. *)
Definition isByteString (s : jsstring) : bool := forallb (fun c => c <=? 255) s.

(** Every code is in 1..255. *)
Definition isNonZeroByteString (s : jsstring) : bool :=
  forallb (fun c => (1 <=? c) && (c <=? 255)) s.

(** The code units below 256, for checks by enumeration. *)
Definition below256 : list N := List.map N.of_nat (seq 0 256).

Definition optZ_eqb (a b : option Z) : bool :=
  match a, b with
  | Some x, Some y => (x =? y)%Z
  | None, None => true
  | _, _ => false
  end.

(** The encoder as sections 4.3 and 8 state it, for one input. *)
Definition encode_claim (s : jsstring) : Prop :=
  (length s = 3%nat -> stringToHex s = s)
  /\ (length s <> 3%nat ->
      stringToHex s = encode_ref s /\ encode_shape s (stringToHex s)).

(** No white space at either end. *)
Definition edgesClean (s : jsstring) : bool :=
  match s with
  | [] => true
  | c :: _ => negb (isWhiteSpace c) && negb (isWhiteSpace (List.last s c))
  end.

(** ** One request, read off the reply *)

(** The client after sending one request to its current server. *)
Definition sent (method : Method) (address : jsstring) (w : Client) : Client :=
  mkClient (currentServerIndex w)
    (trace w ++ [Request (currentServerIndex w) method address]) (net w).

(** The server after the current one, the last one staying. *)
Definition nextServer (k : nat) : nat :=
  if (k <? length XRPL_SERVERS - 1)%nat then S k else k.

(** The client after a failover. *)
Definition failedOver (w : Client) : Client :=
  mkClient (nextServer (currentServerIndex w)) (trace w) (net w).

(** What the [catch] of [makeXRPLRequest] makes of a host exception. *)
Definition classify (server : nat) (t : Thrown) : RpcError :=
  if isTypeError t && mentionsFetch t then ErrNetwork server else ErrHost t.

(** A reply that carries the result [r]: status 2xx, a body with a
    [result] member and no [error] in it. *)
Definition carries (reply : Reply) (r : Result) : Prop :=
  exists status text,
    reply = Response status text (Resolves (DataObj (Some r)))
    /\ ok status = true /\ truthy (error r) = false.

(** The errors a request on a valid address can end with, each with what
    it carries: a status that is not 2xx, a message that is not empty, a
    host exception that is not a [TypeError] mentioning 'fetch'. *)
Definition surfaced (e : RpcError) : bool :=
  match e with
  | ErrNetwork _ => true
  | ErrServer status => negb (ok status)
  | ErrApi msg => truthy (Some msg)
  | ErrNoResult => true
  | ErrHost t => negb (isTypeError t && mentionsFetch t)
  | ErrInvalidFormat _ | ErrInvalidAddress _ | ErrMissingAccountData | ErrNull => false
  end.

(** The waits logged in a trace, in order. *)
Definition sleepsOf (t : list Event) : list Z :=
  flat_map (fun e => match e with Sleep ms => [ms] | Request _ _ _ => [] end) t.

(** [n] waits starting at [d], each twice the one before. *)
Definition doubling (d : Z) (n : nat) : list Z :=
  List.map (fun k => (d * 2 ^ Z.of_nat k)%Z) (seq 0 n).

(** One list is the start of the other. *)
Definition startsWith {A} (l prefix : list A) : Prop := exists rest, l = prefix ++ rest.

(** What every operation of the client keeps between the state it starts
    in and the state it leaves: the network is the same, the trace only
    grows, the server cursor does not go back and does not pass the last
    server unless it was already past it. *)
Definition extends (w w' : Client) : Prop :=
  net w' = net w
  /\ startsWith (trace w') (trace w)
  /\ (currentServerIndex w <= currentServerIndex w')%nat
  /\ (currentServerIndex w'
      <= Nat.max (currentServerIndex w) (length XRPL_SERVERS - 1))%nat.

(** ** Consumers of the client and the whitelist (components) *)

(** [WALLETS] of [TokenList.tsx], [MONITORED_WALLETS] of the token
    metrics. *)
Record Wallet : Type := mkWallet { wallet_address : jsstring; wallet_name : jsstring }.

Definition WALLETS : list Wallet :=
  [ mkWallet (js "rdRvw4pKmEtSnz3cjXBL6HLJJmejtkoQ4") (js "GreedyJEW Issuer");
    mkWallet (js "rw3DPxgusRrvdsbXSjHdXD14ogkNidTTRx") (js "Project Dev Wallet") ].

(** [Token] of [Dashboard.tsx]. *)
Record Token : Type := mkRow {
  token_currency : jsstring;
  token_issuer : jsstring;
  token_balance : jsstring;
  token_limit : option jsstring;
  token_account : option jsstring
}.

(** The text of a [WalletError]: the fixed text for an address that fails
    validation, or the message of the error caught for the wallet, thrown
    by the fetch or by the whitelist. *)
Inductive ErrorText : Type :=
| InvalidFormatText
| MessageOf (e : RpcError)
| StoreMessageOf (e : StoreError).

Record WalletError : Type := mkWalletError {
  we_wallet : jsstring;
  we_address : jsstring;
  we_error : ErrorText
}.

(** [displayCurrency] in [TokenList.loadTokens]: a 40-hex currency is shown
    decoded. *)
Definition displayCurrency (line : TrustLine) : jsstring :=
  if isHexCurrency (line_currency line) then hexToString (line_currency line)
  else line_currency line.

(** The callback of [filteredLines.map] in [TokenList.loadTokens]. *)
Definition toToken (walletName : jsstring) (line : TrustLine) : Token :=
  mkRow (displayCurrency line) (account line) (balance line) (Some (limit line))
    (Some walletName).

(** The callback of [lines.find] in the token metrics' [loadHoldings]. *)
Definition holdsToken (token : Token) (line : TrustLine) : bool :=
  strictEq (line_currency line) (token_currency token)
  && strictEq (account line) (token_issuer token).

(** [lines.find(...)] there. *)
Definition matchingLine (token : Token) (lines : list TrustLine) : option TrustLine :=
  List.find (holdsToken token) lines.

(** The two states together. *)
Record App : Type := mkApp { client : Client; store : Store }.

Section TokenList.

Variable toLowerCase : jsstring -> jsstring.

(** [lines.filter(line => isTokenWhitelisted(line.currency, line.account))]:
    each call loads the whitelist again. *)
Fixpoint filterWhitelisted (lines : list TrustLine) : M Store StoreError (list TrustLine) :=
  match lines with
  | [] => ret []
  | line :: rest =>
      let* isWhitelisted :=
        isTokenWhitelisted toLowerCase (line_currency line) (account line) in
      let* kept := filterWhitelisted rest in
      ret (if isWhitelisted then line :: kept else kept)
  end.

(** While [loadTokens] waits for the fetch of a wallet, other code of the
    page runs: the configuration dialog adds, removes and updates entries,
    another tab writes the storage. [meanwhile position] is what that code
    has done to the whitelist by the time the fetch for the wallet at
    [position] has settled; between the end of the wait and the next fetch
    nothing else runs. The client is used by one operation at a time, as
    in the fetches themselves. *)
Variable meanwhile : nat -> Store -> Store.

(** The second loop of [TokenList.loadTokens], over the wallets left,
    [position] being the place of the first of them in the list: a wallet
    that fails validation is skipped, one whose fetch throws adds an error,
    one whose fetch returns adds its whitelisted lines as tokens. *)
Fixpoint fetchWallets (wallets : list Wallet) (position : nat) (allTokens : list Token)
  (errors : list WalletError) (a : App) : (list Token * list WalletError) * App :=
  match wallets with
  | [] => ((allTokens, errors), a)
  | wallet :: rest =>
      if negb (validateXRPLAddress (wallet_address wallet))
      then fetchWallets rest (S position) allTokens errors a
      else
        match fetchAccountLines (wallet_address wallet) (client a) with
        | (Ok lines, c) =>
            match filterWhitelisted lines (meanwhile position (store a)) with
            | (Ok filteredLines, s) =>
                fetchWallets rest (S position)
                  (allTokens ++ List.map (toToken (wallet_name wallet)) filteredLines)
                  errors (mkApp c s)
            | (Err e, s) =>
                fetchWallets rest (S position) allTokens
                  (errors ++ [mkWalletError (wallet_name wallet) (wallet_address wallet)
                                (StoreMessageOf e)])
                  (mkApp c s)
            end
        | (Err e, c) =>
            fetchWallets rest (S position) allTokens
              (errors ++ [mkWalletError (wallet_name wallet) (wallet_address wallet)
                            (MessageOf e)])
              (mkApp c (meanwhile position (store a)))
        end
  end.

(** The first loop: one error for each wallet that fails validation. *)
Definition validationErrors (wallets : list Wallet) : list WalletError :=
  flat_map
    (fun wallet =>
       if negb (validateXRPLAddress (wallet_address wallet))
       then [mkWalletError (wallet_name wallet) (wallet_address wallet) InvalidFormatText]
       else [])
    wallets.

(** [loadTokens] of [TokenList.tsx] over a list of wallets: the values it
    hands to [setTokens] and [setWalletErrors], and the state it leaves. *)
Definition loadTokensOf (wallets : list Wallet) (a : App)
  : (list Token * list WalletError) * App :=
  let '(_, s) := loadTokenConfig (store a) in
  fetchWallets wallets 0 [] (validationErrors wallets) (mkApp (client a) s).

(** [loadTokens] *)
Definition loadTokens : App -> (list Token * list WalletError) * App :=
  loadTokensOf WALLETS.

(** The two states when [loadTokens] comes to the wallet at [position]:
    those its run over the wallets before that one ends in. *)
Definition reached (wallets : list Wallet) (position : nat) (a : App) : App :=
  snd (loadTokensOf (firstn position wallets) a).

(** The whitelist as a load reads it when the fetch for the wallet at
    [position] has settled. *)
Definition whitelistAt (wallets : list Wallet) (position : nat) (a : App)
  : list TokenConfig :=
  loaded (meanwhile position (store (reached wallets position a))).

(** What the wallet at [position] adds to the tokens shown: nothing if its
    address fails validation or its fetch throws, and else the lines its
    fetch returned that match the whitelist of that moment, in their order,
    each mapped for display under the wallet's name. *)
Definition tokensAt (wallets : list Wallet) (a : App) (position : nat) : list Token :=
  match nth_error wallets position with
  | Some wallet =>
      if validateXRPLAddress (wallet_address wallet) then
        match fetchAccountLines (wallet_address wallet)
                (client (reached wallets position a)) with
        | (Ok lines, _) =>
            List.map (toToken (wallet_name wallet))
              (List.filter
                 (fun line =>
                    existsb (matchesToken toLowerCase (line_currency line) (account line))
                      (whitelistAt wallets position a))
                 lines)
        | (Err _, _) => []
        end
      else []
  | None => []
  end.

(** What the wallet at [position] adds to the errors in the second loop:
    one error with the message of what its fetch threw, and nothing if the
    fetch returned or the address fails validation. *)
Definition fetchErrorAt (wallets : list Wallet) (a : App) (position : nat)
  : list WalletError :=
  match nth_error wallets position with
  | Some wallet =>
      if validateXRPLAddress (wallet_address wallet) then
        match fetchAccountLines (wallet_address wallet)
                (client (reached wallets position a)) with
        | (Ok _, _) => []
        | (Err e, _) =>
            [mkWalletError (wallet_name wallet) (wallet_address wallet) (MessageOf e)]
        end
      else []
  | None => []
  end.

End TokenList.

(** What [loadWalletData] of [WalletHoldings.tsx] ends with: the message it
    sets for an address that fails validation, the message of the error a
    fetch threw, or the three values it sets. *)
Inductive WalletView : Type :=
| ViewInvalidAddress
| ViewFailed (e : RpcError)
| ViewLoaded (info : AccountInfo) (lines : list TrustLine) (nfts : list NFToken).

(** [loadWalletData] *)
Definition loadWalletData (walletAddress : jsstring) (w : Client) : WalletView * Client :=
  if negb (validateXRPLAddress walletAddress) then (ViewInvalidAddress, w)
  else
    match fetchAccountInfo walletAddress w with
    | (Err e, w1) => (ViewFailed e, w1)
    | (Ok info, w1) =>
        match fetchAccountLines walletAddress w1 with
        | (Err e, w2) => (ViewFailed e, w2)
        | (Ok lines, w2) =>
            match fetchAccountNFTs walletAddress w2 with
            | (Err e, w3) => (ViewFailed e, w3)
            | (Ok nfts, w3) => (ViewLoaded info lines nfts, w3)
            end
        end
    end.

(** The requests of a trace, by method. *)
Definition requestsOf (t : list Event) : list Method :=
  flat_map (fun e => match e with Request _ m _ => [m] | Sleep _ => [] end) t.

(** Sample data for running the consumers: a trust line in the 40-hex
    form of "GreedyJEW", and a network that always answers with it. *)
Definition hexLine : TrustLine :=
  mkTrustLine (js "rdRvw4pKmEtSnz3cjXBL6HLJJmejtkoQ4") (js "5")
    (js "4772656564794A45570000000000000000000000") (js "1000") (js "0") 0 0.
Definition answering (r : Result) : Client := mkClient 0 [] (fun _ _ => good r).
Definition noData : Result := mkResult None None None None None.
Definition hexLinesResult : Result := mkResult None None None (Some [hexLine]) None.
Definition sampleApp : App := mkApp (answering hexLinesResult) (roomyStore NoItem).

(** Other code at work during [loadTokens]: nothing while the first wallet
    is fetched, and the user's entry ABCD removed from the whitelist while
    the second is; a network that answers every request with one trust
    line of ABCD, and a whitelist that has ABCD after the defaults. *)
Definition undisturbed : nat -> Store -> Store := fun _ s => s.
Definition removingABCD : nat -> Store -> Store :=
  fun position s =>
    match position with
    | O => s
    | S _ => snd (removeToken (js "ABCD") sampleIssuer s)
    end.
Definition lineABCD : TrustLine :=
  mkTrustLine sampleIssuer (js "5") (js "ABCD") (js "1000") (js "0") 0 0.
Definition appABCD : App :=
  mkApp (answering (mkResult None None None (Some [lineABCD]) None))
    (roomyStore (Json (DEFAULT_TOKENS ++ [tokenABCD]))).

(** * Properties *)

(** ** The definitions at work *)

Example hexToString_ABC :
  hexToString (js "4142430000000000000000000000000000000000") = js "ABC".
Proof. vm_compute. reflexivity. Qed.

Example stringToHex_GreedyJEW :
  stringToHex (js "GreedyJEW") = js "4772656564794A45570000000000000000000000".
Proof. vm_compute. reflexivity. Qed.

Example validate_scenario :
  validateXRPLAddress (js "rdRvw4pKmEtSnz3cjXBL6HLJJmejtkoQ4") = true
  /\ validateXRPLAddress (js "abc") = false
  /\ validateXRPLAddress (js "") = false.
Proof. vm_compute. auto. Qed.

Example toString16_samples :
  toString16 0 = js "0" /\ toString16 10 = js "a" /\ toString16 255 = js "ff"
  /\ toString16 256 = js "100" /\ toString16 8364 = js "20ac".
Proof. vm_compute. auto. Qed.

Example parseInt16_samples :
  parseInt16 (js "4A") = Some 74%Z /\ parseInt16 (js "ZZ") = None
  /\ parseInt16 (js "1Z") = Some 1%Z /\ parseInt16 (js " 7") = Some 7%Z
  /\ parseInt16 (js "-5") = Some (-5)%Z /\ parseInt16 (js "0x") = None
  /\ parseInt16 (js "+f") = Some 15%Z.
Proof. vm_compute. auto 10. Qed.

(** ** Code units below 256, by enumeration *)

Lemma in_below256 (c : N) : c < 256 -> In c below256.
Proof.
  intros H. unfold below256.
  apply in_map_iff. exists (N.to_nat c). split; [apply N2Nat.id|].
  apply in_seq. lia.
Qed.

Lemma forall_below256 (P : N -> bool) :
  forallb P below256 = true -> forall c, c < 256 -> P c = true.
Proof.
  intros H c Hc. rewrite forallb_forall in H. apply H, in_below256, Hc.
Qed.

Lemma strictEq_spec (a b : jsstring) : strictEq a b = true <-> a = b.
Proof.
  revert b. induction a as [|x a IH]; intros [|y b]; simpl; try (split; congruence).
  rewrite andb_true_iff, N.eqb_eq, IH. split.
  - intros [-> ->]. reflexivity.
  - intros [= -> ->]. auto.
Qed.

Lemma strictEq_refl (a : jsstring) : strictEq a a = true.
Proof. apply strictEq_spec. reflexivity. Qed.

(** ** Encoding *)

Lemma pad2_upper (c : N) : c < 256 -> toUpperCase (pad2 c) = byteHex c.
Proof.
  intros Hc.
  pose proof (forall_below256
    (fun c => strictEq (toUpperCase (pad2 c)) (byteHex c)) eq_refl c Hc) as H.
  apply strictEq_spec in H. exact H.
Qed.

Lemma pad2_length (c : N) : c < 256 -> length (pad2 c) = 2%nat.
Proof.
  intros Hc.
  pose proof (forall_below256
    (fun c => (length (pad2 c) =? 2)%nat) eq_refl c Hc) as H.
  apply Nat.eqb_eq in H. exact H.
Qed.

Lemma toUpperCase_app (a b : jsstring) :
  toUpperCase (a ++ b) = toUpperCase a ++ toUpperCase b.
Proof. unfold toUpperCase. apply flat_map_app. Qed.

Lemma toUpperCase_zeros (k : nat) : toUpperCase (replicate k 48) = replicate k 48.
Proof. induction k as [|k IH]; simpl; [reflexivity|]. f_equal. exact IH. Qed.

Lemma toUpperCase_pad2s (s : jsstring) :
  Forall (fun c => c < 256) s ->
  toUpperCase (flat_map pad2 s) = flat_map byteHex s.
Proof.
  induction 1 as [|c s Hc _ IH]; simpl; [reflexivity|].
  rewrite toUpperCase_app, IH, pad2_upper by assumption. reflexivity.
Qed.

Lemma pad2s_length (s : jsstring) :
  Forall (fun c => c < 256) s -> length (flat_map pad2 s) = (2 * length s)%nat.
Proof.
  induction 1 as [|c s Hc _ IH]; simpl; [reflexivity|].
  rewrite length_app, IH, pad2_length by assumption. lia.
Qed.

Lemma byteHexs_length (s : jsstring) : length (flat_map byteHex s) = (2 * length s)%nat.
Proof. induction s as [|c s IH]; simpl; [reflexivity|]. rewrite IH. lia. Qed.

(** On byte strings [stringToHex] is the specification's [encode]. *)
Lemma stringToHex_bytes (s : jsstring) :
  Forall (fun c => c < 256) s -> stringToHex s = encode_ref s.
Proof.
  intros Hs. unfold stringToHex, encode_ref.
  destruct (length s =? 3)%nat; [reflexivity|].
  unfold padEnd. fold pad2.
  change (flat_map (fun c => padStart 2 48 (toString16 c)) s) with (flat_map pad2 s).
  rewrite toUpperCase_app, toUpperCase_zeros, toUpperCase_pad2s by assumption.
  rewrite pad2s_length, byteHexs_length by assumption. reflexivity.
Qed.

Lemma isByteString_Forall (s : jsstring) :
  isByteString s = true -> Forall (fun c => c < 256) s.
Proof.
  unfold isByteString. rewrite forallb_forall, Forall_forall.
  intros H c Hc. apply H in Hc. apply N.leb_le in Hc. lia.
Qed.

Lemma hexDigitValue_upperDigit (d : N) : d < 16 -> hexDigitValue (upperDigit d) = Some d.
Proof.
  intros Hd.
  pose proof (forall_below256
    (fun d => implb (d <? 16)
                (match hexDigitValue (upperDigit d) with
                 | Some x => x =? d
                 | None => false
                 end)) eq_refl d ltac:(lia)) as H.
  cbv beta in H. apply N.ltb_lt in Hd. rewrite Hd in H. simpl in H.
  destruct (hexDigitValue (upperDigit d)); [|discriminate].
  apply N.eqb_eq in H. congruence.
Qed.

Lemma isUpperHexDigit_upperDigit (d : N) : d < 16 -> isUpperHexDigit (upperDigit d) = true.
Proof.
  intros Hd.
  pose proof (forall_below256
    (fun d => implb (d <? 16) (isUpperHexDigit (upperDigit d))) eq_refl d ltac:(lia)) as H.
  cbv beta in H. apply N.ltb_lt in Hd. rewrite Hd in H. exact H.
Qed.

Lemma byteHex_digits (c : N) : c < 256 -> c / 16 < 16 /\ c mod 16 < 16.
Proof.
  intros Hc. split.
  - apply N.Div0.div_lt_upper_bound. lia.
  - apply N.mod_lt. lia.
Qed.

Lemma pairValue_byteHexs (s rest : jsstring) (i : nat) (c : N) :
  Forall (fun c => c < 256) s ->
  s !! i = Some c ->
  pairValue (flat_map byteHex s ++ rest) i = Some c.
Proof.
  intros Hs. revert i. induction Hs as [|c0 s Hc0 _ IH]; intros i Hi.
  - discriminate.
  - destruct i as [|i].
    + injection Hi as ->. unfold pairValue. simpl.
      destruct (byteHex_digits c Hc0) as [Hq Hr].
      rewrite !hexDigitValue_upperDigit by assumption.
      f_equal. rewrite (N.div_mod c 16) at 3 by lia. reflexivity.
    + simpl in Hi. specialize (IH i Hi). unfold pairValue in *.
      replace (2 * S i)%nat with (S (S (2 * i))) by lia.
      replace (S (S (2 * i)) + 1)%nat with (S (S (2 * i + 1))) by lia.
      simpl flat_map. exact IH.
Qed.

Lemma upperHex_byteHexs (s : jsstring) :
  Forall (fun c => c < 256) s ->
  Forall (fun c => isUpperHexDigit c = true) (flat_map byteHex s).
Proof.
  induction 1 as [|c s Hc _ IH]; simpl; [constructor|].
  destruct (byteHex_digits c Hc) as [Hq Hr].
  repeat constructor; auto using isUpperHexDigit_upperDigit.
Qed.

(** The shape of [encode_ref s] for a byte string of at most 20 characters. *)
Lemma encode_ref_shape (s : jsstring) :
  (length s =? 3)%nat = false -> (length s <= 20)%nat ->
  Forall (fun c => c < 256) s ->
  encode_ref s = flat_map byteHex s ++ replicate (40 - 2 * length s) 48
  /\ encode_shape s (encode_ref s).
Proof.
  intros H3 Hlen Hs.
  assert (E : encode_ref s = flat_map byteHex s ++ replicate (40 - 2 * length s) 48).
  { unfold encode_ref, padEnd. rewrite H3, byteHexs_length. reflexivity. }
  split; [exact E|]. rewrite E. repeat split.
  - rewrite length_app, byteHexs_length, length_replicate. lia.
  - apply Forall_app. split; [apply upperHex_byteHexs, Hs|].
    apply Forall_forall. intros c Hc. rewrite <- list_elem_of_In in Hc.
    apply elem_of_replicate in Hc as [-> _]. reflexivity.
  - intros i c Hi. apply pairValue_byteHexs; assumption.
Qed.

(** C5, as amended. A string of length 3 is returned as it is. A string of
    another length, at most 20 characters long and with every character
    code at most 255, is encoded as the specification says: each character
    as a 2-hex-digit byte, padded with '0' to 40, upper case; the result is
    40 long, made of upper-case hex digits, and its leading pairs are the
    character codes. *)
Theorem stringToHex_encodes (s : jsstring) :
  (length s = 3%nat -> stringToHex s = s)
  /\ (length s <> 3%nat -> (length s <= 20)%nat -> isByteString s = true ->
      stringToHex s = flat_map byteHex s ++ replicate (40 - 2 * length s) 48
      /\ stringToHex s = encode_ref s
      /\ encode_shape s (stringToHex s)).
Proof.
  split.
  - intros H. unfold stringToHex. rewrite H. reflexivity.
  - intros H3 Hlen Hb. apply isByteString_Forall in Hb.
    apply Nat.eqb_neq in H3.
    destruct (encode_ref_shape s H3 Hlen Hb) as [E Hshape].
    rewrite (stringToHex_bytes s Hb). auto.
Qed.

Lemma stringToHex_encodes_witness :
  stringToHex (js "GreedyJEW")
  = flat_map byteHex (js "GreedyJEW") ++ replicate (40 - 2 * length (js "GreedyJEW")) 48
  /\ stringToHex (js "GreedyJEW") = encode_ref (js "GreedyJEW")
  /\ encode_shape (js "GreedyJEW") (stringToHex (js "GreedyJEW")).
Proof.
  apply (proj2 (stringToHex_encodes (js "GreedyJEW"))).
  - vm_compute. discriminate.
  - vm_compute. lia.
  - vm_compute. reflexivity.
Defined.

(** C5 as stated fails: 21 characters encode to 42 hex digits, and a
    character code above 255 does not encode to one byte. *)
Lemma stringToHex_not_always_40 :
  ~ encode_claim (replicate 21 65) /\ ~ encode_claim [256].
Proof.
  split; intros [_ H].
  - destruct (H ltac:(discriminate)) as [_ [Hl _]]. vm_compute in Hl. discriminate.
  - destruct (H ltac:(discriminate)) as [_ [_ [_ Hp]]].
    specialize (Hp O 256 eq_refl). vm_compute in Hp. discriminate.
Qed.

(** ** Decoding *)

Lemma isHexDigit_below (c : N) : isHexDigit c = true -> c < 256.
Proof.
  unfold isHexDigit, hexDigitValue, inRange.
  destruct (48 <=? c) eqn:E1, (c <=? 57) eqn:E2, (65 <=? c) eqn:E3,
    (c <=? 70) eqn:E4, (97 <=? c) eqn:E5, (c <=? 102) eqn:E6; simpl;
    try discriminate; intros _;
    repeat match goal with
      | H : (_ <=? _) = true |- _ => apply N.leb_le in H
      | H : (_ <=? _) = false |- _ => apply N.leb_gt in H
      end; lia.
Qed.

Lemma parseInt16_pair (a b : N) :
  isHexDigit a = true -> isHexDigit b = true ->
  parseInt16 [a; b] = Some (Z.of_N (pairByte a b)) /\ pairByte a b < 256.
Proof.
  intros Ha Hb.
  assert (Hall : forallb (fun a => forallb (fun b =>
            implb (isHexDigit a && isHexDigit b)
              (optZ_eqb (parseInt16 [a; b]) (Some (Z.of_N (pairByte a b)))
               && (pairByte a b <? 256))) below256) below256 = true)
    by (vm_compute; reflexivity).
  pose proof (forall_below256 _ Hall a (isHexDigit_below a Ha)) as H1.
  cbv beta in H1.
  pose proof (forall_below256 _ H1 b (isHexDigit_below b Hb)) as H2.
  cbv beta in H2. rewrite Ha, Hb in H2. simpl in H2.
  apply andb_true_iff in H2 as [H2 H3]. apply N.ltb_lt in H3. split; [|exact H3].
  destruct (parseInt16 [a; b]) as [z|]; simpl in H2; [|discriminate].
  apply Z.eqb_eq in H2. congruence.
Qed.

Lemma substr_at (pre rest : jsstring) (a b : N) :
  substr (pre ++ a :: b :: rest) (length pre) 2 = [a; b].
Proof. unfold substr. rewrite drop_app_length. reflexivity. Qed.

Lemma fromCharCode_byte (v : N) : v < 256 -> fromCharCode (Some (Z.of_N v)) = v.
Proof.
  intros Hv. unfold fromCharCode. rewrite Z.mod_small by lia. apply N2Z.id.
Qed.

(** On hex digits the loop of [hexToString] reads the byte pairs up to the
    first zero byte. *)
Lemma hexToString_loop_hex (fuel : nat) :
  forall (rest pre str : jsstring),
    forallb isHexDigit rest = true ->
    Nat.even (length rest) = true ->
    (length rest <= 2 * fuel)%nat ->
    hexToString_loop fuel (pre ++ rest) (length pre) str
    = str ++ untilZero (bytePairs rest).
Proof.
  induction fuel as [|fuel IH]; intros rest pre str Hhex Hev Hlen.
  - destruct rest; [|simpl in Hlen; lia]. simpl. rewrite app_nil_r. reflexivity.
  - destruct rest as [|a [|b rest]].
    + simpl. rewrite app_nil_r, Nat.ltb_irrefl, app_nil_r. reflexivity.
    + discriminate.
    + simpl in Hhex. apply andb_true_iff in Hhex as [Ha Hhex].
      apply andb_true_iff in Hhex as [Hb Hhex].
      destruct (parseInt16_pair a b Ha Hb) as [Hp Hlt].
      cbn [hexToString_loop].
      assert (Hi : (length pre <? length (pre ++ a :: b :: rest))%nat = true).
      { apply Nat.ltb_lt. rewrite length_app. simpl. lia. }
      rewrite Hi, substr_at, Hp. cbn [bytePairs untilZero].
      pose proof (fromCharCode_byte _ Hlt) as Hc.
      destruct (pairByte a b) as [|p].
      * simpl. rewrite app_nil_r. reflexivity.
      * cbn [Z.of_N N.eqb]. cbn [Z.of_N] in Hc. rewrite Hc.
        specialize (IH rest (pre ++ [a; b]) (str ++ [N.pos p]) Hhex).
        rewrite <- app_assoc in IH. simpl in IH.
        rewrite length_app in IH. simpl in IH.
        rewrite IH; [rewrite <- app_assoc; reflexivity | exact Hev | simpl in Hlen; lia].
Qed.

(** On 40 hex characters, and on every string that is not 40 long,
    [hexToString] is the specification's [decode] with both ends trimmed. *)
Lemma hexToString_decode (hex : jsstring) :
  length hex <> 40%nat \/ isHexCurrency hex = true ->
  hexToString hex = decode_ref trim hex.
Proof.
  unfold hexToString, decode_ref, isHexCurrency.
  intros [H|H].
  - apply Nat.eqb_neq in H. rewrite H. reflexivity.
  - apply andb_true_iff in H as [Hl Hh]. rewrite Hl, Hh. simpl.
    apply Nat.eqb_eq in Hl.
    pose proof (hexToString_loop_hex (length hex) hex [] [] Hh) as E.
    simpl in E. rewrite E; [reflexivity | rewrite Hl; reflexivity | lia].
Qed.

(** The iteration bound never cuts the loop short: any two bounds that cover
    the rest of the string give the same result. *)
Lemma hexToString_loop_enough (hex : jsstring) (fuel1 : nat) :
  forall (fuel2 i : nat) (str : jsstring),
    (length hex - i <= 2 * fuel1)%nat -> (length hex - i <= 2 * fuel2)%nat ->
    hexToString_loop fuel1 hex i str = hexToString_loop fuel2 hex i str.
Proof.
  induction fuel1 as [|fuel1 IH]; intros fuel2 i str H1 H2.
  - destruct fuel2 as [|fuel2]; [reflexivity|]. simpl.
    destruct (i <? length hex)%nat eqn:E; [apply Nat.ltb_lt in E; lia | reflexivity].
  - destruct fuel2 as [|fuel2]; simpl.
    + destruct (i <? length hex)%nat eqn:E; [apply Nat.ltb_lt in E; lia | reflexivity].
    + destruct (i <? length hex)%nat eqn:E; [|reflexivity].
      apply Nat.ltb_lt in E.
      destruct (parseInt16 (substr hex i 2)) as [[| |]|]; try reflexivity;
        apply IH; lia.
Qed.

(** C4, as amended. A string whose length is not 40 is returned as it is. A
    string of 40 hex digits is read as byte pairs up to the first zero byte,
    the characters are trimmed of white space at both ends, and an empty
    result gives the hex string back, so the result is never empty. *)
Theorem hexToString_decodes (hex : jsstring) :
  (length hex <> 40%nat -> hexToString hex = hex)
  /\ (isHexCurrency hex = true ->
      hexToString hex = decode_ref trim hex
      /\ hexToString hex
         = match trim (untilZero (bytePairs hex)) with [] => hex | t => t end
      /\ hexToString hex <> []).
Proof.
  split.
  - intros H. unfold hexToString. apply Nat.eqb_neq in H. rewrite H. reflexivity.
  - intros H. rewrite (hexToString_decode hex (or_intror H)).
    unfold decode_ref. rewrite H. split; [reflexivity|]. split; [reflexivity|].
    destruct (trim (untilZero (bytePairs hex))); [|discriminate].
    intros ->. discriminate.
Qed.

Lemma hexToString_decodes_witness :
  hexToString (js "4142430000000000000000000000000000000000")
  = decode_ref trim (js "4142430000000000000000000000000000000000")
  /\ hexToString (js "4142430000000000000000000000000000000000")
     = match trim (untilZero (bytePairs (js "4142430000000000000000000000000000000000"))) with
       | [] => js "4142430000000000000000000000000000000000"
       | t => t
       end
  /\ hexToString (js "4142430000000000000000000000000000000000") <> [].
Proof.
  apply (proj2 (hexToString_decodes (js "4142430000000000000000000000000000000000"))).
  vm_compute. reflexivity.
Defined.

(** C4 as stated fails twice: white space is trimmed at the front as well
    (hex 20 41 decodes to "A", not " A"), and a string of 40 characters
    that are not hex digits is not returned as it is. *)
Lemma hexToString_not_decode_ref :
  hexToString (js "2041000000000000000000000000000000000000")
    <> decode_ref trimEnd (js "2041000000000000000000000000000000000000")
  /\ hexToString (replicate 40 90) <> decode_ref trimEnd (replicate 40 90).
Proof. split; vm_compute; discriminate. Qed.

(** ** Round trip *)

Lemma isHexDigit_upper (c : N) : isUpperHexDigit c = true -> isHexDigit c = true.
Proof.
  unfold isUpperHexDigit, isHexDigit, hexDigitValue.
  destruct (inRange 48 57 c); [reflexivity|].
  destruct (inRange 65 70 c); [reflexivity|discriminate].
Qed.

Lemma pairByte_byteHex (c : N) : c < 256 -> pairByte (upperDigit (c / 16)) (upperDigit (c mod 16)) = c.
Proof.
  intros Hc. destruct (byteHex_digits c Hc) as [Hq Hr]. unfold pairByte.
  rewrite !hexDigitValue_upperDigit by assumption. simpl.
  rewrite (N.div_mod c 16) at 3 by lia. reflexivity.
Qed.

Lemma bytePairs_byteHexs (s rest : jsstring) :
  Forall (fun c => c < 256) s ->
  bytePairs (flat_map byteHex s ++ rest) = s ++ bytePairs rest.
Proof.
  induction 1 as [|c s Hc _ IH]; [reflexivity|].
  simpl. rewrite IH, pairByte_byteHex by assumption. reflexivity.
Qed.

Lemma bytePairs_zeros (m : nat) : bytePairs (replicate (2 * m) 48) = replicate m 0.
Proof.
  induction m as [|m IH]; [reflexivity|].
  replace (2 * S m)%nat with (S (S (2 * m))) by lia. simpl.
  simpl in IH. rewrite IH. reflexivity.
Qed.

Lemma untilZero_zeros (m : nat) : untilZero (replicate m 0) = [].
Proof. destruct m; reflexivity. Qed.

Lemma untilZero_nonzero (s : jsstring) (m : nat) :
  Forall (fun c => 1 <= c) s -> untilZero (s ++ replicate m 0) = s.
Proof.
  induction 1 as [|c s Hc _ IH]; simpl; [apply untilZero_zeros|].
  destruct (c =? 0) eqn:E; [apply N.eqb_eq in E; lia|]. rewrite IH. reflexivity.
Qed.

Lemma trimStart_clean (c : N) (s : jsstring) :
  isWhiteSpace c = false -> trimStart (c :: s) = c :: s.
Proof. intros H. simpl. rewrite H. reflexivity. Qed.

Lemma trim_clean (s : jsstring) : edgesClean s = true -> trim s = s.
Proof.
  destruct s as [|c s]; [reflexivity|].
  unfold edgesClean. rewrite andb_true_iff, !negb_true_iff. intros [H1 H2].
  unfold trim, trimEnd. rewrite (trimStart_clean c s H1).
  assert (Hrev : exists l, rev (c :: s) = List.last (c :: s) c :: l).
  { exists (rev (removelast (c :: s))).
    rewrite (app_removelast_last c (l := c :: s)) at 1 by discriminate.
    rewrite rev_app_distr. reflexivity. }
  destruct Hrev as [l Hrev]. rewrite Hrev, (trimStart_clean _ _ H2), <- Hrev.
  apply rev_involutive.
Qed.

Lemma isNonZeroByteString_Forall (s : jsstring) :
  isNonZeroByteString s = true ->
  Forall (fun c => c < 256) s /\ Forall (fun c => 1 <= c) s.
Proof.
  unfold isNonZeroByteString. rewrite forallb_forall, !Forall_forall.
  intros H. split; intros c Hc; apply H in Hc;
    apply andb_true_iff in Hc as [H1 H2];
    apply N.leb_le in H1; apply N.leb_le in H2; lia.
Qed.

Lemma stringToHex_isHex (s : jsstring) :
  (length s =? 3)%nat = false -> (length s <= 20)%nat ->
  Forall (fun c => c < 256) s ->
  isHexCurrency (stringToHex s) = true.
Proof.
  intros H3 Hlen Hs.
  destruct (encode_ref_shape s H3 Hlen Hs) as [_ [Hl [Hu _]]].
  rewrite (stringToHex_bytes s Hs). unfold isHexCurrency.
  rewrite Hl. simpl. apply forallb_forall. rewrite Forall_forall in Hu.
  intros c Hc. apply isHexDigit_upper, Hu, Hc.
Qed.

(** C10. A string of 1 to 20 characters, each with a code in 1..255, that
    has no white space at either end is what decoding its encoding gives. *)
Theorem hexToString_stringToHex (x : jsstring) :
  (1 <= length x <= 20)%nat ->
  isNonZeroByteString x = true ->
  edgesClean x = true ->
  hexToString (stringToHex x) = x.
Proof.
  intros [Hlo Hhi] Hb Hclean.
  destruct (isNonZeroByteString_Forall x Hb) as [Hbyte Hnz].
  destruct (length x =? 3)%nat eqn:H3.
  - unfold stringToHex. rewrite H3. unfold hexToString.
    apply Nat.eqb_eq in H3. rewrite H3. reflexivity.
  - rewrite (hexToString_decode _ (or_intror (stringToHex_isHex x H3 Hhi Hbyte))).
    unfold decode_ref. rewrite (stringToHex_isHex x H3 Hhi Hbyte).
    rewrite (stringToHex_bytes x Hbyte).
    destruct (encode_ref_shape x H3 Hhi Hbyte) as [E _]. rewrite E.
    rewrite (bytePairs_byteHexs x _ Hbyte).
    replace (40 - 2 * length x)%nat with (2 * (20 - length x))%nat by lia.
    rewrite bytePairs_zeros, (untilZero_nonzero x _ Hnz), (trim_clean x Hclean).
    destruct x; [simpl in Hlo; lia | reflexivity].
Qed.

Lemma hexToString_stringToHex_witness :
  hexToString (stringToHex (js "DeerChickenn")) = js "DeerChickenn".
Proof.
  apply (hexToString_stringToHex (js "DeerChickenn")).
  - vm_compute. lia.
  - vm_compute. reflexivity.
  - vm_compute. reflexivity.
Defined.

(** ** The whitelist store *)

(** [loadTokenConfig] never throws; what it returns and leaves, case by
    case. *)
Lemma loadTokenConfig_eq (w : Store) :
  loadTokenConfig w =
  match item w with
  | NoItem =>
      if room w (defaults w) then (Ok TheDefaults, setItem (defaults w) w)
      else (Ok TheDefaults, w)
  | Unreadable => (Ok TheDefaults, w)
  | Json parsed =>
      if (length parsed <? length (defaults w))%nat then
        if room w (mergeDefaults parsed (defaults w))
        then (Ok (Fresh (mergeDefaults parsed (defaults w))),
              setItem (mergeDefaults parsed (defaults w)) w)
        else (Ok TheDefaults, w)
      else (Ok (Fresh parsed), w)
  end.
Proof.
  unfold loadTokenConfig, catch, bind, saveTokenConfig, ret.
  destruct (item w) as [| |parsed]; [| reflexivity |].
  - destruct (room w (defaults w)); reflexivity.
  - destruct (length parsed <? length (defaults w))%nat; [|reflexivity].
    destruct (room w (mergeDefaults parsed (defaults w))); reflexivity.
Qed.

Lemma loadTokenConfig_total (w : Store) :
  exists a w', loadTokenConfig w = (Ok a, w') /\ loaded w = deref w' a.
Proof.
  unfold loaded. rewrite loadTokenConfig_eq.
  destruct (item w) as [| |parsed].
  - destruct (room w (defaults w)); eauto.
  - eauto.
  - destruct (length parsed <? length (defaults w))%nat; [|eauto].
    destruct (room w (mergeDefaults parsed (defaults w))); eauto.
Qed.

Lemma sameKey_spec (c i : jsstring) (t : TokenConfig) :
  sameKey c i t = true <-> key t = (c, i).
Proof.
  unfold sameKey, key. rewrite andb_true_iff, !strictEq_spec.
  split; [intros [-> ->]; reflexivity | intros [= -> ->]; auto].
Qed.

Lemma existsb_sameKey (c i : jsstring) (l : list TokenConfig) :
  existsb (sameKey c i) l = true <-> In (c, i) (List.map key l).
Proof.
  rewrite existsb_exists, in_map_iff. split.
  - intros [t [Ht Hk]]. exists t. split; [apply sameKey_spec, Hk | exact Ht].
  - intros [t [Hk Ht]]. exists t. split; [exact Ht | apply sameKey_spec, Hk].
Qed.

(** ** The matcher *)

Section MatcherFacts.

Variable toLowerCase : jsstring -> jsstring.

Lemma matchesToken_rule (c i : jsstring) (t : TokenConfig) :
  matchesToken toLowerCase c i t = true
  <-> issuerRule toLowerCase i t /\ currencyRule toLowerCase c t.
Proof.
  unfold matchesToken, issuerRule, currencyRule, sameIgnoringCase.
  destruct (strictEq (trim (toLowerCase (issuer t))) (trim (toLowerCase i))) eqn:Ei.
  - apply strictEq_spec in Ei. simpl.
    destruct (isHexCurrency c).
    + rewrite orb_true_iff, !strictEq_spec. tauto.
    + rewrite strictEq_spec. tauto.
  - simpl. split; [discriminate|]. intros [H _].
    apply strictEq_spec in H. congruence.
Qed.

Lemma isTokenWhitelisted_loaded (c i : jsstring) (w : Store) :
  exists w', isTokenWhitelisted toLowerCase c i w
             = (Ok (existsb (matchesToken toLowerCase c i) (loaded w)), w').
Proof.
  destruct (loadTokenConfig_total w) as [a [w' [E El]]].
  exists w'. unfold isTokenWhitelisted, bind, read, ret. rewrite E, El. reflexivity.
Qed.

End MatcherFacts.

(** C1, as amended. [isTokenWhitelisted] returns, and it returns [true]
    exactly when some entry of the loaded whitelist has the observed issuer
    (both lower-cased and trimmed) and a currency matching under the
    hex-aware rule: a 40-hex observed currency matches when its decoding
    equals the entry's currency or when it equals the encoding of the
    entry's currency, without regard to case; any other observed currency
    matches when it equals the entry's currency without regard to case. Only
    the observed currency is ever decoded. *)
Theorem isTokenWhitelisted_iff (toLowerCase : jsstring -> jsstring)
    (observedCurrency observedIssuer : jsstring) (w : Store) :
  exists b w',
    isTokenWhitelisted toLowerCase observedCurrency observedIssuer w = (Ok b, w')
    /\ (b = true <->
        exists t, In t (loaded w)
                  /\ issuerRule toLowerCase observedIssuer t
                  /\ currencyRule toLowerCase observedCurrency t).
Proof.
  destruct (isTokenWhitelisted_loaded toLowerCase observedCurrency observedIssuer w)
    as [w' E].
  eexists. exists w'. split; [exact E|].
  rewrite existsb_exists. split.
  - intros [t [Ht Hm]]. exists t. split; [exact Ht|]. apply matchesToken_rule, Hm.
  - intros [t [Ht Hm]]. exists t. split; [exact Ht|]. apply matchesToken_rule, Hm.
Qed.

(** C1 as stated fails on its last sentence: "ABCD" in the whitelist matches
    the observed hex of "ABCD", but that hex in the whitelist does not
    match the observed "ABCD". *)
Lemma isTokenWhitelisted_not_symmetric : ~ hexSideSymmetric toLowerCaseLatin1.
Proof.
  intros H.
  specialize (H (js "ABCD") sampleIssuer None (fun _ => true) DEFAULT_TOKENS).
  vm_compute in H. discriminate.
Qed.

Example scenario_hex_ABC :
  fst (isTokenWhitelisted toLowerCaseLatin1
         (js "4142430000000000000000000000000000000000") sampleIssuer
         (roomyStore (Json [mkToken (js "ABC") sampleIssuer None])))
  = Ok true.
Proof. vm_compute. reflexivity. Qed.

(** ** The merge of [loadTokenConfig] *)

Lemma mergeDefaults_fold (parsed dflt : list TokenConfig) :
  mergeDefaults parsed dflt = fold_left mergeStep dflt parsed.
Proof. reflexivity. Qed.

Lemma existsb_key (d : TokenConfig) (l : list TokenConfig) :
  existsb (sameKey (currency d) (issuer d)) l = true <-> In (key d) (List.map key l).
Proof. apply existsb_sameKey. Qed.

Lemma merge_missing (parsed dflt : list TokenConfig) :
  forall acc,
    noDuplicateKeys dflt ->
    (forall d, In d dflt -> ~ In (key d) (List.map key acc)) ->
    fold_left mergeStep dflt (parsed ++ acc) = parsed ++ acc ++ missingFrom parsed dflt.
Proof.
  unfold noDuplicateKeys.
  induction dflt as [|d dflt IH]; intros acc Hnd Hacc; simpl.
  - rewrite app_nil_r. reflexivity.
  - inversion Hnd as [|k ks Hk Hnd']; subst.
    unfold mergeStep at 2. rewrite existsb_app.
    assert (Ea : existsb (sameKey (currency d) (issuer d)) acc = false).
    { apply not_true_is_false. rewrite existsb_key. apply Hacc. left. reflexivity. }
    rewrite Ea, orb_false_r.
    destruct (existsb (sameKey (currency d) (issuer d)) parsed) eqn:Ep; simpl.
    + apply IH; [exact Hnd'|]. intros d' Hd'. apply Hacc. right. exact Hd'.
    + rewrite <- app_assoc.
      rewrite (IH (acc ++ [d]) Hnd').
      * rewrite <- app_assoc. reflexivity.
      * intros d' Hd' Hin. rewrite map_app, in_app_iff in Hin.
        destruct Hin as [Hin|Hin].
        -- apply (Hacc d'); [right; exact Hd' | exact Hin].
        -- simpl in Hin. destruct Hin as [Hin|[]].
           apply Hk. rewrite Hin. apply in_map, Hd'.
Qed.

(** With no duplicate among the defaults, the merge appends exactly the
    defaults missing from the stored list. *)
Lemma mergeDefaults_missing (parsed dflt : list TokenConfig) :
  noDuplicateKeys dflt -> mergeDefaults parsed dflt = parsed ++ missingFrom parsed dflt.
Proof.
  intros Hnd. rewrite mergeDefaults_fold.
  pose proof (merge_missing parsed dflt [] Hnd) as H.
  rewrite app_nil_r in H. apply H. intros d _ [].
Qed.

Lemma mergeStep_noDuplicateKeys (merged : list TokenConfig) (d : TokenConfig) :
  noDuplicateKeys merged -> noDuplicateKeys (mergeStep merged d).
Proof.
  unfold noDuplicateKeys, mergeStep. intros H.
  destruct (existsb (sameKey (currency d) (issuer d)) merged) eqn:E; [exact H|].
  simpl. rewrite map_app. simpl.
  apply List.NoDup_app; [exact H | repeat constructor; intros [] |].
  intros k Hk [<-|[]]. apply existsb_key in Hk. congruence.
Qed.

(** The merge keeps a list free of duplicate keys, whatever the defaults. *)
Lemma mergeDefaults_noDuplicateKeys (parsed dflt : list TokenConfig) :
  noDuplicateKeys parsed -> noDuplicateKeys (mergeDefaults parsed dflt).
Proof.
  rewrite mergeDefaults_fold. revert parsed.
  induction dflt as [|d dflt IH]; intros parsed H; simpl; [exact H|].
  apply IH, mergeStep_noDuplicateKeys, H.
Qed.

Lemma filter_split_length {A} (f : A -> bool) (l : list A) :
  length l = (length (List.filter f l) + length (List.filter (fun x => negb (f x)) l))%nat.
Proof.
  induction l as [|x l IH]; simpl; [reflexivity|].
  destruct (f x); simpl; lia.
Qed.

Lemma noDuplicateKeys_filter (f : TokenConfig -> bool) (l : list TokenConfig) :
  noDuplicateKeys l -> noDuplicateKeys (List.filter f l).
Proof.
  unfold noDuplicateKeys. induction l as [|x l IH]; simpl; intros H; [exact H|].
  inversion H as [|k ks Hk Hnd]; subst.
  destruct (f x); simpl; [|apply IH, Hnd].
  constructor; [|apply IH, Hnd].
  intros Hin. apply Hk. apply in_map_iff in Hin as [y [Hy Hin]].
  apply filter_In in Hin as [Hin _]. rewrite <- Hy. apply in_map, Hin.
Qed.

(** The merged list is at least as long as the defaults. *)
Lemma merged_length (parsed dflt : list TokenConfig) :
  noDuplicateKeys dflt ->
  (length dflt <= length (parsed ++ missingFrom parsed dflt))%nat.
Proof.
  intros Hnd. rewrite length_app. unfold missingFrom.
  rewrite (filter_split_length
             (fun d => existsb (sameKey (currency d) (issuer d)) parsed) dflt).
  apply Nat.add_le_mono_r.
  rewrite <- (length_map key (List.filter _ dflt)), <- (length_map key parsed).
  apply List.NoDup_incl_length.
  - apply (noDuplicateKeys_filter _ dflt Hnd).
  - intros k Hk. apply in_map_iff in Hk as [d [Hd Hin]].
    apply filter_In in Hin as [_ Hex]. rewrite <- Hd. apply existsb_key, Hex.
Qed.

Lemma distinctKeys_spec (l : list TokenConfig) :
  distinctKeys l = true <-> noDuplicateKeys l.
Proof.
  unfold noDuplicateKeys. induction l as [|t l IH]; simpl.
  - split; [constructor | reflexivity].
  - rewrite andb_true_iff, negb_true_iff, List.NoDup_cons_iff, IH, <- existsb_key.
    split; intros [H1 H2]; (split; [|exact H2]).
    + rewrite H1. discriminate.
    + apply not_true_is_false, H1.
Qed.

Lemma DEFAULT_TOKENS_distinct : noDuplicateKeys DEFAULT_TOKENS.
Proof. apply distinctKeys_spec. vm_compute. reflexivity. Qed.

(** The merge of [loadTokenConfig], by what the storage does with the
    write. When storage holds fewer entries than the default list, and the
    default list has no duplicate key (the canonical one has none), the
    merged list is every stored entry, unchanged and in order, followed by
    every default entry whose key no stored entry has, and it is at least
    as long as the default list. If the storage takes the write,
    [loadTokenConfig] persists the merged list and returns it. If the
    storage rejects the write, the error of [saveTokenConfig] is caught by
    the [catch] of [loadTokenConfig] and the array [DEFAULT_TOKENS] is
    returned in place of the merged list. *)
Theorem loadTokenConfig_merges (w : Store) (l : list TokenConfig) :
  item w = Json l ->
  (length l < length (defaults w))%nat ->
  noDuplicateKeys (defaults w) ->
  let merged := l ++ missingFrom l (defaults w) in
  (length (defaults w) <= length merged)%nat
  /\ (room w merged = true ->
      loadTokenConfig w = (Ok (Fresh merged), setItem merged w)
      /\ loaded w = merged
      /\ item (snd (loadTokenConfig w)) = Json merged)
  /\ (room w merged = false ->
      loadTokenConfig w = (Ok TheDefaults, w) /\ loaded w = defaults w).
Proof.
  intros Hitem Hlen Hnd merged.
  split; [apply merged_length, Hnd|].
  unfold loaded. rewrite loadTokenConfig_eq, Hitem.
  apply Nat.ltb_lt in Hlen. rewrite Hlen.
  rewrite (mergeDefaults_missing l (defaults w) Hnd). fold merged.
  split; intros Hroom; rewrite Hroom; auto.
Qed.

Lemma loadTokenConfig_merges_witness :
  (length (defaults (roomyStore (Json [tokenABCD])))
   <= length ([tokenABCD] ++ missingFrom [tokenABCD] (defaults (roomyStore (Json [tokenABCD])))))%nat
  /\ loadTokenConfig (roomyStore (Json [tokenABCD]))
     = (Ok (Fresh ([tokenABCD] ++ missingFrom [tokenABCD] DEFAULT_TOKENS)),
        setItem ([tokenABCD] ++ missingFrom [tokenABCD] DEFAULT_TOKENS)
          (roomyStore (Json [tokenABCD]))).
Proof.
  pose proof (loadTokenConfig_merges (roomyStore (Json [tokenABCD])) [tokenABCD]
                eq_refl ltac:(vm_compute; lia) DEFAULT_TOKENS_distinct) as [H1 [H2 _]].
  split; [exact H1|]. apply H2. reflexivity.
Defined.

(** On a storage that rejects every write, the merge of section 8 is not
    what [loadTokenConfig] returns. *)
Lemma loadTokenConfig_write_rejected : ~ load_merge_claim (fullStore (Json [tokenABCD])).
Proof.
  intros H.
  destruct (H _ eq_refl) as [w' [E _]].
  - vm_compute. lia.
  - vm_compute in E. discriminate.
Qed.

(** C2, a defect of the code. Storage holds the one entry ABCD, which the
    user added, and has no room for the merged list of twelve. The error
    [saveTokenConfig] throws for the merged list is caught by the [catch]
    that [loadTokenConfig] has for a storage it cannot read, where
    [addToken], [removeToken] and [updateToken] let the same error reach
    the caller: [loadTokenConfig] returns the array [DEFAULT_TOKENS], so
    the stored entry is not in the list returned and ABCD is reported as
    not whitelisted, while the merged list the load should return has it
    first. Removing the default token ASC then stores the ten other
    defaults over the user's entry, which is lost. On a storage with room
    the same load returns the merged list and stores it. *)
Theorem loadTokenConfig_drops_stored_entry :
  let w := tightStore (Json [tokenABCD]) in
  let merged := tokenABCD :: DEFAULT_TOKENS in
  stored w = [tokenABCD]
  /\ (length (stored w) < length (defaults w))%nat
  /\ stored w ++ missingFrom (stored w) (defaults w) = merged
  /\ saveTokenConfig merged w = (Err PersistenceError, w)
  /\ loadTokenConfig w = (Ok TheDefaults, w)
  /\ loaded w = DEFAULT_TOKENS
  /\ ~ In tokenABCD (loaded w)
  /\ fst (isTokenWhitelisted toLowerCaseLatin1 (js "ABCD") sampleIssuer w) = Ok false
  /\ removeToken (js "ASC") (js "r3qWgpz2ry3BhcRJ8JE6rxM8esrfhuKp4R") w
     = (Ok tt,
        setItem (List.filter
                   (fun t => negb (sameKey (js "ASC")
                                     (js "r3qWgpz2ry3BhcRJ8JE6rxM8esrfhuKp4R") t))
                   DEFAULT_TOKENS) w)
  /\ (forall w',
        removeToken (js "ASC") (js "r3qWgpz2ry3BhcRJ8JE6rxM8esrfhuKp4R") w = (Ok tt, w') ->
        length (stored w') = 10%nat /\ ~ In tokenABCD (stored w'))
  /\ loadTokenConfig (roomyStore (Json [tokenABCD]))
     = (Ok (Fresh merged), setItem merged (roomyStore (Json [tokenABCD]))).
Proof.
  assert (Hnot : forall l, forallb (fun t => negb (sameKey (js "ABCD") sampleIssuer t)) l = true ->
                           ~ In tokenABCD l).
  { intros l Hl Hin. rewrite forallb_forall in Hl. specialize (Hl _ Hin).
    vm_compute in Hl. discriminate. }
  assert (Hrm : removeToken (js "ASC") (js "r3qWgpz2ry3BhcRJ8JE6rxM8esrfhuKp4R")
                  (tightStore (Json [tokenABCD]))
                = (Ok tt,
                   setItem (List.filter
                              (fun t => negb (sameKey (js "ASC")
                                                (js "r3qWgpz2ry3BhcRJ8JE6rxM8esrfhuKp4R") t))
                              DEFAULT_TOKENS) (tightStore (Json [tokenABCD]))))
    by (vm_compute; reflexivity).
  cbv zeta.
  split; [reflexivity|]. split; [vm_compute; lia|].
  split; [vm_compute; reflexivity|]. split; [vm_compute; reflexivity|].
  split; [vm_compute; reflexivity|]. split; [vm_compute; reflexivity|].
  split; [apply Hnot; vm_compute; reflexivity|].
  split; [vm_compute; reflexivity|].
  split; [exact Hrm|].
  split; [|vm_compute; reflexivity].
  intros w' E. rewrite Hrm in E. injection E as <-.
  split; [vm_compute; reflexivity|]. apply Hnot. vm_compute. reflexivity.
Qed.

(** ** Mutations of the store *)

(** The state [loadTokenConfig] leaves. *)
Lemma load_state (w : Store) :
  let w1 := snd (loadTokenConfig w) in
  room w1 = room w /\ defaults w1 = defaults w
  /\ (forall l, item w = Json l -> (length (defaults w) <= length l)%nat -> w1 = w)
  /\ (item w = Unreadable -> w1 = w).
Proof.
  simpl. rewrite loadTokenConfig_eq.
  destruct (item w) as [| |parsed] eqn:Ei.
  - destruct (room w (defaults w)); simpl; repeat split; congruence.
  - simpl. repeat split; congruence.
  - destruct (length parsed <? length (defaults w))%nat eqn:El.
    + apply Nat.ltb_lt in El.
      destruct (room w (mergeDefaults parsed (defaults w))); simpl; repeat split;
        try congruence; intros l [= <-] Hl; lia.
    + simpl. repeat split; congruence.
Qed.

Lemma mergeStep_keeps (acc : list TokenConfig) (d : TokenConfig) (k : jsstring * jsstring) :
  In k (List.map key acc) -> In k (List.map key (mergeStep acc d)).
Proof.
  unfold mergeStep. destruct (negb _); [|auto].
  rewrite map_app, in_app_iff. auto.
Qed.

Lemma merge_keeps (dflt acc : list TokenConfig) (k : jsstring * jsstring) :
  In k (List.map key acc) -> In k (List.map key (fold_left mergeStep dflt acc)).
Proof.
  revert acc. induction dflt as [|d dflt IH]; intros acc H; simpl; [exact H|].
  apply IH, mergeStep_keeps, H.
Qed.

Lemma merge_covers (dflt acc : list TokenConfig) (d : TokenConfig) :
  In d dflt -> In (key d) (List.map key (fold_left mergeStep dflt acc)).
Proof.
  revert acc. induction dflt as [|d0 dflt IH]; intros acc [].
  - subst d0. simpl. apply merge_keeps. unfold mergeStep.
    destruct (existsb (sameKey (currency d) (issuer d)) acc) eqn:E; simpl.
    + apply existsb_key, E.
    + rewrite map_app, in_app_iff. right. left. reflexivity.
  - simpl. apply IH. assumption.
Qed.

Lemma merge_nothing_missing (dflt acc : list TokenConfig) :
  (forall d, In d dflt -> In (key d) (List.map key acc)) ->
  fold_left mergeStep dflt acc = acc.
Proof.
  induction dflt as [|d dflt IH]; intros H; simpl; [reflexivity|].
  assert (E : mergeStep acc d = acc).
  { unfold mergeStep.
    destruct (existsb (sameKey (currency d) (issuer d)) acc) eqn:E; [reflexivity|].
    exfalso. apply not_true_iff_false in E. apply E, existsb_key, H. left. reflexivity. }
  rewrite E. apply IH. intros d' Hd'. apply H. right. exact Hd'.
Qed.

(** Merging a second time changes nothing. *)
Lemma mergeDefaults_twice (parsed dflt : list TokenConfig) :
  mergeDefaults (mergeDefaults parsed dflt) dflt = mergeDefaults parsed dflt.
Proof.
  unfold mergeDefaults at 1. apply merge_nothing_missing.
  intros d Hd. apply merge_covers, Hd.
Qed.

(** Loading is idempotent: a second [loadTokenConfig] returns the same list
    and leaves the same state. *)
Lemma load_twice (w : Store) :
  let w1 := snd (loadTokenConfig w) in
  loaded w1 = loaded w /\ snd (loadTokenConfig w1) = w1.
Proof.
  simpl. unfold loaded. rewrite !loadTokenConfig_eq.
  destruct w as [it rm dflt]. simpl.
  destruct it as [| |parsed]; simpl.
  - destruct (rm dflt) eqn:Er; simpl; rewrite ?Er; simpl.
    + rewrite Nat.ltb_irrefl. auto.
    + auto.
  - auto.
  - destruct (length parsed <? length dflt)%nat eqn:El; simpl.
    + destruct (rm (mergeDefaults parsed dflt)) eqn:Er; simpl.
      * rewrite mergeDefaults_twice, Er.
        destruct (length (mergeDefaults parsed dflt) <? length dflt)%nat; auto.
      * rewrite El, Er. auto.
    + rewrite El. auto.
Qed.

Lemma findIndex_Some {A} (p : A -> bool) (l : list A) (i : nat) :
  findIndex p l = Some i ->
  exists x, l !! i = Some x /\ p x = true
            /\ forall j y, (j < i)%nat -> l !! j = Some y -> p y = false.
Proof.
  revert i. induction l as [|a l IH]; intros i H; simpl in H; [discriminate|].
  destruct (p a) eqn:Ea.
  - injection H as <-. exists a. repeat split; auto. intros j y Hj. lia.
  - destruct (findIndex p l) as [i'|]; [|discriminate].
    injection H as <-. destruct (IH i' eq_refl) as [x [Hx [Hp Hfirst]]].
    exists x. repeat split; auto.
    intros [|j] y Hj Hy; simpl in Hy.
    + congruence.
    + apply (Hfirst j y); [lia | exact Hy].
Qed.

Lemma findIndex_None {A} (p : A -> bool) (l : list A) :
  findIndex p l = None <-> existsb p l = false.
Proof.
  induction l as [|a l IH]; simpl; [tauto|].
  destruct (p a); simpl; [split; discriminate|].
  rewrite <- IH. destruct (findIndex p l); simpl; split; congruence.
Qed.

Lemma someFrom_spec {A} (p : A -> nat -> bool) (l : list A) :
  forall n, someFrom p n l = true <-> exists j x, l !! j = Some x /\ p x (n + j)%nat = true.
Proof.
  induction l as [|a l IH]; intros n; simpl.
  - split; [discriminate | intros [j [x [H _]]]; discriminate].
  - rewrite orb_true_iff, IH. split.
    + intros [H|[j [x [Hj Hp]]]].
      * exists O, a. rewrite Nat.add_0_r. auto.
      * exists (S j), x. rewrite Nat.add_succ_r. auto.
    + intros [[|j] [x [Hj Hp]]]; simpl in Hj.
      * left. injection Hj as ->. rewrite Nat.add_0_r in Hp. exact Hp.
      * right. exists j, x. rewrite Nat.add_succ_r in Hp. auto.
Qed.

Lemma addToken_duplicate (w : Store) (token : TokenConfig) :
  validateXRPLAddress (issuer token) = true ->
  existsb (sameKey (currency token) (issuer token)) (loaded w) = true ->
  addToken token w = (Err DuplicateToken, snd (loadTokenConfig w)).
Proof.
  intros Hv Hex. destruct (loadTokenConfig_total w) as [a [w1 [E El]]].
  unfold addToken, bind, read, throw. rewrite E, Hv. simpl.
  rewrite <- El, Hex. reflexivity.
Qed.

Lemma updateToken_notFound (w : Store) (oldCurrency oldIssuer : jsstring)
    (newToken : TokenConfig) :
  validateXRPLAddress (issuer newToken) = true ->
  existsb (sameKey oldCurrency oldIssuer) (loaded w) = false ->
  updateToken oldCurrency oldIssuer newToken w = (Err NotFound, snd (loadTokenConfig w)).
Proof.
  intros Hv Hex. destruct (loadTokenConfig_total w) as [a [w1 [E El]]].
  apply findIndex_None in Hex.
  unfold updateToken, bind, read, throw. rewrite Hv. simpl. rewrite E.
  rewrite <- El, Hex. reflexivity.
Qed.

Lemma updateToken_collision (w : Store) (oldCurrency oldIssuer : jsstring)
    (newToken other : TokenConfig) (i j : nat) :
  validateXRPLAddress (issuer newToken) = true ->
  findIndex (sameKey oldCurrency oldIssuer) (loaded w) = Some i ->
  j <> i -> loaded w !! j = Some other -> key other = key newToken ->
  updateToken oldCurrency oldIssuer newToken w
  = (Err DuplicateToken, snd (loadTokenConfig w)).
Proof.
  intros Hv Hi Hj Hother Hkey. destruct (loadTokenConfig_total w) as [a [w1 [E El]]].
  unfold updateToken, bind, read, throw. rewrite Hv. simpl. rewrite E.
  rewrite <- El, Hi.
  assert (Hdup : someFrom
            (fun t i0 => negb (i0 =? i)%nat
                         && sameKey (currency newToken) (issuer newToken) t)
            0 (loaded w) = true).
  { apply someFrom_spec. exists j, other. split; [exact Hother|]. simpl.
    apply andb_true_iff. split.
    - apply negb_true_iff, Nat.eqb_neq, Hj.
    - apply sameKey_spec. exact Hkey. }
  rewrite Hdup. reflexivity.
Qed.

Lemma updateToken_success (w w2 : Store) (oldCurrency oldIssuer : jsstring)
    (newToken : TokenConfig) :
  updateToken oldCurrency oldIssuer newToken w = (Ok tt, w2) ->
  exists i old,
    findIndex (sameKey oldCurrency oldIssuer) (loaded w) = Some i
    /\ loaded w !! i = Some old
    /\ key old = (oldCurrency, oldIssuer)
    /\ item w2 = Json (<[i := newToken]> (loaded w)).
Proof.
  destruct (loadTokenConfig_total w) as [a [w1 [E El]]].
  unfold updateToken, bind, read, throw.
  destruct (validateXRPLAddress (issuer newToken)); simpl; [|discriminate].
  rewrite E, <- El.
  destruct (findIndex (sameKey oldCurrency oldIssuer) (loaded w)) as [i|] eqn:Hi;
    [|discriminate].
  destruct (someFrom _ 0 (loaded w)); [discriminate|].
  destruct (findIndex_Some _ _ _ Hi) as [old [Hold [Hp _]]].
  intros H. exists i, old. repeat split; auto; [apply sameKey_spec, Hp|].
  unfold assign, saveTokenConfig in H.
  destruct a as [|l]; simpl in *.
  - destruct (room w1 _); [|discriminate]. injection H as <-. simpl.
    rewrite El. reflexivity.
  - destruct (room w1 _); [|discriminate]. injection H as <-. simpl.
    rewrite El. reflexivity.
Qed.

(** C8, as amended. A failing mutation leaves the store exactly as
    [loadTokenConfig] leaves it: the loaded whitelist is the same, and the
    storage is untouched when it already held at least as many entries as
    the default list (otherwise the load has persisted its merge). With a
    valid issuer: [addToken] of a key already in the loaded list fails with
    [DuplicateToken]; [updateToken] with an old key matching no entry fails
    with [NotFound]; [updateToken] whose new key is the key of another entry
    than the matched one fails with [DuplicateToken]. A successful
    [updateToken] persists the loaded list with the first entry matching the
    old key replaced in place: same length, the new token at that position,
    every other position as it was. *)
Theorem store_mutations (w : Store) :
  (loaded (snd (loadTokenConfig w)) = loaded w
   /\ defaults (snd (loadTokenConfig w)) = defaults w
   /\ (forall l, item w = Json l -> (length (defaults w) <= length l)%nat ->
       snd (loadTokenConfig w) = w))
  /\ (forall token,
        validateXRPLAddress (issuer token) = true ->
        existsb (sameKey (currency token) (issuer token)) (loaded w) = true ->
        addToken token w = (Err DuplicateToken, snd (loadTokenConfig w)))
  /\ (forall oldCurrency oldIssuer newToken,
        validateXRPLAddress (issuer newToken) = true ->
        existsb (sameKey oldCurrency oldIssuer) (loaded w) = false ->
        updateToken oldCurrency oldIssuer newToken w
        = (Err NotFound, snd (loadTokenConfig w)))
  /\ (forall oldCurrency oldIssuer newToken other i j,
        validateXRPLAddress (issuer newToken) = true ->
        findIndex (sameKey oldCurrency oldIssuer) (loaded w) = Some i ->
        j <> i -> loaded w !! j = Some other -> key other = key newToken ->
        updateToken oldCurrency oldIssuer newToken w
        = (Err DuplicateToken, snd (loadTokenConfig w)))
  /\ (forall oldCurrency oldIssuer newToken w2,
        updateToken oldCurrency oldIssuer newToken w = (Ok tt, w2) ->
        exists i old,
          findIndex (sameKey oldCurrency oldIssuer) (loaded w) = Some i
          /\ loaded w !! i = Some old
          /\ key old = (oldCurrency, oldIssuer)
          /\ item w2 = Json (<[i := newToken]> (loaded w))
          /\ length (stored w2) = length (loaded w)
          /\ stored w2 !! i = Some newToken
          /\ forall j, j <> i -> stored w2 !! j = loaded w !! j).
Proof.
  split; [|split; [|split; [|split]]].
  - destruct (load_twice w) as [H1 _]. destruct (load_state w) as [_ [H2 [H3 _]]].
    auto.
  - intros. apply addToken_duplicate; assumption.
  - intros. apply updateToken_notFound; assumption.
  - intros. eapply updateToken_collision; eassumption.
  - intros oc oi nt w2 H.
    destruct (updateToken_success _ _ _ _ _ H) as [i [old [Hi [Hold [Hk Hit]]]]].
    exists i, old. repeat split; auto; unfold stored; rewrite Hit.
    + apply length_insert.
    + apply list_lookup_insert_eq. apply lookup_lt_Some in Hold. exact Hold.
    + intros j Hj. apply list_lookup_insert_ne. auto.
Qed.

Lemma store_mutations_witness :
  addToken tokenABCD (roomyStore (Json [tokenABCD]))
  = (Err DuplicateToken, snd (loadTokenConfig (roomyStore (Json [tokenABCD]))))
  /\ updateToken (js "none") sampleIssuer tokenABCD (roomyStore NoItem)
     = (Err NotFound, snd (loadTokenConfig (roomyStore NoItem))).
Proof.
  split.
  - apply (proj1 (proj2 (store_mutations (roomyStore (Json [tokenABCD]))))).
    + vm_compute. reflexivity.
    + vm_compute. reflexivity.
  - apply (proj1 (proj2 (proj2 (store_mutations (roomyStore NoItem))))).
    + vm_compute. reflexivity.
    + vm_compute. reflexivity.
Defined.

(** C8 as stated fails on [addToken] of an existing key: when storage held
    fewer entries than the default list, the load inside [addToken] has
    persisted the merged list before the duplicate is found; and a key
    stored with an issuer that is not an address is turned down as
    [InvalidAddress]. *)
Lemma addToken_duplicate_writes :
  ~ add_duplicate_claim (roomyStore (Json [tokenABCD])) tokenABCD
  /\ ~ add_duplicate_claim (roomyStore (Json (tokenBadIssuer :: DEFAULT_TOKENS)))
         tokenBadIssuer.
Proof.
  split; intros H.
  - specialize (H ltac:(vm_compute; reflexivity)).
    apply (f_equal (fun r => length (stored (snd r)))) in H.
    vm_compute in H. discriminate.
  - specialize (H ltac:(vm_compute; reflexivity)).
    apply (f_equal fst) in H. vm_compute in H. discriminate.
Qed.

(** ** The store invariant *)

Lemma DEFAULT_TOKENS_wellShaped : forallb wellShaped DEFAULT_TOKENS = true.
Proof. vm_compute. reflexivity. Qed.

Lemma noDuplicateKeys_snoc (l : list TokenConfig) (t : TokenConfig) :
  noDuplicateKeys l ->
  existsb (sameKey (currency t) (issuer t)) l = false ->
  noDuplicateKeys (l ++ [t]).
Proof.
  intros H E. pose proof (mergeStep_noDuplicateKeys l t H) as Hs.
  unfold mergeStep in Hs. rewrite E in Hs. exact Hs.
Qed.

Lemma in_insert {A} (l : list A) (i : nat) (x y : A) :
  In y (<[i := x]> l) -> y = x \/ In y l.
Proof.
  revert i. induction l as [|a l IH]; intros [|i]; simpl; try tauto.
  - intros [<-|H]; auto.
  - intros [<-|H]; auto. destruct (IH i H); auto.
Qed.

Lemma noDuplicateKeys_insert (newToken : TokenConfig) (l : list TokenConfig) :
  forall n i,
    noDuplicateKeys l ->
    someFrom (fun t j => negb (j =? n + i)%nat
                         && sameKey (currency newToken) (issuer newToken) t) n l = false ->
    (i < length l)%nat ->
    noDuplicateKeys (<[i := newToken]> l).
Proof.
  unfold noDuplicateKeys.
  induction l as [|x l IH]; intros n i Hnd Hsome Hi; [simpl in Hi; lia|].
  simpl in Hnd. apply List.NoDup_cons_iff in Hnd as [Hx Hnd].
  simpl in Hsome. apply orb_false_iff in Hsome as [Hhead Hrest].
  destruct i as [|i]; simpl.
  - constructor; [|exact Hnd].
    intros Hin. apply existsb_key, existsb_exists in Hin as [t [Ht Hk]].
    rewrite <- list_elem_of_In in Ht. apply list_elem_of_lookup in Ht as [j Hj].
    assert (Hp : someFrom (fun t j => negb (j =? n + 0)%nat
                  && sameKey (currency newToken) (issuer newToken) t) (S n) l = true).
    { apply someFrom_spec. exists j, t. split; [exact Hj|]. cbv beta.
      rewrite Hk, andb_true_r. apply negb_true_iff, Nat.eqb_neq. lia. }
    congruence.
  - constructor.
    + intros Hin. apply in_map_iff in Hin as [y [Hy Hin]].
      apply in_insert in Hin as [->|Hin].
      * assert (Hn : negb (n =? n + S i)%nat = true)
          by (apply negb_true_iff, Nat.eqb_neq; lia).
        rewrite Hn in Hhead. simpl in Hhead.
        apply not_true_iff_false in Hhead. apply Hhead, sameKey_spec. symmetry. exact Hy.
      * apply Hx. rewrite <- Hy. apply in_map, Hin.
    + apply (IH (S n) i Hnd); [|simpl in Hi; lia].
      replace (S n + i)%nat with (n + S i)%nat by lia. exact Hrest.
Qed.

Lemma save_invariant (l : list TokenConfig) (w : Store) :
  storeInvariant w -> noDuplicateKeys l -> storeInvariant (snd (saveTokenConfig l w)).
Proof.
  unfold storeInvariant, saveTokenConfig. intros [H1 H2] Hl.
  destruct (room w l); simpl; auto.
Qed.

Lemma setDefaults_invariant (l : list TokenConfig) (w : Store) :
  storeInvariant w -> noDuplicateKeys l -> storeInvariant (setDefaults l w).
Proof. unfold storeInvariant. intros [H1 H2] Hl. simpl. auto. Qed.

(** [loadTokenConfig] keeps the invariant and returns a list free of
    duplicate keys. *)
Lemma load_invariant (w : Store) :
  storeInvariant w ->
  storeInvariant (snd (loadTokenConfig w)) /\ noDuplicateKeys (loaded w).
Proof.
  intros Hinv. pose proof Hinv as [Hs Hd]. unfold loaded.
  rewrite loadTokenConfig_eq. unfold stored in Hs.
  destruct (item w) as [| |parsed] eqn:Ei.
  - destruct (room w (defaults w)); simpl; split; auto.
    split; simpl; auto.
  - simpl. auto.
  - destruct (length parsed <? length (defaults w))%nat.
    + pose proof (mergeDefaults_noDuplicateKeys parsed (defaults w) Hs) as Hm.
      destruct (room w (mergeDefaults parsed (defaults w))); simpl; split; auto.
      split; simpl; auto.
    + simpl. auto.
Qed.

Lemma addToken_invariant (token : TokenConfig) (w : Store) :
  storeInvariant w -> storeInvariant (snd (addToken token w)).
Proof.
  intros Hinv. destruct (load_invariant w Hinv) as [Hinv1 Hl].
  destruct (loadTokenConfig_total w) as [a [w1 [E El]]].
  rewrite E in Hinv1. simpl in Hinv1. rewrite El in Hl.
  unfold addToken, bind, read, throw. rewrite E.
  destruct (validateXRPLAddress (issuer token)); simpl; [|exact Hinv1].
  destruct (existsb (sameKey (currency token) (issuer token)) (deref w1 a)) eqn:Ex;
    [exact Hinv1|].
  pose proof (noDuplicateKeys_snoc _ _ Hl Ex) as Hl'.
  destruct a as [|l]; simpl in *.
  - apply save_invariant; [apply setDefaults_invariant; assumption | exact Hl'].
  - apply save_invariant; assumption.
Qed.

Lemma removeToken_invariant (c i : jsstring) (w : Store) :
  storeInvariant w -> storeInvariant (snd (removeToken c i w)).
Proof.
  intros Hinv. destruct (load_invariant w Hinv) as [Hinv1 Hl].
  destruct (loadTokenConfig_total w) as [a [w1 [E El]]].
  rewrite E in Hinv1. simpl in Hinv1. rewrite El in Hl.
  unfold removeToken, bind, read. rewrite E.
  apply save_invariant; [exact Hinv1 | apply noDuplicateKeys_filter, Hl].
Qed.

Lemma updateToken_invariant (oc oi : jsstring) (newToken : TokenConfig) (w : Store) :
  storeInvariant w -> storeInvariant (snd (updateToken oc oi newToken w)).
Proof.
  intros Hinv. destruct (load_invariant w Hinv) as [Hinv1 Hl].
  destruct (loadTokenConfig_total w) as [a [w1 [E El]]].
  rewrite E in Hinv1. simpl in Hinv1. rewrite El in Hl.
  unfold updateToken, bind, read, throw.
  destruct (validateXRPLAddress (issuer newToken)); simpl; [|exact Hinv].
  rewrite E.
  destruct (findIndex (sameKey oc oi) (deref w1 a)) as [i|] eqn:Hi; [|exact Hinv1].
  destruct (someFrom _ 0 (deref w1 a)) eqn:Hdup; [exact Hinv1|].
  destruct (findIndex_Some _ _ _ Hi) as [old [Hold _]].
  apply lookup_lt_Some in Hold.
  pose proof (noDuplicateKeys_insert newToken (deref w1 a) 0 i Hl Hdup Hold) as Hl'.
  destruct a as [|l]; simpl in *.
  - apply save_invariant; [apply setDefaults_invariant; assumption | exact Hl'].
  - apply save_invariant; assumption.
Qed.

(** C9. The canonical default list has no duplicate key, and each of its
    entries has all three fields and a valid issuer address. From a state
    where neither the stored entries nor the array of defaults has a
    duplicate key, every store operation ([loadTokenConfig] with its merge,
    [addToken], [removeToken], [updateToken]) leads to such a state, whether
    it returns or throws, and the loaded list has no duplicate key. *)
Theorem store_invariant_preserved :
  (noDuplicateKeys DEFAULT_TOKENS /\ forallb wellShaped DEFAULT_TOKENS = true)
  /\ (forall parsed dflt,
        noDuplicateKeys parsed -> noDuplicateKeys (mergeDefaults parsed dflt))
  /\ (forall w,
        storeInvariant w ->
        storeInvariant (snd (loadTokenConfig w))
        /\ noDuplicateKeys (loaded w)
        /\ (forall token, storeInvariant (snd (addToken token w)))
        /\ (forall c i, storeInvariant (snd (removeToken c i w)))
        /\ (forall oc oi newToken, storeInvariant (snd (updateToken oc oi newToken w)))).
Proof.
  split; [split; [exact DEFAULT_TOKENS_distinct | exact DEFAULT_TOKENS_wellShaped]|].
  split; [exact mergeDefaults_noDuplicateKeys|].
  intros w Hinv. destruct (load_invariant w Hinv) as [H1 H2].
  split; [exact H1|]. split; [exact H2|]. split; [|split].
  - intros. apply addToken_invariant, Hinv.
  - intros. apply removeToken_invariant, Hinv.
  - intros. apply updateToken_invariant, Hinv.
Qed.

Lemma store_invariant_preserved_witness :
  storeInvariant (snd (addToken tokenABCD (roomyStore NoItem)))
  /\ storeInvariant (snd (updateToken (js "ASC") (js "r3qWgpz2ry3BhcRJ8JE6rxM8esrfhuKp4R")
                            tokenABCD (roomyStore NoItem))).
Proof.
  assert (Hinit : storeInvariant (roomyStore NoItem)).
  { split; [constructor | exact DEFAULT_TOKENS_distinct]. }
  destruct (proj2 (proj2 store_invariant_preserved) (roomyStore NoItem) Hinit)
    as [_ [_ [Hadd [_ Hupd]]]].
  split; [apply Hadd | apply Hupd].
Defined.

Example addToken_first_run_grows_the_defaults :
  length (defaults (snd (addToken tokenABCD (roomyStore NoItem)))) = 12%nat
  /\ length (stored (snd (addToken tokenABCD (roomyStore NoItem)))) = 12%nat.
Proof. vm_compute. auto. Qed.

(** ** The ledger client *)

Lemma catch_rethrow {S E A} (m : M S E A) (s : S) : catch m (fun e => throw e) s = m s.
Proof. unfold catch, throw. destruct (m s) as [[a|e] s']; reflexivity. Qed.

(** The retry wrapper with its default arguments, unrolled. *)
Lemma retryDefault_eq {A} (fn : M Client RpcError A) (w : Client) :
  retryDefault fn w =
  match fn w with
  | (Ok a, w1) => (Ok a, w1)
  | (Err _, w1) =>
      match fn (wait (retryDelay 1) w1) with
      | (Ok a, w2) => (Ok a, w2)
      | (Err _, w2) => fn (wait (retryDelay 2) w2)
      end
  end.
Proof.
  change (retryDelay 1) with 1000%Z. change (retryDelay 2) with 2000%Z.
  unfold retryDefault, retryWithBackoff, retryLoop, catch, bind, ret, throw, wait, emit.
  cbn [Nat.ltb Nat.leb Nat.sub snd].
  change (1000 * 2 ^ Z.of_nat 0)%Z with 1000%Z.
  change (1000 * 2 ^ Z.of_nat 1)%Z with 2000%Z.
  destruct (fn w) as [[a|e1] w1]; [reflexivity|].
  match goal with |- context [fn ?x] => destruct (fn x) as [[a|e2] w2] end;
    [reflexivity|].
  match goal with |- context [fn ?x] => destruct (fn x) as [[a|e3] w3] end;
    reflexivity.
Qed.

Lemma requestsSent_wait (ms : Z) (w : Client) : requestsSent (wait ms w) = requestsSent w.
Proof.
  unfold requestsSent, wait, emit. simpl. rewrite List.filter_app. simpl.
  rewrite app_nil_r. reflexivity.
Qed.

(** One call of [makeXRPLRequest] sends at most one request. *)
Lemma makeXRPLRequest_sends (method : Method) (address : jsstring) (w : Client) :
  (requestsSent (snd (makeXRPLRequest method address w)) <= requestsSent w + 1)%nat.
Proof.
  assert (Hreq : forall s, requestsSent
            (mkClient s (trace w ++ [Request (currentServerIndex w) method address]) (net w))
          = (requestsSent w + 1)%nat).
  { intros s. unfold requestsSent. simpl. rewrite List.filter_app, length_app. reflexivity. }
  unfold makeXRPLRequest.
  destruct (truthy (Some address) && negb (validateXRPLAddress address)); simpl; [lia|].
  unfold catch, bind, fetch, emit, ret, throw, await, advanceServer. simpl.
  destruct (net w (requestsSent w) (currentServerIndex w)) as [t|status text json]; simpl.
  - destruct (isTypeError t && mentionsFetch t); simpl; rewrite Hreq; lia.
  - destruct (ok status); simpl.
    + destruct json as [[|[r|]]|t]; simpl;
        repeat match goal with
          | |- context [if ?b then _ else _] => destruct b; simpl
          end; rewrite Hreq; lia.
    + destruct text as [txt|t]; simpl;
        repeat match goal with
          | |- context [if ?b then _ else _] => destruct b; simpl
          end; rewrite Hreq; lia.
Qed.

(** A retried request sends at most three. *)
Lemma retryDefault_sends (method : Method) (address : jsstring) (w : Client) :
  (requestsSent (snd (retryDefault (makeXRPLRequest method address) w))
   <= requestsSent w + 3)%nat.
Proof.
  rewrite retryDefault_eq.
  pose proof (makeXRPLRequest_sends method address w) as H1.
  destruct (makeXRPLRequest method address w) as [[r|e1] w1]; simpl in *; [lia|].
  pose proof (makeXRPLRequest_sends method address (wait (retryDelay 1) w1)) as H2.
  rewrite requestsSent_wait in H2.
  destruct (makeXRPLRequest method address (wait (retryDelay 1) w1)) as [[r|e2] w2];
    simpl in *; [lia|].
  pose proof (makeXRPLRequest_sends method address (wait (retryDelay 2) w2)) as H3.
  rewrite requestsSent_wait in H3. lia.
Qed.

(** The three fetch operations on a valid address, over the retried
    request. *)
Lemma fetchAccountInfo_eq (address : jsstring) (w : Client) :
  validateXRPLAddress address = true ->
  fetchAccountInfo address w =
  match retryDefault (makeXRPLRequest account_info address) w with
  | (Ok r, w') =>
      match account_data r with
      | Some d => (Ok d, w')
      | None => (Err ErrMissingAccountData, w')
      end
  | (Err e, w') => (Err e, w')
  end.
Proof.
  intros Hv. unfold fetchAccountInfo. rewrite Hv. simpl. rewrite catch_rethrow.
  unfold bind. destruct (retryDefault _ w) as [[r|e] w']; [|reflexivity].
  destruct (account_data r); reflexivity.
Qed.

Lemma fetchAccountLines_eq (address : jsstring) (w : Client) :
  validateXRPLAddress address = true ->
  fetchAccountLines address w =
  match retryDefault (makeXRPLRequest account_lines address) w with
  | (Ok r, w') => (Ok (default [] (lines r)), w')
  | (Err e, w') => (Err e, w')
  end.
Proof.
  intros Hv. unfold fetchAccountLines. rewrite Hv. simpl. rewrite catch_rethrow.
  unfold bind. destruct (retryDefault _ w) as [[r|e] w']; reflexivity.
Qed.

Lemma fetchAccountNFTs_eq (address : jsstring) (w : Client) :
  validateXRPLAddress address = true ->
  fetchAccountNFTs address w =
  match retryDefault (makeXRPLRequest account_nfts address) w with
  | (Ok r, w') => (Ok (default [] (r_account_nfts r)), w')
  | (Err e, w') => (Ok [], w')
  end.
Proof.
  intros Hv. unfold fetchAccountNFTs. rewrite Hv. simpl.
  unfold catch, bind, ret. destruct (retryDefault _ w) as [[r|e] w']; reflexivity.
Qed.

Lemma net_wait (ms : Z) (w : Client) : net (wait ms w) = net w.
Proof. reflexivity. Qed.

(** A failing reply makes [makeXRPLRequest] throw; the network is the same
    afterwards. *)
Lemma makeXRPLRequest_failing (method : Method) (address : jsstring) (w : Client) :
  validateXRPLAddress address = true ->
  failing (net w (requestsSent w) (currentServerIndex w)) = true ->
  exists e w', makeXRPLRequest method address w = (Err e, w') /\ net w' = net w.
Proof.
  intros Hv. unfold makeXRPLRequest, failing. rewrite Hv, andb_false_r.
  unfold catch, bind, fetch, emit, ret, throw, await, advanceServer. simpl.
  destruct (net w (requestsSent w) (currentServerIndex w)) as [t|status text json]; simpl.
  - intros _. destruct (isTypeError t && mentionsFetch t); simpl; eauto.
  - destruct (ok status); simpl.
    + destruct json as [[|[r|]]|t]; simpl; intros H; try rewrite H; simpl; eauto.
      destruct (isTypeError t && mentionsFetch t); simpl; eauto.
    + intros _. destruct text as [txt|t]; simpl.
      * destruct (currentServerIndex w <? _)%nat; simpl; eauto.
      * destruct (isTypeError t && mentionsFetch t); simpl; eauto.
Qed.

(** When no reply is a result, the retried request throws. *)
Lemma retryDefault_failing (method : Method) (address : jsstring) (w : Client) :
  validateXRPLAddress address = true ->
  (forall n k, failing (net w n k) = true) ->
  exists e w', retryDefault (makeXRPLRequest method address) w = (Err e, w').
Proof.
  intros Hv Hfail. rewrite retryDefault_eq.
  destruct (makeXRPLRequest_failing method address w Hv (Hfail _ _))
    as [e1 [w1 [E1 N1]]].
  rewrite E1.
  destruct (makeXRPLRequest_failing method address (wait (retryDelay 1) w1) Hv)
    as [e2 [w2 [E2 N2]]].
  { rewrite net_wait, N1. apply Hfail. }
  rewrite E2.
  destruct (makeXRPLRequest_failing method address (wait (retryDelay 2) w2) Hv)
    as [e3 [w3 [E3 N3]]].
  { rewrite net_wait, N2, net_wait, N1. apply Hfail. }
  rewrite E3. eauto.
Qed.

(** C3, as amended. The retry policy applies to all three fetch operations,
    the NFT fetch included: a retried request is attempted at most 3 times;
    a success at any attempt is returned; before retry attempt [k] (1 or 2)
    the client waits [1000 * 2^(k-1)], that is 1000 and then 2000; after a
    third failure the last error is thrown, and a third attempt that
    succeeds after two failures returns its result. Each fetch on a valid
    address sends at most 3 requests. *)
Theorem retry_policy :
  (forall (A : Type) (fn : M Client RpcError A) (w : Client),
     (forall a w1, fn w = (Ok a, w1) -> retryDefault fn w = (Ok a, w1))
     /\ (forall e1 w1 a w2,
           fn w = (Err e1, w1) ->
           fn (wait (retryDelay 1) w1) = (Ok a, w2) ->
           retryDefault fn w = (Ok a, w2))
     /\ (forall e1 w1 e2 w2 r w3,
           fn w = (Err e1, w1) ->
           fn (wait (retryDelay 1) w1) = (Err e2, w2) ->
           fn (wait (retryDelay 2) w2) = (r, w3) ->
           retryDefault fn w = (r, w3)))
  /\ (retryDelay 1 = 1000%Z /\ retryDelay 2 = 2000%Z)
  /\ (forall (address : jsstring) (w : Client),
        validateXRPLAddress address = true ->
        (fetchAccountInfo address w
         = match retryDefault (makeXRPLRequest account_info address) w with
           | (Ok r, w') =>
               match account_data r with
               | Some d => (Ok d, w')
               | None => (Err ErrMissingAccountData, w')
               end
           | (Err e, w') => (Err e, w')
           end)
        /\ (fetchAccountLines address w
            = match retryDefault (makeXRPLRequest account_lines address) w with
              | (Ok r, w') => (Ok (default [] (lines r)), w')
              | (Err e, w') => (Err e, w')
              end)
        /\ (fetchAccountNFTs address w
            = match retryDefault (makeXRPLRequest account_nfts address) w with
              | (Ok r, w') => (Ok (default [] (r_account_nfts r)), w')
              | (Err e, w') => (Ok [], w')
              end)
        /\ (requestsSent (snd (fetchAccountInfo address w)) <= requestsSent w + 3)%nat
        /\ (requestsSent (snd (fetchAccountLines address w)) <= requestsSent w + 3)%nat
        /\ (requestsSent (snd (fetchAccountNFTs address w)) <= requestsSent w + 3)%nat).
Proof.
  split; [|split; [split; reflexivity|]].
  - intros A fn w. repeat split.
    + intros a w1 H. rewrite retryDefault_eq, H. reflexivity.
    + intros e1 w1 a w2 H1 H2. rewrite retryDefault_eq, H1, H2. reflexivity.
    + intros e1 w1 e2 w2 r w3 H1 H2 H3. rewrite retryDefault_eq, H1, H2, H3.
      reflexivity.
  - intros address w Hv.
    split; [apply fetchAccountInfo_eq, Hv|].
    split; [apply fetchAccountLines_eq, Hv|].
    split; [apply fetchAccountNFTs_eq, Hv|].
    rewrite (fetchAccountInfo_eq _ _ Hv), (fetchAccountLines_eq _ _ Hv),
      (fetchAccountNFTs_eq _ _ Hv).
    pose proof (retryDefault_sends account_info address w) as Hi.
    pose proof (retryDefault_sends account_lines address w) as Hl.
    pose proof (retryDefault_sends account_nfts address w) as Hn.
    destruct (retryDefault (makeXRPLRequest account_info address) w) as [[ri|ei] wi].
    + destruct (retryDefault (makeXRPLRequest account_lines address) w) as [[rl|el] wl];
        destruct (retryDefault (makeXRPLRequest account_nfts address) w) as [[rn|en] wn];
        destruct (account_data ri); simpl in *; auto.
    + destruct (retryDefault (makeXRPLRequest account_lines address) w) as [[rl|el] wl];
        destruct (retryDefault (makeXRPLRequest account_nfts address) w) as [[rn|en] wn];
        simpl in *; auto.
Qed.

(** The scenario of section 8: the transport fails twice, then answers. *)
Lemma retry_policy_witness :
  fst (retryDefault (makeXRPLRequest account_lines sampleIssuer) flakyClient)
  = Ok linesResult
  /\ fetchAccountLines sampleIssuer flakyClient
     = match retryDefault (makeXRPLRequest account_lines sampleIssuer) flakyClient with
       | (Ok r, w') => (Ok (default [] (lines r)), w')
       | (Err e, w') => (Err e, w')
       end.
Proof.
  split.
  - erewrite (proj2 (proj2 (proj1 retry_policy _
               (makeXRPLRequest account_lines sampleIssuer) flakyClient))).
    + reflexivity.
    + vm_compute. reflexivity.
    + vm_compute. reflexivity.
    + vm_compute. reflexivity.
  - apply (proj2 (proj2 retry_policy) sampleIssuer flakyClient).
    vm_compute. reflexivity.
Defined.

Example scenario_fails_twice_then_succeeds :
  fst (fetchAccountLines sampleIssuer flakyClient) = Ok [sampleLine]
  /\ trace (snd (fetchAccountLines sampleIssuer flakyClient))
     = [ Request 0 account_lines sampleIssuer; Sleep 1000;
         Request 0 account_lines sampleIssuer; Sleep 2000;
         Request 0 account_lines sampleIssuer ].
Proof. vm_compute. auto. Qed.

(** C3 as stated fails on the NFT fetch, which is retried like the others:
    on a network that never answers it sends three requests and waits
    twice. *)
Lemma fetchAccountNFTs_is_retried : ~ nft_single_attempt_claim deadClient sampleIssuer.
Proof.
  intros H. specialize (H ltac:(vm_compute; reflexivity)).
  apply (f_equal (@length Event)) in H. vm_compute in H. discriminate.
Qed.

Example fetchAccountNFTs_dead_network :
  trace (snd (fetchAccountNFTs sampleIssuer deadClient))
  = [ Request 0 account_nfts sampleIssuer; Sleep 1000;
      Request 0 account_nfts sampleIssuer; Sleep 2000;
      Request 0 account_nfts sampleIssuer ].
Proof. vm_compute. reflexivity. Qed.

(** C6. On a valid address [fetchAccountNFTs] never throws: whatever error
    the retried request ends with, the result is the empty list; so it is
    when every reply is a failure of any kind (transport error, status that
    is not 2xx, unusable body, API error payload). *)
Theorem fetchAccountNFTs_swallows (address : jsstring) (w : Client) :
  validateXRPLAddress address = true ->
  (exists nfts w', fetchAccountNFTs address w = (Ok nfts, w'))
  /\ (forall e w',
        retryDefault (makeXRPLRequest account_nfts address) w = (Err e, w') ->
        fetchAccountNFTs address w = (Ok [], w'))
  /\ ((forall n k, failing (net w n k) = true) ->
      fst (fetchAccountNFTs address w) = Ok []).
Proof.
  intros Hv. rewrite (fetchAccountNFTs_eq _ _ Hv). split; [|split].
  - destruct (retryDefault _ w) as [[r|e] w']; eauto.
  - intros e w' H. rewrite H. reflexivity.
  - intros Hfail.
    destruct (retryDefault_failing account_nfts address w Hv Hfail) as [e [w' E]].
    rewrite E. reflexivity.
Qed.

Lemma fetchAccountNFTs_swallows_witness :
  fst (fetchAccountNFTs sampleIssuer refusingClient) = Ok [].
Proof.
  apply (proj2 (proj2 (fetchAccountNFTs_swallows sampleIssuer refusingClient
                         ltac:(vm_compute; reflexivity)))).
  intros n k. reflexivity.
Defined.

Example fetchAccountNFTs_failures :
  fst (fetchAccountNFTs sampleIssuer deadClient) = Ok []
  /\ fst (fetchAccountNFTs sampleIssuer busyClient) = Ok []
  /\ fst (fetchAccountNFTs sampleIssuer refusingClient) = Ok []
  /\ fst (fetchAccountLines sampleIssuer deadClient) = Err (ErrNetwork 0)
  /\ fst (fetchAccountLines sampleIssuer busyClient) = Err (ErrServer 503)
  /\ fst (fetchAccountLines sampleIssuer refusingClient)
     = Err (ErrApi (js "Account not found.")).
Proof. vm_compute. auto 10. Qed.

(** C7. On a string that fails address validation each fetch operation
    throws the invalid-address error and leaves the client as it was: no
    request is sent, nothing is waited for, the server cursor does not move.
    The NFT fetch throws as well. *)
Theorem invalid_address_short_circuits (address : jsstring) (w : Client) :
  validateXRPLAddress address = false ->
  fetchAccountInfo address w = (Err (ErrInvalidAddress address), w)
  /\ fetchAccountLines address w = (Err (ErrInvalidAddress address), w)
  /\ fetchAccountNFTs address w = (Err (ErrInvalidAddress address), w).
Proof.
  intros Hv. unfold fetchAccountInfo, fetchAccountLines, fetchAccountNFTs.
  rewrite Hv. simpl. auto.
Qed.

Lemma invalid_address_short_circuits_witness :
  fetchAccountInfo (js "abc") flakyClient = (Err (ErrInvalidAddress (js "abc")), flakyClient)
  /\ fetchAccountLines (js "abc") flakyClient
     = (Err (ErrInvalidAddress (js "abc")), flakyClient)
  /\ fetchAccountNFTs (js "abc") flakyClient
     = (Err (ErrInvalidAddress (js "abc")), flakyClient).
Proof.
  apply (invalid_address_short_circuits (js "abc") flakyClient).
  vm_compute. reflexivity.
Defined.

(** ** Further runs *)

(** Every currency of the default whitelist is within the conditions of the
    round trip, and round-trips. *)
Example default_currencies_round_trip :
  forallb
    (fun t =>
       (1 <=? length (currency t))%nat && (length (currency t) <=? 20)%nat
       && isNonZeroByteString (currency t) && edgesClean (currency t)
       && strictEq (hexToString (stringToHex (currency t))) (currency t))
    DEFAULT_TOKENS = true.
Proof. vm_compute. reflexivity. Qed.

(** An entry kept in its 40-hex form is not matched by that same hex string
    observed on a trust line: the observed side is decoded, the entry is
    encoded again. *)
Example hex_entry_not_matched_by_itself :
  fst (isTokenWhitelisted toLowerCaseLatin1
         (js "4142434400000000000000000000000000000000") sampleIssuer
         (roomyStore
            (Json [mkToken (js "4142434400000000000000000000000000000000")
                     sampleIssuer None])))
  = Ok false.
Proof. vm_compute. reflexivity. Qed.

(** The array [DEFAULT_TOKENS] is shared: on a first run [addToken] pushes
    onto it, so a token added then and removed later is among the defaults
    the next load merges back. *)
Example removed_token_merged_back :
  let w1 := snd (addToken tokenABCD (roomyStore NoItem)) in
  let w2 := snd (removeToken (currency tokenABCD) (issuer tokenABCD) w1) in
  existsb (sameKey (currency tokenABCD) (issuer tokenABCD)) (stored w2) = false
  /\ existsb (sameKey (currency tokenABCD) (issuer tokenABCD)) (loaded w2) = true.
Proof. vm_compute. auto. Qed.

(** * Further properties *)

(** ** The codec on every input *)

Lemma trimStart_length (s : jsstring) : (length (trimStart s) <= length s)%nat.
Proof.
  induction s as [|c s IH]; simpl; [lia|].
  destruct (isWhiteSpace c); simpl; lia.
Qed.

Lemma trim_length (s : jsstring) : (length (trim s) <= length s)%nat.
Proof.
  unfold trim, trimEnd. rewrite length_rev.
  pose proof (trimStart_length (rev (trimStart s))) as H1.
  pose proof (trimStart_length s) as H2.
  rewrite length_rev in H1. lia.
Qed.

Lemma trimStart_head (s : jsstring) :
  match trimStart s with
  | c :: _ => isWhiteSpace c = false
  | [] => True
  end.
Proof.
  induction s as [|c s IH]; simpl; [exact I|].
  destruct (isWhiteSpace c) eqn:E; [exact IH | exact E].
Qed.

Lemma trimStart_suffix (s : jsstring) : exists ws, s = ws ++ trimStart s.
Proof.
  induction s as [|c s [ws IH]]; simpl; [exists []; reflexivity|].
  destruct (isWhiteSpace c).
  - exists (c :: ws). simpl. f_equal. exact IH.
  - exists []. reflexivity.
Qed.

Lemma last_of_rev (l l' : jsstring) (x d : N) : rev l = x :: l' -> List.last l d = x.
Proof.
  intros H. apply (f_equal (@rev N)) in H. rewrite rev_involutive in H. subst l.
  simpl. apply last_last.
Qed.

(** What [trim] returns has no white space at either end. *)
Lemma trim_edges (s : jsstring) : edgesClean (trim s) = true.
Proof.
  unfold trim, trimEnd.
  destruct (rev (trimStart (rev (trimStart s)))) as [|c r] eqn:E; [reflexivity|].
  unfold edgesClean. apply andb_true_iff. split; apply negb_true_iff.
  - destruct (trimStart_suffix (rev (trimStart s))) as [ws Hws].
    apply (f_equal (@rev N)) in Hws. rewrite rev_involutive, rev_app_distr, E in Hws.
    pose proof (trimStart_head s) as Hh. rewrite Hws in Hh. exact Hh.
  - pose proof (trimStart_head (rev (trimStart s))) as Hh.
    apply (f_equal (@rev N)) in E. rewrite rev_involutive in E.
    rewrite E in Hh.
    destruct (rev (c :: r)) as [|x l'] eqn:Er.
    + apply (f_equal (@length N)) in Er. rewrite length_rev in Er. discriminate.
    + rewrite (last_of_rev (c :: r) l' x c Er). exact Hh.
Qed.

Lemma hexToString_loop_length (fuel : nat) :
  forall (hex : jsstring) (i : nat) (str : jsstring),
    (length (hexToString_loop fuel hex i str)
     <= length str + (length hex - i + 1) / 2)%nat.
Proof.
  induction fuel as [|fuel IH]; intros hex i str; simpl; [lia|].
  destruct (i <? length hex)%nat eqn:E; [|lia].
  apply Nat.ltb_lt in E.
  assert (Hstep : (length (hexToString_loop fuel hex (i + 2)
                             (str ++ [fromCharCode (parseInt16 (substr hex i 2))]))
                   <= length str + (length hex - i + 1) / 2)%nat).
  { etransitivity; [apply IH|]. rewrite length_app. cbn [length].
    pose proof (Nat.div_mod_eq (length hex - (i + 2) + 1) 2).
    pose proof (Nat.div_mod_eq (length hex - i + 1) 2).
    pose proof (Nat.mod_upper_bound (length hex - (i + 2) + 1) 2).
    pose proof (Nat.mod_upper_bound (length hex - i + 1) 2).
    lia. }
  destruct (parseInt16 (substr hex i 2)) as [[| |]|]; try exact Hstep. lia.
Qed.

(** [hexToString] returns its input, or a string of 1 to 20 code units
    with no white space at either end. *)
Lemma hexToString_cases (hex : jsstring) :
  hexToString hex = hex
  \/ ((1 <= length (hexToString hex) <= 20)%nat
      /\ edgesClean (hexToString hex) = true
      /\ length hex = 40%nat).
Proof.
  unfold hexToString.
  destruct (length hex =? 40)%nat eqn:E; simpl; [|left; reflexivity].
  apply Nat.eqb_eq in E.
  pose proof (trim_length (hexToString_loop (length hex) hex 0 [])) as Hl.
  pose proof (hexToString_loop_length (length hex) hex 0 []) as Hb.
  pose proof (trim_edges (hexToString_loop (length hex) hex 0 [])) as He.
  destruct (trim (hexToString_loop (length hex) hex 0 [])) as [|c t]; [left; reflexivity|].
  right.
  assert (H20 : ((length hex - 0 + 1) / 2 = 20)%nat) by (rewrite E; reflexivity).
  rewrite H20 in Hb. cbn [length] in Hb, Hl |- *.
  repeat split; try lia. exact He.
Qed.

(** X1. On every input, of hex digits or not, [hexToString] returns either
    its input unchanged or a string of 1 to 20 code units with no white
    space at either end; it returns the empty string only for the empty
    string. *)
Theorem hexToString_result (hex : jsstring) :
  (hexToString hex = hex
   \/ ((1 <= length (hexToString hex) <= 20)%nat
       /\ edgesClean (hexToString hex) = true))
  /\ (hexToString hex = [] -> hex = []).
Proof.
  destruct (hexToString_cases hex) as [H|[Hl [He _]]].
  - split; [left; exact H|]. intros E. congruence.
  - split; [right; auto|]. intros E. rewrite E in Hl. simpl in Hl. lia.
Qed.

(** X2. Decoding is idempotent: what [hexToString] returns is left as it is
    by [hexToString]. *)
Theorem hexToString_idempotent (hex : jsstring) :
  hexToString (hexToString hex) = hexToString hex.
Proof.
  destruct (hexToString_cases hex) as [H|[Hl _]].
  - rewrite H. exact H.
  - unfold hexToString at 1.
    destruct (length (hexToString hex) =? 40)%nat eqn:E; [|reflexivity].
    apply Nat.eqb_eq in E. lia.
Qed.

Lemma decode_of_encode (s : jsstring) :
  (length s =? 3)%nat = false -> (length s <= 20)%nat ->
  isNonZeroByteString s = true ->
  untilZero (bytePairs (stringToHex s)) = s.
Proof.
  intros H3 Hlen Hb. destruct (isNonZeroByteString_Forall s Hb) as [Hbyte Hnz].
  rewrite (stringToHex_bytes s Hbyte).
  destruct (encode_ref_shape s H3 Hlen Hbyte) as [E _]. rewrite E.
  rewrite (bytePairs_byteHexs s _ Hbyte).
  replace (40 - 2 * length s)%nat with (2 * (20 - length s))%nat by lia.
  rewrite bytePairs_zeros. apply untilZero_nonzero, Hnz.
Qed.

Lemma stringToHex_length_40 (s : jsstring) :
  (length s =? 3)%nat = false -> (length s <= 20)%nat ->
  isNonZeroByteString s = true ->
  length (stringToHex s) = 40%nat.
Proof.
  intros H3 Hlen Hb. destruct (isNonZeroByteString_Forall s Hb) as [Hbyte _].
  rewrite (stringToHex_bytes s Hbyte).
  destruct (encode_ref_shape s H3 Hlen Hbyte) as [_ [Hl _]]. exact Hl.
Qed.

(** X3. Encoding is injective on strings of at most 20 characters with
    codes in 1..255: two different codes never get the same encoding. *)
Theorem stringToHex_injective (s1 s2 : jsstring) :
  (length s1 <= 20)%nat -> (length s2 <= 20)%nat ->
  isNonZeroByteString s1 = true -> isNonZeroByteString s2 = true ->
  s1 <> s2 -> stringToHex s1 <> stringToHex s2.
Proof.
  intros L1 L2 B1 B2 Hne E. apply Hne.
  destruct (length s1 =? 3)%nat eqn:H1, (length s2 =? 3)%nat eqn:H2.
  - unfold stringToHex in E. rewrite H1, H2 in E. exact E.
  - exfalso. pose proof (stringToHex_length_40 s2 H2 L2 B2) as Hl.
    rewrite <- E in Hl. unfold stringToHex in Hl. rewrite H1 in Hl.
    apply Nat.eqb_eq in H1. lia.
  - exfalso. pose proof (stringToHex_length_40 s1 H1 L1 B1) as Hl.
    rewrite E in Hl. unfold stringToHex in Hl. rewrite H2 in Hl.
    apply Nat.eqb_eq in H2. lia.
  - rewrite <- (decode_of_encode s1 H1 L1 B1), <- (decode_of_encode s2 H2 L2 B2), E.
    reflexivity.
Qed.

Lemma stringToHex_injective_witness :
  stringToHex (js "JewNomicaN") <> stringToHex (js "Jewnomican").
Proof.
  apply (stringToHex_injective (js "JewNomicaN") (js "Jewnomican")).
  - vm_compute. lia.
  - vm_compute. lia.
  - vm_compute. reflexivity.
  - vm_compute. reflexivity.
  - vm_compute. discriminate.
Defined.

Lemma toString16_aux_digits (fuel : nat) :
  forall (n : N) (acc : jsstring),
    Forall (fun c => exists d, d < 16 /\ c = hexDigitChar d) acc ->
    Forall (fun c => exists d, d < 16 /\ c = hexDigitChar d) (toString16_aux fuel n acc).
Proof.
  induction fuel as [|fuel IH]; intros n acc H; simpl; [exact H|].
  assert (H' : Forall (fun c => exists d, d < 16 /\ c = hexDigitChar d)
                 (hexDigitChar (n mod 16) :: acc)).
  { constructor; [|exact H]. exists (n mod 16). split; [apply N.mod_lt; lia | reflexivity]. }
  destruct (n / 16 =? 0); [exact H' | apply IH, H'].
Qed.

Lemma toString16_aux_length (fuel : nat) (n : N) (acc : jsstring) :
  (length acc + 1 <= length (toString16_aux (S fuel) n acc))%nat.
Proof.
  revert n acc. induction fuel as [|fuel IH]; intros n acc.
  - simpl. destruct (n / 16 =? 0); simpl; lia.
  - change (toString16_aux (S (S fuel)) n acc)
      with (if n / 16 =? 0 then hexDigitChar (n mod 16) :: acc
            else toString16_aux (S fuel) (n / 16) (hexDigitChar (n mod 16) :: acc)).
    destruct (n / 16 =? 0); [simpl; lia|].
    pose proof (IH (n / 16) (hexDigitChar (n mod 16) :: acc)) as H.
    cbn [length] in H. lia.
Qed.

Lemma pad2_digits (c : N) :
  Forall (fun c => exists d, d < 16 /\ c = hexDigitChar d) (pad2 c)
  /\ (2 <= length (pad2 c))%nat.
Proof.
  unfold pad2, padStart, toString16. split.
  - apply Forall_app. split.
    + apply Forall_forall. intros x Hx. rewrite <- list_elem_of_In in Hx.
      apply elem_of_replicate in Hx as [-> _]. exists 0. split; [lia | reflexivity].
    + apply toString16_aux_digits. constructor.
  - rewrite length_app, length_replicate.
    pose proof (toString16_aux_length (N.to_nat (N.log2 c)) c []) as H. simpl in H. lia.
Qed.

Lemma upperUnit_digit (d : N) : d < 16 -> upperUnit (hexDigitChar d) = [upperDigit d].
Proof.
  intros Hd.
  pose proof (forall_below256
    (fun d => implb (d <? 16) (strictEq (upperUnit (hexDigitChar d)) [upperDigit d]))
    eq_refl d ltac:(lia)) as H.
  cbv beta in H. apply N.ltb_lt in Hd. rewrite Hd in H. apply strictEq_spec, H.
Qed.

Lemma toUpperCase_digits (l : jsstring) :
  Forall (fun c => exists d, d < 16 /\ c = hexDigitChar d) l ->
  length (toUpperCase l) = length l
  /\ Forall (fun c => isUpperHexDigit c = true) (toUpperCase l).
Proof.
  induction 1 as [|c l [d [Hd ->]] _ [IHl IHf]]; simpl; [split; constructor|].
  rewrite (upperUnit_digit d Hd). simpl. split; [f_equal; exact IHl|].
  constructor; [apply isUpperHexDigit_upperDigit, Hd | exact IHf].
Qed.

Lemma pad2s_digits (s : jsstring) :
  Forall (fun c => exists d, d < 16 /\ c = hexDigitChar d) (flat_map pad2 s)
  /\ (2 * length s <= length (flat_map pad2 s))%nat.
Proof.
  induction s as [|c s [IHf IHl]]; simpl; [split; [constructor | lia]|].
  destruct (pad2_digits c) as [Hf Hl]. split.
  - apply Forall_app. split; assumption.
  - rewrite length_app. lia.
Qed.

(** X4. On every string whose length is not 3, whatever its character
    codes, [stringToHex] returns upper-case hex digits only, at least 40 of
    them and at least two for each character: a string of more than 20
    characters is not cut to 40. *)
Theorem stringToHex_any_string (s : jsstring) :
  length s <> 3%nat ->
  Forall (fun c => isUpperHexDigit c = true) (stringToHex s)
  /\ (40 <= length (stringToHex s))%nat
  /\ (2 * length s <= length (stringToHex s))%nat.
Proof.
  intros H3. apply Nat.eqb_neq in H3. unfold stringToHex. rewrite H3.
  change (flat_map (fun c => padStart 2 48 (toString16 c)) s) with (flat_map pad2 s).
  destruct (pad2s_digits s) as [Hf Hl].
  assert (Hp : Forall (fun c => exists d, d < 16 /\ c = hexDigitChar d)
                 (padEnd 40 48 (flat_map pad2 s))).
  { unfold padEnd. apply Forall_app. split; [exact Hf|].
    apply Forall_forall. intros x Hx. rewrite <- list_elem_of_In in Hx.
    apply elem_of_replicate in Hx as [-> _]. exists 0. split; [lia | reflexivity]. }
  destruct (toUpperCase_digits _ Hp) as [El Hu].
  split; [exact Hu|]. rewrite El. unfold padEnd.
  rewrite length_app, length_replicate. lia.
Qed.

Lemma stringToHex_any_string_witness :
  Forall (fun c => isUpperHexDigit c = true) (stringToHex (replicate 21 8364%N))
  /\ (40 <= length (stringToHex (replicate 21 8364%N)))%nat
  /\ (2 * length (replicate 21 8364%N) <= length (stringToHex (replicate 21 8364%N)))%nat.
Proof.
  apply (stringToHex_any_string (replicate 21 8364%N)). vm_compute. discriminate.
Defined.

(** ** The address validator *)

Lemma isBase58_no_space (c : N) : isBase58 c = true -> isWhiteSpace c = false.
Proof.
  intros H.
  assert (Hc : c < 256).
  { unfold isBase58, inRange in H.
    repeat match type of H with
      | (_ || _) = true => apply orb_true_iff in H as [H|H]
      | (_ && _) = true => apply andb_true_iff in H as [? H]
      end;
      repeat match goal with
        | H : (_ <=? _) = true |- _ => apply N.leb_le in H
        end; lia. }
  pose proof (forall_below256
    (fun c => implb (isBase58 c) (negb (isWhiteSpace c))) eq_refl c Hc) as Hall.
  cbv beta in Hall. rewrite H in Hall. apply negb_true_iff, Hall.
Qed.

Lemma validateXRPLAddress_cons (c : N) (body : jsstring) :
  validateXRPLAddress (c :: body)
  = (c =? 114) && ((24 <=? length body)%nat && (length body <=? 34)%nat
                   && forallb isBase58 body).
Proof.
  destruct (N.eqb_spec c 114) as [->|Hne]; [reflexivity|].
  unfold validateXRPLAddress. destruct c as [|p]; [reflexivity|].
  repeat (destruct p as [p|p|]; try reflexivity; try (exfalso; apply Hne; reflexivity)).
Qed.

(** X5. A string that passes [validateXRPLAddress] starts with 'r', is 25
    to 35 code units long, is made of base58 characters after the 'r', and
    has no white space at either end, so [trim] leaves it as it is. *)
Theorem validateXRPLAddress_shape (address : jsstring) :
  validateXRPLAddress address = true ->
  (25 <= length address <= 35)%nat
  /\ (exists body, address = 114 :: body /\ Forall (fun c => isBase58 c = true) body)
  /\ trim address = address.
Proof.
  destruct address as [|c body]; [discriminate|].
  rewrite validateXRPLAddress_cons.
  intros H. apply andb_true_iff in H as [Ec H]. apply N.eqb_eq in Ec. subst c.
  apply andb_true_iff in H as [H Hb]. apply andb_true_iff in H as [Hlo Hhi].
  apply Nat.leb_le in Hlo. apply Nat.leb_le in Hhi.
  rewrite forallb_forall in Hb.
  split; [simpl; lia|]. split.
  - exists body. split; [reflexivity|]. apply Forall_forall. exact Hb.
  - apply trim_clean. unfold edgesClean. apply andb_true_iff. split; [reflexivity|].
    apply negb_true_iff.
    destruct body as [|b body']; [simpl in Hlo; lia|].
    change (List.last (114 :: b :: body') 114) with (List.last (b :: body') 114).
    apply isBase58_no_space, Hb.
    assert (Hne : b :: body' <> []) by discriminate.
    rewrite (app_removelast_last 114 Hne) at 2. apply in_or_app. right. left. reflexivity.
Qed.

Lemma validateXRPLAddress_shape_witness :
  (25 <= length sampleIssuer <= 35)%nat
  /\ (exists body, sampleIssuer = 114 :: body /\ Forall (fun c => isBase58 c = true) body)
  /\ trim sampleIssuer = sampleIssuer.
Proof.
  apply (validateXRPLAddress_shape sampleIssuer). vm_compute. reflexivity.
Defined.

(** ** The store, operation after operation *)

(** X6. Loading is idempotent: a second [loadTokenConfig] right after the
    first returns the same list and leaves the state as the first left it,
    so it seeds or merges at most once. *)
Theorem loadTokenConfig_idempotent (w : Store) :
  loaded (snd (loadTokenConfig w)) = loaded w
  /\ snd (loadTokenConfig (snd (loadTokenConfig w))) = snd (loadTokenConfig w).
Proof. apply load_twice. Qed.

(** The list behind a handle of its own is at least as long as the
    defaults, or has all their keys. *)
Lemma load_handle (w : Store) (a : Arr) (w1 : Store) :
  loadTokenConfig w = (Ok a, w1) ->
  defaults w1 = defaults w /\ room w1 = room w
  /\ match a with
     | TheDefaults => True
     | Fresh l =>
         (length (defaults w) <= length l)%nat
         \/ (forall d, In d (defaults w) -> In (key d) (List.map key l))
     end.
Proof.
  rewrite loadTokenConfig_eq.
  destruct (item w) as [| |parsed].
  - destruct (room w (defaults w)); intros [= <- <-]; simpl; auto.
  - intros [= <- <-]. auto.
  - destruct (length parsed <? length (defaults w))%nat eqn:El.
    + destruct (room w (mergeDefaults parsed (defaults w))); intros [= <- <-]; simpl; auto.
      split; [reflexivity|]. split; [reflexivity|]. right.
      intros d Hd. apply merge_covers, Hd.
    + intros [= <- <-]. apply Nat.ltb_ge in El. auto.
Qed.

(** A stored list that the storage takes again and that is as long as the
    defaults, or has all their keys, is what the next load returns. *)
Lemma loaded_Json (w : Store) (l : list TokenConfig) :
  item w = Json l -> room w l = true ->
  (length (defaults w) <= length l)%nat
  \/ (forall d, In d (defaults w) -> In (key d) (List.map key l)) ->
  loaded w = l.
Proof.
  intros Hi Hr Hl. unfold loaded. rewrite loadTokenConfig_eq, Hi.
  destruct (length l <? length (defaults w))%nat eqn:El; [|reflexivity].
  assert (Hm : mergeDefaults l (defaults w) = l).
  { destruct Hl as [Hl|Hl]; [apply Nat.ltb_lt in El; lia|].
    apply merge_nothing_missing, Hl. }
  rewrite Hm, Hr. reflexivity.
Qed.

Lemma addToken_Ok (token : TokenConfig) (w w2 : Store) :
  addToken token w = (Ok tt, w2) ->
  validateXRPLAddress (issuer token) = true
  /\ existsb (sameKey (currency token) (issuer token)) (loaded w) = false
  /\ item w2 = Json (loaded w ++ [token])
  /\ loaded w2 = loaded w ++ [token].
Proof.
  destruct (loadTokenConfig_total w) as [a [w1 [E El]]].
  destruct (load_handle w a w1 E) as [Hd [Hr Ha]].
  unfold addToken, bind, read, throw. rewrite E.
  destruct (validateXRPLAddress (issuer token)); simpl; [|discriminate].
  rewrite <- El.
  destruct (existsb (sameKey (currency token) (issuer token)) (loaded w)) eqn:Ex;
    [discriminate|].
  unfold push, saveTokenConfig.
  destruct a as [|l]; simpl in *.
  - destruct (room w1 (defaults w1 ++ [token])) eqn:Er; [|discriminate].
    intros [= <-]. rewrite El. repeat split.
    apply loaded_Json; simpl; auto.
  - destruct (room w1 (l ++ [token])) eqn:Er; [|discriminate].
    intros [= <-]. rewrite El. repeat split.
    apply loaded_Json; simpl; auto.
    rewrite Hd. destruct Ha as [Ha|Ha].
    + left. rewrite length_app. lia.
    + right. intros d Hin. rewrite map_app, in_app_iff. left. apply Ha, Hin.
Qed.

(** X8. When [addToken] returns, the issuer is a valid address, the key
    was not in the loaded list, the storage holds the loaded list with the
    token appended, and the next load returns exactly that list. *)
Theorem addToken_appends (token : TokenConfig) (w w2 : Store) :
  addToken token w = (Ok tt, w2) ->
  validateXRPLAddress (issuer token) = true
  /\ existsb (sameKey (currency token) (issuer token)) (loaded w) = false
  /\ stored w2 = loaded w ++ [token]
  /\ loaded w2 = loaded w ++ [token].
Proof.
  intros H. destruct (addToken_Ok token w w2 H) as [H1 [H2 [H3 H4]]].
  unfold stored. rewrite H3. auto.
Qed.

Lemma addToken_appends_witness :
  stored (snd (addToken tokenABCD (roomyStore (Json [])))) =
    loaded (roomyStore (Json [])) ++ [tokenABCD]
  /\ loaded (snd (addToken tokenABCD (roomyStore (Json [])))) =
    loaded (roomyStore (Json [])) ++ [tokenABCD].
Proof.
  assert (H : addToken tokenABCD (roomyStore (Json []))
              = (Ok tt, snd (addToken tokenABCD (roomyStore (Json [])))))
    by (vm_compute; reflexivity).
  destruct (addToken_appends _ _ _ H) as [_ [_ [H3 H4]]]. split; assumption.
Defined.

(** X7. With no duplicate key among the defaults, the list a load returns
    is never shorter than the default list. *)
Theorem loaded_not_shorter (w : Store) :
  noDuplicateKeys (defaults w) -> (length (defaults w) <= length (loaded w))%nat.
Proof.
  intros Hnd. unfold loaded. rewrite loadTokenConfig_eq.
  destruct (item w) as [| |parsed].
  - destruct (room w (defaults w)); simpl; lia.
  - simpl. lia.
  - destruct (length parsed <? length (defaults w))%nat eqn:El.
    + destruct (room w (mergeDefaults parsed (defaults w))); simpl; [|lia].
      rewrite (mergeDefaults_missing _ _ Hnd). apply merged_length, Hnd.
    + simpl. apply Nat.ltb_ge in El. exact El.
Qed.

Lemma loaded_not_shorter_witness :
  (length (defaults (roomyStore (Json [tokenABCD])))
   <= length (loaded (roomyStore (Json [tokenABCD]))))%nat.
Proof.
  apply (loaded_not_shorter (roomyStore (Json [tokenABCD]))).
  exact DEFAULT_TOKENS_distinct.
Defined.

Lemma removeToken_eq (c i : jsstring) (w : Store) :
  removeToken c i w =
  let w1 := snd (loadTokenConfig w) in
  let filtered := List.filter (fun t => negb (sameKey c i t)) (loaded w) in
  if room w1 filtered then (Ok tt, setItem filtered w1)
  else (Err PersistenceError, w1).
Proof.
  destruct (loadTokenConfig_total w) as [a [w1 [E El]]].
  unfold removeToken, bind, read, saveTokenConfig. rewrite E, El. reflexivity.
Qed.

Lemma filter_all {A} (f : A -> bool) (l : list A) :
  existsb (fun x => negb (f x)) l = false -> List.filter f l = l.
Proof.
  induction l as [|x l IH]; simpl; [reflexivity|].
  intros H. apply orb_false_iff in H as [Hx Hl]. apply negb_false_iff in Hx.
  rewrite Hx, IH by exact Hl. reflexivity.
Qed.

(** X9. [removeToken] either returns, and then the storage holds the loaded
    list without the entries of that key, the others kept in order, and no
    stored entry has the key; or it throws the persistence error and leaves
    the store as the load left it. Removing a key that no entry has stores
    the loaded list as it is. *)
Theorem removeToken_effect (c i : jsstring) (w : Store) :
  (exists w2,
     removeToken c i w = (Ok tt, w2)
     /\ stored w2 = List.filter (fun t => negb (sameKey c i t)) (loaded w)
     /\ ~ In (c, i) (List.map key (stored w2))
     /\ defaults w2 = defaults w
     /\ (existsb (sameKey c i) (loaded w) = false -> stored w2 = loaded w))
  \/ removeToken c i w = (Err PersistenceError, snd (loadTokenConfig w)).
Proof.
  rewrite removeToken_eq. cbv zeta.
  destruct (room (snd (loadTokenConfig w)) _); [left|right; reflexivity].
  eexists. split; [reflexivity|]. simpl.
  split; [reflexivity|]. split; [|split].
  - intros Hin. apply in_map_iff in Hin as [t [Hk Ht]].
    apply filter_In in Ht as [_ Hn]. apply negb_true_iff in Hn.
    apply sameKey_spec in Hk. congruence.
  - apply (load_state w).
  - intros Hex. apply filter_all. rewrite <- Hex. clear Hex.
    induction (loaded w) as [|t l IH]; simpl; [reflexivity|].
    rewrite negb_involutive, IH. reflexivity.
Qed.

(** X10. A removed default token comes back: when [removeToken] has
    returned, the key is one of the default list, and the stored list is
    now shorter than the default list, the next load has the key again,
    whether the storage takes the merge or not. *)
Theorem removed_default_returns (c i : jsstring) (w w2 : Store) :
  removeToken c i w = (Ok tt, w2) ->
  In (c, i) (List.map key (defaults w)) ->
  (length (stored w2) < length (defaults w))%nat ->
  ~ In (c, i) (List.map key (stored w2)) /\ In (c, i) (List.map key (loaded w2)).
Proof.
  intros E Hin Hlen.
  rewrite removeToken_eq in E. cbv zeta in E.
  remember (List.filter (fun t => negb (sameKey c i t)) (loaded w)) as filtered
    eqn:Ef.
  destruct (room (snd (loadTokenConfig w)) filtered) eqn:Er; [|discriminate].
  injection E as <-.
  destruct (load_state w) as [_ [Hd _]]. cbv zeta in Hd.
  split.
  - simpl. intros Hk. apply in_map_iff in Hk as [t [Hk Ht]].
    rewrite Ef in Ht.
    apply filter_In in Ht as [_ Hn]. apply negb_true_iff in Hn.
    apply sameKey_spec in Hk. congruence.
  - unfold stored in Hlen. cbn [item setItem] in Hlen.
    unfold loaded. rewrite loadTokenConfig_eq.
    cbn [item defaults room setItem].
    rewrite Hd. apply Nat.ltb_lt in Hlen. rewrite Hlen.
    apply in_map_iff in Hin as [d [Hk Hdin]].
    destruct (room _ (mergeDefaults _ _)); cbn [deref defaults setItem].
    + rewrite <- Hk. apply merge_covers, Hdin.
    + rewrite Hd, <- Hk. apply in_map, Hdin.
Qed.

Lemma removed_default_returns_witness :
  ~ In (js "ASC", js "r3qWgpz2ry3BhcRJ8JE6rxM8esrfhuKp4R")
      (List.map key (stored (snd (removeToken (js "ASC") (js "r3qWgpz2ry3BhcRJ8JE6rxM8esrfhuKp4R")
                                    (roomyStore (Json DEFAULT_TOKENS))))))
  /\ In (js "ASC", js "r3qWgpz2ry3BhcRJ8JE6rxM8esrfhuKp4R")
       (List.map key (loaded (snd (removeToken (js "ASC") (js "r3qWgpz2ry3BhcRJ8JE6rxM8esrfhuKp4R")
                                     (roomyStore (Json DEFAULT_TOKENS)))))).
Proof.
  apply (removed_default_returns (js "ASC") (js "r3qWgpz2ry3BhcRJ8JE6rxM8esrfhuKp4R")
           (roomyStore (Json DEFAULT_TOKENS))).
  - vm_compute. reflexivity.
  - vm_compute. tauto.
  - vm_compute. lia.
Defined.

Lemma keys_lookup (l : list TokenConfig) (i : nat) (t : TokenConfig) :
  l !! i = Some t -> List.map key l !! i = Some (key t).
Proof.
  intros H. change (List.map key l) with (key <$> l).
  rewrite list_lookup_fmap, H. reflexivity.
Qed.

Lemma noDuplicateKeys_index (l : list TokenConfig) (i j : nat) (a b : TokenConfig) :
  noDuplicateKeys l -> l !! i = Some a -> l !! j = Some b -> key a = key b -> i = j.
Proof.
  unfold noDuplicateKeys. intros Hnd Hi Hj Hk. apply NoDup_ListNoDup in Hnd.
  apply keys_lookup in Hi. apply keys_lookup in Hj. rewrite Hk in Hi.
  exact (NoDup_lookup _ _ _ _ Hnd Hi Hj).
Qed.

Lemma keys_insert_same (l : list TokenConfig) (i : nat) (old newToken : TokenConfig) :
  l !! i = Some old -> key newToken = key old ->
  List.map key (<[i := newToken]> l) = List.map key l.
Proof.
  intros Hi Hk. change (List.map key) with (fmap (M := list) key).
  rewrite list_fmap_insert. apply list_insert_id.
  rewrite list_lookup_fmap, Hi, Hk. reflexivity.
Qed.

(** X11. Editing an entry without changing its key is never taken for a
    duplicate. From a state that keeps the store invariant, with storage
    that takes the write, [updateToken] under the entry's own key returns,
    and the stored list has the same keys in the same order, the new token
    in the place of the old. *)
Theorem updateToken_same_key (newToken : TokenConfig) (w : Store) :
  storeInvariant w ->
  validateXRPLAddress (issuer newToken) = true ->
  existsb (sameKey (currency newToken) (issuer newToken)) (loaded w) = true ->
  (forall l, room w l = true) ->
  exists w2 i,
    updateToken (currency newToken) (issuer newToken) newToken w = (Ok tt, w2)
    /\ stored w2 = <[i := newToken]> (loaded w)
    /\ stored w2 !! i = Some newToken
    /\ List.map key (stored w2) = List.map key (loaded w).
Proof.
  intros Hinv Hv Hex Hroom.
  destruct (load_invariant w Hinv) as [_ Hnd].
  destruct (loadTokenConfig_total w) as [a [w1 [E El]]].
  destruct (load_handle w a w1 E) as [_ [Hr _]].
  destruct (findIndex (sameKey (currency newToken) (issuer newToken)) (loaded w))
    as [i|] eqn:Hi; [|apply findIndex_None in Hi; congruence].
  destruct (findIndex_Some _ _ _ Hi) as [old [Hold [Hp _]]].
  apply sameKey_spec in Hp.
  assert (Hdup : someFrom
            (fun t j => negb (j =? i)%nat
                        && sameKey (currency newToken) (issuer newToken) t)
            0 (loaded w) = false).
  { apply not_true_iff_false. intros Hs. apply someFrom_spec in Hs as [j [x [Hj Hx]]].
    simpl in Hx. apply andb_true_iff in Hx as [Hne Hk].
    apply negb_true_iff, Nat.eqb_neq in Hne. apply sameKey_spec in Hk.
    apply Hne. apply (noDuplicateKeys_index (loaded w) j i x old Hnd Hj Hold). congruence. }
  assert (Hres : exists w2,
             updateToken (currency newToken) (issuer newToken) newToken w = (Ok tt, w2)
             /\ item w2 = Json (<[i := newToken]> (loaded w))).
  { unfold updateToken, bind, read, throw. rewrite Hv. simpl. rewrite E, <- El, Hi, Hdup.
    unfold assign, saveTokenConfig.
    destruct a as [|l]; simpl in *; rewrite Hr, Hroom; eexists; split; try reflexivity;
      simpl; rewrite El; reflexivity. }
  destruct Hres as [w2 [Hu Hit]]. exists w2, i. split; [exact Hu|].
  unfold stored. rewrite Hit. split; [reflexivity|]. split.
  - apply list_lookup_insert_eq. apply lookup_lt_Some in Hold. exact Hold.
  - apply (keys_insert_same _ _ old); [exact Hold | symmetry; exact Hp].
Qed.

Lemma updateToken_same_key_witness :
  exists w2 i,
    updateToken (js "ASC") (js "r3qWgpz2ry3BhcRJ8JE6rxM8esrfhuKp4R")
      (mkToken (js "ASC") (js "r3qWgpz2ry3BhcRJ8JE6rxM8esrfhuKp4R") (Some (js "Ascend")))
      (roomyStore (Json DEFAULT_TOKENS)) = (Ok tt, w2)
    /\ stored w2
       = <[i := mkToken (js "ASC") (js "r3qWgpz2ry3BhcRJ8JE6rxM8esrfhuKp4R")
                   (Some (js "Ascend"))]> (loaded (roomyStore (Json DEFAULT_TOKENS)))
    /\ stored w2 !! i
       = Some (mkToken (js "ASC") (js "r3qWgpz2ry3BhcRJ8JE6rxM8esrfhuKp4R")
                 (Some (js "Ascend")))
    /\ List.map key (stored w2)
       = List.map key (loaded (roomyStore (Json DEFAULT_TOKENS))).
Proof.
  apply (updateToken_same_key
           (mkToken (js "ASC") (js "r3qWgpz2ry3BhcRJ8JE6rxM8esrfhuKp4R") (Some (js "Ascend")))
           (roomyStore (Json DEFAULT_TOKENS))).
  - split; exact DEFAULT_TOKENS_distinct.
  - vm_compute. reflexivity.
  - vm_compute. reflexivity.
  - intros l. reflexivity.
Defined.

(** X12. When [loadTokenConfig] hands out the array [DEFAULT_TOKENS]
    itself (nothing stored, nothing readable, or a rejected write), a valid
    token that is not in it is pushed onto it before the save: if the
    storage then rejects the write, [addToken] throws the persistence
    error, the storage is as the load left it, and the token is in the
    default array all the same. *)
Theorem addToken_rejected_write_keeps_token (token : TokenConfig) (w : Store) :
  fst (loadTokenConfig w) = Ok TheDefaults ->
  validateXRPLAddress (issuer token) = true ->
  existsb (sameKey (currency token) (issuer token)) (defaults w) = false ->
  room w (defaults w ++ [token]) = false ->
  addToken token w
  = (Err PersistenceError,
     setDefaults (defaults w ++ [token]) (snd (loadTokenConfig w)))
  /\ defaults (snd (addToken token w)) = defaults w ++ [token]
  /\ item (snd (addToken token w)) = item (snd (loadTokenConfig w)).
Proof.
  intros Ha Hv Hex Hroom.
  destruct (loadTokenConfig_total w) as [a [w1 [E El]]].
  destruct (load_handle w a w1 E) as [Hd [Hr _]].
  rewrite E in Ha. simpl in Ha. injection Ha as ->.
  assert (Hadd : addToken token w
                 = (Err PersistenceError, setDefaults (defaults w ++ [token]) w1)).
  { unfold addToken, bind, read, throw, push, saveTokenConfig.
    rewrite E, Hv. simpl. rewrite Hd, Hex. simpl. rewrite Hd, Hr, Hroom. reflexivity. }
  rewrite Hadd, E. simpl. auto.
Qed.

Lemma addToken_rejected_write_keeps_token_witness :
  addToken tokenABCD (fullStore NoItem)
  = (Err PersistenceError,
     setDefaults (defaults (fullStore NoItem) ++ [tokenABCD])
       (snd (loadTokenConfig (fullStore NoItem))))
  /\ defaults (snd (addToken tokenABCD (fullStore NoItem)))
     = defaults (fullStore NoItem) ++ [tokenABCD]
  /\ item (snd (addToken tokenABCD (fullStore NoItem)))
     = item (snd (loadTokenConfig (fullStore NoItem))).
Proof.
  apply (addToken_rejected_write_keeps_token tokenABCD (fullStore NoItem)).
  - vm_compute. reflexivity.
  - vm_compute. reflexivity.
  - vm_compute. reflexivity.
  - reflexivity.
Defined.

(** ** The matcher on the whitelist's own entries *)

(** X13. An entry of the loaded whitelist whose currency is not itself a
    40-hex string is whitelisted under its own currency and issuer; and
    whenever the encoding of an entry's currency is a 40-hex string, the
    entry is whitelisted under that encoding too. This holds for any
    lower-casing. *)
Theorem own_entries_whitelisted (toLowerCase : jsstring -> jsstring)
    (t : TokenConfig) (w : Store) :
  In t (loaded w) ->
  (isHexCurrency (currency t) = false ->
   fst (isTokenWhitelisted toLowerCase (currency t) (issuer t) w) = Ok true)
  /\ (isHexCurrency (stringToHex (currency t)) = true ->
      fst (isTokenWhitelisted toLowerCase (stringToHex (currency t)) (issuer t) w)
      = Ok true).
Proof.
  intros Hin. split; intros Hh.
  - destruct (isTokenWhitelisted_loaded toLowerCase (currency t) (issuer t) w) as [w' E].
    rewrite E. simpl. f_equal. apply existsb_exists. exists t. split; [exact Hin|].
    unfold matchesToken. rewrite strictEq_refl, Hh. simpl. apply strictEq_refl.
  - destruct (isTokenWhitelisted_loaded toLowerCase (stringToHex (currency t)) (issuer t) w)
      as [w' E].
    rewrite E. simpl. f_equal. apply existsb_exists. exists t. split; [exact Hin|].
    unfold matchesToken. rewrite strictEq_refl, Hh. simpl.
    rewrite (strictEq_refl (toLowerCase (stringToHex (currency t)))).
    apply orb_true_r.
Qed.

Lemma own_entries_whitelisted_witness :
  fst (isTokenWhitelisted toLowerCaseLatin1 (js "ABCD") sampleIssuer
         (roomyStore (Json [tokenABCD]))) = Ok true
  /\ fst (isTokenWhitelisted toLowerCaseLatin1 (stringToHex (js "ABCD")) sampleIssuer
            (roomyStore (Json [tokenABCD]))) = Ok true.
Proof.
  assert (Hin : In tokenABCD (loaded (roomyStore (Json [tokenABCD]))))
    by (vm_compute; tauto).
  destruct (own_entries_whitelisted toLowerCaseLatin1 tokenABCD
              (roomyStore (Json [tokenABCD])) Hin) as [H1 H2].
  split; [apply H1 | apply H2]; vm_compute; reflexivity.
Defined.

(** ** One request and the failover *)

(** [makeXRPLRequest] on a valid address, by the reply it meets. Each call
    sends exactly one request. *)
Lemma makeXRPLRequest_eq (method : Method) (address : jsstring) (w : Client) :
  validateXRPLAddress address = true ->
  makeXRPLRequest method address w =
  match net w (requestsSent w) (currentServerIndex w) with
  | FetchRejects t => (Err (classify (currentServerIndex w) t), sent method address w)
  | Response status text json =>
      if ok status then
        match json with
        | Resolves DataNull => (Err (ErrHost (mkThrown true false)), sent method address w)
        | Resolves (DataObj (Some r)) =>
            if truthy (error r)
            then (Err (ErrApi (if truthy (error_message r)
                               then default [] (error_message r)
                               else default [] (error r))),
                  sent method address w)
            else (Ok r, sent method address w)
        | Resolves (DataObj None) => (Err ErrNoResult, sent method address w)
        | Rejects t => (Err (classify (currentServerIndex w) t), sent method address w)
        end
      else
        match text with
        | Resolves _ => (Err (ErrServer status), failedOver (sent method address w))
        | Rejects t => (Err (classify (currentServerIndex w) t), sent method address w)
        end
  end.
Proof.
  intros Hv. unfold makeXRPLRequest. rewrite Hv, andb_false_r.
  unfold catch, bind, fetch, emit, ret, throw, await, advanceServer, classify, sent,
    failedOver, nextServer. simpl.
  destruct (net w (requestsSent w) (currentServerIndex w)) as [t|status text json]; simpl.
  - destruct (isTypeError t && mentionsFetch t); reflexivity.
  - destruct (ok status); simpl.
    + destruct json as [[|[r|]]|t]; simpl; try reflexivity.
      * destruct (truthy (error r)); reflexivity.
      * destruct (isTypeError t && mentionsFetch t); reflexivity.
    + destruct text as [txt|t]; simpl.
      * destruct (currentServerIndex w <? _)%nat; reflexivity.
      * destruct (isTypeError t && mentionsFetch t); reflexivity.
Qed.

(** X14. The server cursor moves on one event only: a response whose status
    is not 2xx and whose body can be read. The request then fails with the
    status, and the cursor is on the next server, or stays on the last. A
    transport failure, a body that cannot be read and every 2xx reply leave
    the cursor where it was. *)
Theorem failover_only_on_status (method : Method) (address : jsstring) (w : Client) :
  validateXRPLAddress address = true ->
  currentServerIndex (snd (makeXRPLRequest method address w))
  = match net w (requestsSent w) (currentServerIndex w) with
    | Response status (Resolves _) _ =>
        if ok status then currentServerIndex w else nextServer (currentServerIndex w)
    | _ => currentServerIndex w
    end
  /\ (forall status txt json,
        net w (requestsSent w) (currentServerIndex w) = Response status (Resolves txt) json ->
        ok status = false ->
        makeXRPLRequest method address w
        = (Err (ErrServer status), failedOver (sent method address w)))
  /\ (nextServer 0 = 1 /\ nextServer 1 = 2 /\ nextServer 2 = 2)%nat.
Proof.
  intros Hv. rewrite (makeXRPLRequest_eq _ _ _ Hv). split; [|split].
  - destruct (net w (requestsSent w) (currentServerIndex w)) as [t|status text json];
      [reflexivity|].
    destruct (ok status).
    + destruct json as [[|[r|]]|t]; try (destruct (truthy (error r)));
        destruct text; reflexivity.
    + destruct text; reflexivity.
  - intros status txt json E Hok. rewrite E, Hok. reflexivity.
  - repeat split.
Qed.

Lemma failover_only_on_status_witness :
  currentServerIndex (snd (makeXRPLRequest account_lines sampleIssuer busyClient))
  = match net busyClient (requestsSent busyClient) (currentServerIndex busyClient) with
    | Response status (Resolves _) _ =>
        if ok status then currentServerIndex busyClient
        else nextServer (currentServerIndex busyClient)
    | _ => currentServerIndex busyClient
    end.
Proof.
  apply (failover_only_on_status account_lines sampleIssuer busyClient).
  vm_compute. reflexivity.
Defined.

Lemma extends_refl (w : Client) : extends w w.
Proof.
  unfold extends, startsWith. repeat split; try lia. exists []. symmetry. apply app_nil_r.
Qed.

Lemma extends_trans (w1 w2 w3 : Client) : extends w1 w2 -> extends w2 w3 -> extends w1 w3.
Proof.
  unfold extends, startsWith.
  intros [N1 [[r1 T1] [L1 U1]]] [N2 [[r2 T2] [L2 U2]]].
  repeat split; try congruence; try lia.
  exists (r1 ++ r2). rewrite T2, T1, app_assoc. reflexivity.
Qed.

Lemma extends_sent (method : Method) (address : jsstring) (w : Client) :
  extends w (sent method address w).
Proof.
  unfold extends, startsWith, sent. simpl. repeat split; try lia. eauto.
Qed.

Lemma extends_failedOver (w : Client) : extends w (failedOver w).
Proof.
  unfold extends, startsWith, failedOver, nextServer. simpl.
  destruct (currentServerIndex w <? 2)%nat eqn:E.
  - apply Nat.ltb_lt in E. repeat split; try lia. exists []. symmetry. apply app_nil_r.
  - repeat split; try lia. exists []. symmetry. apply app_nil_r.
Qed.

Lemma extends_wait (ms : Z) (w : Client) : extends w (wait ms w).
Proof.
  unfold extends, startsWith, wait, emit. simpl. repeat split; try lia. eauto.
Qed.

Lemma makeXRPLRequest_extends (method : Method) (address : jsstring) (w : Client) :
  extends w (snd (makeXRPLRequest method address w)).
Proof.
  destruct (validateXRPLAddress address) eqn:Hv.
  - rewrite (makeXRPLRequest_eq _ _ _ Hv).
    pose proof (extends_sent method address w) as Hs.
    pose proof (extends_trans _ _ _ Hs (extends_failedOver (sent method address w))) as Hf.
    destruct (net w (requestsSent w) (currentServerIndex w)) as [t|status text json];
      [exact Hs|].
    destruct (ok status).
    + destruct json as [[|[r|]]|t]; try (destruct (truthy (error r))); exact Hs.
    + destruct text; [exact Hf | exact Hs].
  - unfold makeXRPLRequest. rewrite Hv.
    destruct address as [|c address]; simpl.
    + pose proof (extends_sent method [] w) as Hs.
      pose proof (extends_trans _ _ _ Hs (extends_failedOver (sent method [] w))) as Hf.
      unfold catch, bind, fetch, emit, ret, throw, await, advanceServer. simpl.
      change (mkClient (currentServerIndex w)
                (trace w ++ [Request (currentServerIndex w) method []]) (net w))
        with (sent method [] w) in *.
      destruct (net w (requestsSent w) (currentServerIndex w)) as [t|status text json];
        simpl.
      * destruct (isTypeError t && mentionsFetch t); exact Hs.
      * destruct (ok status); simpl.
        -- destruct json as [[|[r|]]|t]; simpl; try exact Hs.
           ++ destruct (truthy (error r)); exact Hs.
           ++ destruct (isTypeError t && mentionsFetch t); exact Hs.
        -- destruct text as [txt|t]; simpl.
           ++ unfold failedOver, nextServer in Hf. simpl in Hf.
              destruct (currentServerIndex w <? 2)%nat; [exact Hf | exact Hs].
           ++ destruct (isTypeError t && mentionsFetch t); exact Hs.
    + apply extends_refl.
Qed.

Lemma retryDefault_extends (method : Method) (address : jsstring) (w : Client) :
  extends w (snd (retryDefault (makeXRPLRequest method address) w)).
Proof.
  rewrite retryDefault_eq.
  pose proof (makeXRPLRequest_extends method address w) as H1.
  destruct (makeXRPLRequest method address w) as [[r|e1] w1]; simpl in *; [exact H1|].
  pose proof (makeXRPLRequest_extends method address (wait (retryDelay 1) w1)) as H2.
  pose proof (extends_trans _ _ _ H1 (extends_wait (retryDelay 1) w1)) as H1'.
  destruct (makeXRPLRequest method address (wait (retryDelay 1) w1)) as [[r|e2] w2];
    simpl in *; [exact (extends_trans _ _ _ H1' H2)|].
  pose proof (makeXRPLRequest_extends method address (wait (retryDelay 2) w2)) as H3.
  exact (extends_trans _ _ _ (extends_trans _ _ _ (extends_trans _ _ _ H1' H2)
                                (extends_wait (retryDelay 2) w2)) H3).
Qed.

Lemma fetch_extends (address : jsstring) (w : Client) :
  extends w (snd (fetchAccountInfo address w))
  /\ extends w (snd (fetchAccountLines address w))
  /\ extends w (snd (fetchAccountNFTs address w)).
Proof.
  destruct (validateXRPLAddress address) eqn:Hv.
  - rewrite (fetchAccountInfo_eq _ _ Hv), (fetchAccountLines_eq _ _ Hv),
      (fetchAccountNFTs_eq _ _ Hv).
    pose proof (retryDefault_extends account_info address w) as Hi.
    pose proof (retryDefault_extends account_lines address w) as Hl.
    pose proof (retryDefault_extends account_nfts address w) as Hn.
    destruct (retryDefault (makeXRPLRequest account_info address) w) as [[ri|ei] wi];
      destruct (retryDefault (makeXRPLRequest account_lines address) w) as [[rl|el] wl];
      destruct (retryDefault (makeXRPLRequest account_nfts address) w) as [[rn|en] wn];
      try destruct (account_data ri); simpl in *; auto.
  - unfold fetchAccountInfo, fetchAccountLines, fetchAccountNFTs. rewrite Hv. simpl.
    auto using extends_refl.
Qed.

(** X15. Whatever the address and the network, each fetch operation leaves
    the network as it was, only adds to the trace, never moves the server
    cursor back, and never moves it past the last server: a cursor within
    the server list stays within it. *)
Theorem fetch_keeps_client (address : jsstring) (w : Client) :
  (extends w (snd (fetchAccountInfo address w))
   /\ extends w (snd (fetchAccountLines address w))
   /\ extends w (snd (fetchAccountNFTs address w)))
  /\ ((currentServerIndex w < length XRPL_SERVERS)%nat ->
      (currentServerIndex (snd (fetchAccountInfo address w)) < length XRPL_SERVERS)%nat
      /\ (currentServerIndex (snd (fetchAccountLines address w)) < length XRPL_SERVERS)%nat
      /\ (currentServerIndex (snd (fetchAccountNFTs address w)) < length XRPL_SERVERS)%nat).
Proof.
  pose proof (fetch_extends address w) as [Hi [Hl Hn]].
  split; [auto|]. intros Hc.
  destruct Hi as [_ [_ [_ Ui]]], Hl as [_ [_ [_ Ul]]], Hn as [_ [_ [_ Un]]].
  simpl in *. lia.
Qed.

Lemma fetch_keeps_client_witness :
  (currentServerIndex (snd (fetchAccountInfo sampleIssuer busyClient)) < length XRPL_SERVERS)%nat
  /\ (currentServerIndex (snd (fetchAccountLines sampleIssuer busyClient))
      < length XRPL_SERVERS)%nat
  /\ (currentServerIndex (snd (fetchAccountNFTs sampleIssuer busyClient))
      < length XRPL_SERVERS)%nat.
Proof.
  apply (proj2 (fetch_keeps_client sampleIssuer busyClient)). vm_compute. lia.
Defined.

(** ** The retry loop for any number of attempts *)

Lemma sleepsOf_app (t1 t2 : list Event) : sleepsOf (t1 ++ t2) = sleepsOf t1 ++ sleepsOf t2.
Proof. unfold sleepsOf. apply flat_map_app. Qed.

Lemma requestsSent_app (w : Client) (s : nat) (t : list Event) (n : nat -> nat -> Reply) :
  requestsSent (mkClient s (trace w ++ t) n)
  = (requestsSent w + length (List.filter isRequest t))%nat.
Proof. unfold requestsSent. simpl. rewrite List.filter_app, length_app. reflexivity. Qed.

(** A failing reply: the request throws, having sent one request and
    waited for nothing. *)
Lemma makeXRPLRequest_fails (method : Method) (address : jsstring) (w : Client) :
  validateXRPLAddress address = true ->
  failing (net w (requestsSent w) (currentServerIndex w)) = true ->
  exists e w',
    makeXRPLRequest method address w = (Err e, w')
    /\ net w' = net w
    /\ trace w' = trace w ++ [Request (currentServerIndex w) method address].
Proof.
  intros Hv. rewrite (makeXRPLRequest_eq _ _ _ Hv). unfold failing.
  destruct (net w (requestsSent w) (currentServerIndex w)) as [t|status text json].
  - intros _. eauto.
  - destruct (ok status).
    + destruct json as [[|[r|]]|t]; try (intros H; rewrite H); eauto.
    + intros _. destruct text; eauto.
Qed.

Lemma retryLoop_failing (method : Method) (address : jsstring)
    (maxRetries : nat) (initialDelay : Z) :
  validateXRPLAddress address = true ->
  forall (left_ attempt : nat) (lastError : RpcError) (w : Client),
    (forall n k, failing (net w n k) = true) ->
    (left_ + attempt = maxRetries)%nat ->
    exists e w',
      retryLoop (makeXRPLRequest method address) left_ attempt maxRetries
        initialDelay lastError w = (Err e, w')
      /\ net w' = net w
      /\ sleepsOf (trace w')
         = sleepsOf (trace w)
           ++ List.map (fun k => (initialDelay * 2 ^ Z.of_nat k)%Z)
                (seq attempt (left_ - 1))
      /\ requestsSent w' = (requestsSent w + left_)%nat.
Proof.
  intros Hv. induction left_ as [|left' IH]; intros attempt lastError w Hfail Hsum.
  - exists lastError, w. simpl. rewrite app_nil_r, Nat.add_0_r. auto.
  - destruct (makeXRPLRequest_fails method address w Hv (Hfail _ _))
      as [e1 [w1 [E1 [N1 T1]]]].
    cbn [retryLoop]. unfold catch, bind. rewrite E1.
    destruct (attempt <? maxRetries - 1)%nat eqn:Elt.
    + apply Nat.ltb_lt in Elt.
      destruct (IH (S attempt) e1 (snd (emit (Sleep (initialDelay * 2 ^ Z.of_nat attempt)) w1)))
        as [e [w' [E [N [Sl Rq]]]]].
      { intros n k. simpl. rewrite N1. apply Hfail. }
      { lia. }
      exists e, w'. unfold emit in *. simpl in *. rewrite E.
      split; [reflexivity|]. split; [congruence|]. split.
      * rewrite Sl, T1, !sleepsOf_app. simpl. rewrite app_nil_r, <- !app_assoc.
        f_equal. destruct left' as [|left'']; [lia|]. simpl. rewrite Nat.sub_0_r.
        reflexivity.
      * rewrite Rq. unfold requestsSent. simpl. rewrite T1.
        rewrite !List.filter_app, !length_app. simpl. lia.
    + apply Nat.ltb_ge in Elt.
      destruct (IH (S attempt) e1 w1) as [e [w' [E [N [Sl Rq]]]]].
      { intros n k. rewrite N1. apply Hfail. }
      { lia. }
      exists e, w'. unfold ret. simpl. rewrite E.
      split; [reflexivity|]. split; [congruence|]. split.
      * rewrite Sl, T1, sleepsOf_app. simpl. rewrite app_nil_r.
        replace left' with 0%nat by lia. reflexivity.
      * rewrite Rq. unfold requestsSent. rewrite T1.
        rewrite List.filter_app, length_app. simpl. lia.
Qed.

(** X16. The retry loop for whole-number arguments on which the source
    computes exactly and every delay is one a timer takes as given:
    [maxRetries] a whole number from 0 to 1000, [initialDelay] a whole
    number that is not negative, and the longest delay,
    [initialDelay * 2 ^ (maxRetries - 2)], at most 2147483647 ms. The
    defaults 3 and 1000 are in this range; fractions, [NaN], infinities
    and larger products are not, and nothing is said of them. On a network
    where no reply is a result, [retryWithBackoff] then throws after
    exactly [maxRetries] requests, and the delays it waited are
    [initialDelay], twice that, and so on, [maxRetries - 1] of them: it
    never waits after the last attempt, and with [maxRetries = 0] it
    sends nothing. *)
Theorem retryWithBackoff_all_failing (method : Method) (address : jsstring)
    (maxRetries : nat) (initialDelay : Z) (w : Client) :
  (maxRetries <= 1000)%nat ->
  (0 <= initialDelay)%Z ->
  (initialDelay * 2 ^ Z.of_nat (maxRetries - 2) <= 2147483647)%Z ->
  validateXRPLAddress address = true ->
  (forall n k, failing (net w n k) = true) ->
  exists e w',
    retryWithBackoff (makeXRPLRequest method address) maxRetries initialDelay w
    = (Err e, w')
    /\ sleepsOf (trace w') = sleepsOf (trace w) ++ doubling initialDelay (maxRetries - 1)
    /\ requestsSent w' = (requestsSent w + maxRetries)%nat.
Proof.
  intros _ _ _ Hv Hfail.
  destruct (retryLoop_failing method address maxRetries initialDelay Hv
              maxRetries 0 ErrNull w Hfail ltac:(lia)) as [e [w' [E [_ [Sl Rq]]]]].
  exists e, w'. unfold retryWithBackoff, doubling. auto.
Qed.

Lemma retryWithBackoff_all_failing_witness :
  exists e w',
    retryWithBackoff (makeXRPLRequest account_lines sampleIssuer) 5 100 deadClient
    = (Err e, w')
    /\ sleepsOf (trace w') = sleepsOf (trace deadClient) ++ doubling 100 (5 - 1)
    /\ requestsSent w' = (requestsSent deadClient + 5)%nat.
Proof.
  apply (retryWithBackoff_all_failing account_lines sampleIssuer 5 100 deadClient).
  - lia.
  - lia.
  - vm_compute. discriminate.
  - vm_compute. reflexivity.
  - intros n k. reflexivity.
Defined.

(** ** The fetch operations on a first reply, and what they throw *)

Lemma makeXRPLRequest_carries (method : Method) (address : jsstring) (w : Client)
    (r : Result) :
  validateXRPLAddress address = true ->
  carries (net w (requestsSent w) (currentServerIndex w)) r ->
  makeXRPLRequest method address w = (Ok r, sent method address w).
Proof.
  intros Hv [status [text [E [Hok Herr]]]].
  rewrite (makeXRPLRequest_eq _ _ _ Hv), E, Hok, Herr. reflexivity.
Qed.

(** X17. When the first reply carries a result, each fetch ends after that
    one request, with no wait: [fetchAccountInfo] returns the account data,
    or throws the missing-field error when the result has none, which is
    not retried; [fetchAccountLines] and [fetchAccountNFTs] return the
    lines and the NFTs, or the empty list when the result has none. *)
Theorem fetch_first_reply (address : jsstring) (w : Client) (r : Result) :
  validateXRPLAddress address = true ->
  carries (net w (requestsSent w) (currentServerIndex w)) r ->
  fetchAccountInfo address w
  = (match account_data r with
     | Some d => Ok d
     | None => Err ErrMissingAccountData
     end, sent account_info address w)
  /\ fetchAccountLines address w
     = (Ok (default [] (lines r)), sent account_lines address w)
  /\ fetchAccountNFTs address w
     = (Ok (default [] (r_account_nfts r)), sent account_nfts address w).
Proof.
  intros Hv Hc.
  rewrite (fetchAccountInfo_eq _ _ Hv), (fetchAccountLines_eq _ _ Hv),
    (fetchAccountNFTs_eq _ _ Hv), !retryDefault_eq.
  rewrite !(makeXRPLRequest_carries _ _ _ _ Hv Hc).
  destruct (account_data r); auto.
Qed.

Lemma fetch_first_reply_witness :
  fetchAccountInfo sampleIssuer (answering noData)
  = (match account_data noData with
     | Some d => Ok d
     | None => Err ErrMissingAccountData
     end, sent account_info sampleIssuer (answering noData))
  /\ fetchAccountLines sampleIssuer (answering noData)
     = (Ok (default [] (lines noData)), sent account_lines sampleIssuer (answering noData))
  /\ fetchAccountNFTs sampleIssuer (answering noData)
     = (Ok (default [] (r_account_nfts noData)),
        sent account_nfts sampleIssuer (answering noData)).
Proof.
  apply (fetch_first_reply sampleIssuer (answering noData) noData).
  - vm_compute. reflexivity.
  - exists 200, (Resolves []). repeat split.
Defined.

Lemma makeXRPLRequest_surfaced (method : Method) (address : jsstring) (w w' : Client)
    (e : RpcError) :
  validateXRPLAddress address = true ->
  makeXRPLRequest method address w = (Err e, w') -> surfaced e = true.
Proof.
  intros Hv. rewrite (makeXRPLRequest_eq _ _ _ Hv).
  assert (Hc : forall s t, surfaced (classify s t) = true).
  { intros s t. unfold classify.
    destruct (isTypeError t && mentionsFetch t) eqn:E; simpl; [reflexivity|].
    rewrite E. reflexivity. }
  destruct (net w (requestsSent w) (currentServerIndex w)) as [t|status text json].
  - intros [= <- _]. apply Hc.
  - destruct (ok status) eqn:Hok.
    + destruct json as [[|[r|]]|t].
      * intros [= <- _]. reflexivity.
      * destruct (truthy (error r)) eqn:He; [|discriminate]. intros [= <- _].
        destruct (truthy (error_message r)) eqn:Hm; simpl.
        -- destruct (error_message r) as [[|]|]; simpl in *; congruence.
        -- destruct (error r) as [[|]|]; simpl in *; congruence.
      * intros [= <- _]. reflexivity.
      * intros [= <- _]. apply Hc.
    + destruct text as [txt|t]; intros [= <- _]; [simpl; rewrite Hok; reflexivity | apply Hc].
Qed.

Lemma retryDefault_surfaced (method : Method) (address : jsstring) (w w' : Client)
    (e : RpcError) :
  validateXRPLAddress address = true ->
  retryDefault (makeXRPLRequest method address) w = (Err e, w') -> surfaced e = true.
Proof.
  intros Hv. rewrite retryDefault_eq.
  destruct (makeXRPLRequest method address w) as [[r|e1] w1]; [discriminate|].
  destruct (makeXRPLRequest method address (wait (retryDelay 1) w1)) as [[r|e2] w2];
    [discriminate|].
  intros H. eapply makeXRPLRequest_surfaced; eassumption.
Qed.

(** X18. What a fetch on a valid address can throw: a network error, a
    status that is not 2xx, an API error with a message that is not empty,
    a missing result, or another host exception passed on; for
    [fetchAccountInfo] also the missing account data. It never throws the
    invalid-address errors or [null]. *)
Theorem fetch_errors_classified (address : jsstring) (w w' : Client) (e : RpcError) :
  validateXRPLAddress address = true ->
  (fetchAccountLines address w = (Err e, w') -> surfaced e = true)
  /\ (fetchAccountInfo address w = (Err e, w') ->
      surfaced e = true \/ e = ErrMissingAccountData)
  /\ fetchAccountNFTs address w <> (Err e, w').
Proof.
  intros Hv.
  rewrite (fetchAccountInfo_eq _ _ Hv), (fetchAccountLines_eq _ _ Hv),
    (fetchAccountNFTs_eq _ _ Hv).
  split; [|split].
  - destruct (retryDefault (makeXRPLRequest account_lines address) w) as [[r|e0] w0] eqn:E;
      [discriminate|].
    intros [= <- _]. eapply retryDefault_surfaced; eassumption.
  - destruct (retryDefault (makeXRPLRequest account_info address) w) as [[r|e0] w0] eqn:E.
    + destruct (account_data r); [discriminate|]. intros [= <- _]. auto.
    + intros [= <- _]. left. eapply retryDefault_surfaced; eassumption.
  - destruct (retryDefault (makeXRPLRequest account_nfts address) w) as [[r|e0] w0];
      discriminate.
Qed.

Lemma fetch_errors_classified_witness :
  fetchAccountLines sampleIssuer refusingClient
  = (Err (ErrApi (js "Account not found.")),
     snd (fetchAccountLines sampleIssuer refusingClient))
  /\ surfaced (ErrApi (js "Account not found.")) = true.
Proof.
  assert (H : fetchAccountLines sampleIssuer refusingClient
              = (Err (ErrApi (js "Account not found.")),
                 snd (fetchAccountLines sampleIssuer refusingClient)))
    by (vm_compute; reflexivity).
  split; [exact H|].
  exact (proj1 (fetch_errors_classified sampleIssuer refusingClient _ _
                  ltac:(vm_compute; reflexivity)) H).
Defined.

(** ** The token list *)

Section TokenListFacts.

Variable toLowerCase : jsstring -> jsstring.

Lemma isTokenWhitelisted_eq (c i : jsstring) (w : Store) :
  isTokenWhitelisted toLowerCase c i w
  = (Ok (existsb (matchesToken toLowerCase c i) (loaded w)), snd (loadTokenConfig w)).
Proof.
  destruct (loadTokenConfig_total w) as [a [w' [E El]]].
  unfold isTokenWhitelisted, bind, read, ret. rewrite E, El. reflexivity.
Qed.

Lemma filterWhitelisted_eq (lines : list TrustLine) :
  forall w,
    filterWhitelisted toLowerCase lines w
    = (Ok (List.filter
             (fun line =>
                existsb (matchesToken toLowerCase (line_currency line) (account line))
                  (loaded w))
             lines),
       match lines with
       | [] => w
       | _ :: _ => snd (loadTokenConfig w)
       end).
Proof.
  induction lines as [|line rest IH]; intros w; [reflexivity|].
  cbn [filterWhitelisted]. unfold bind at 1. rewrite isTokenWhitelisted_eq.
  unfold bind, ret. rewrite IH.
  destruct (load_twice w) as [Hl Hs]. rewrite Hl.
  assert (Est : match rest with
                | [] => snd (loadTokenConfig w)
                | _ :: _ => snd (loadTokenConfig (snd (loadTokenConfig w)))
                end = snd (loadTokenConfig w))
    by (destruct rest; [reflexivity | exact Hs]).
  rewrite Est. cbn [List.filter].
  destruct (existsb _ (loaded w)); reflexivity.
Qed.

Lemma filterWhitelisted_loaded (lines : list TrustLine) (w : Store) :
  loaded (snd (filterWhitelisted toLowerCase lines w)) = loaded w.
Proof.
  rewrite filterWhitelisted_eq. simpl.
  destruct lines; [reflexivity | apply load_twice].
Qed.

Variable meanwhile : nat -> Store -> Store.

Lemma firstn_succ_nth_error {A} (l : list A) :
  forall n x, nth_error l n = Some x -> firstn (S n) l = firstn n l ++ [x].
Proof.
  induction l as [|y l IH]; intros [|n] x H; try discriminate.
  - injection H as ->. reflexivity.
  - simpl in H. cbn [firstn app]. f_equal. apply IH, H.
Qed.

(** The loop adds to what it was given. *)
Lemma fetchWallets_acc (wallets : list Wallet) :
  forall position allTokens errors a,
    fetchWallets toLowerCase meanwhile wallets position allTokens errors a
    = ((allTokens
          ++ fst (fst (fetchWallets toLowerCase meanwhile wallets position [] [] a)),
        errors
          ++ snd (fst (fetchWallets toLowerCase meanwhile wallets position [] [] a))),
       snd (fetchWallets toLowerCase meanwhile wallets position [] [] a)).
Proof.
  induction wallets as [|wallet rest IH]; intros position allTokens errors a.
  - simpl. rewrite !app_nil_r. reflexivity.
  - cbn [fetchWallets].
    destruct (negb (validateXRPLAddress (wallet_address wallet))); [apply IH|].
    destruct (fetchAccountLines (wallet_address wallet) (client a)) as [[lines|e] c].
    + destruct (filterWhitelisted toLowerCase lines (meanwhile position (store a)))
        as [[kept|e] s0].
      * rewrite (IH _ (allTokens ++ _)), (IH _ ([] ++ _)). cbn [fst snd app].
        rewrite <- app_assoc. reflexivity.
      * rewrite (IH _ _ (errors ++ _)), (IH _ _ ([] ++ _)). cbn [fst snd app].
        rewrite <- app_assoc. reflexivity.
    + rewrite (IH _ _ (errors ++ _)), (IH _ _ ([] ++ _)). cbn [fst snd app].
      rewrite <- app_assoc. reflexivity.
Qed.

(** The loop over a list in two parts. *)
Lemma fetchWallets_app (before after : list Wallet) :
  forall position allTokens errors a,
    fetchWallets toLowerCase meanwhile (before ++ after) position allTokens errors a
    = fetchWallets toLowerCase meanwhile after (position + length before)
        (fst (fst (fetchWallets toLowerCase meanwhile before position allTokens errors a)))
        (snd (fst (fetchWallets toLowerCase meanwhile before position allTokens errors a)))
        (snd (fetchWallets toLowerCase meanwhile before position allTokens errors a)).
Proof.
  induction before as [|wallet rest IH]; intros position allTokens errors a.
  - simpl. rewrite Nat.add_0_r. reflexivity.
  - cbn [app fetchWallets length]. rewrite <- Nat.add_succ_comm.
    destruct (negb (validateXRPLAddress (wallet_address wallet))); [apply IH|].
    destruct (fetchAccountLines (wallet_address wallet) (client a)) as [[lines|e] c].
    + destruct (filterWhitelisted toLowerCase lines (meanwhile position (store a)))
        as [[kept|e] s0]; apply IH.
    + apply IH.
Qed.

(** [loadTokens] by its second loop. *)
Lemma loadTokensOf_eq (wallets : list Wallet) (a : App) :
  let start := mkApp (client a) (snd (loadTokenConfig (store a))) in
  loadTokensOf toLowerCase meanwhile wallets a
  = ((fst (fst (fetchWallets toLowerCase meanwhile wallets 0 [] [] start)),
      validationErrors wallets
        ++ snd (fst (fetchWallets toLowerCase meanwhile wallets 0 [] [] start))),
     snd (fetchWallets toLowerCase meanwhile wallets 0 [] [] start)).
Proof.
  simpl. unfold loadTokensOf.
  destruct (loadTokenConfig (store a)) as [r s0]. cbn [snd].
  rewrite fetchWallets_acc. reflexivity.
Qed.

(** The pass of the loop over one wallet, from the states reached. *)
Lemma fetchWallets_one (wallets : list Wallet) (a : App) (position : nat)
    (wallet : Wallet) :
  nth_error wallets position = Some wallet ->
  let here := reached toLowerCase meanwhile wallets position a in
  let after := fetchWallets toLowerCase meanwhile [wallet] position [] [] here in
  fst (fst after) = tokensAt toLowerCase meanwhile wallets a position
  /\ snd (fst after) = fetchErrorAt toLowerCase meanwhile wallets a position
  /\ snd after = reached toLowerCase meanwhile wallets (S position) a
  /\ (validateXRPLAddress (wallet_address wallet) = false -> snd after = here)
  /\ (validateXRPLAddress (wallet_address wallet) = true ->
      client (snd after) = snd (fetchAccountLines (wallet_address wallet) (client here))
      /\ loaded (store (snd after)) = whitelistAt toLowerCase meanwhile wallets position a).
Proof.
  intros Hn here after.
  assert (Hnext : snd after = reached toLowerCase meanwhile wallets (S position) a).
  { unfold after, here, reached.
    rewrite (firstn_succ_nth_error wallets position wallet Hn).
    rewrite !loadTokensOf_eq. cbn [snd]. rewrite fetchWallets_app. cbn [snd].
    assert (Hlen : length (firstn position wallets) = position).
    { apply firstn_length_le. apply Nat.lt_le_incl, nth_error_Some. congruence. }
    rewrite Hlen. cbn [Nat.add].
    rewrite (fetchWallets_acc [wallet] position (fst (fst _))). reflexivity. }
  split; [|split; [|split; [exact Hnext|]]].
  - unfold tokensAt, whitelistAt. rewrite Hn. fold here. unfold after.
    cbn [fetchWallets].
    destruct (validateXRPLAddress (wallet_address wallet)); cbn [negb]; [|reflexivity].
    destruct (fetchAccountLines (wallet_address wallet) (client here)) as [[lines|e] c];
      [|reflexivity].
    rewrite filterWhitelisted_eq. reflexivity.
  - unfold fetchErrorAt. rewrite Hn. fold here. unfold after.
    cbn [fetchWallets].
    destruct (validateXRPLAddress (wallet_address wallet)); cbn [negb]; [|reflexivity].
    destruct (fetchAccountLines (wallet_address wallet) (client here)) as [[lines|e] c];
      [|reflexivity].
    rewrite filterWhitelisted_eq. reflexivity.
  - split.
    + intros Hv. unfold after. cbn [fetchWallets]. rewrite Hv. reflexivity.
    + intros Hv. unfold whitelistAt. fold here. unfold after. cbn [fetchWallets].
      rewrite Hv. cbn [negb].
      destruct (fetchAccountLines (wallet_address wallet) (client here)) as [[lines|e] c].
      * rewrite filterWhitelisted_eq. cbn [snd client store]. split; [reflexivity|].
        destruct lines; [reflexivity | apply load_twice].
      * cbn [snd client store]. split; reflexivity.
Qed.

(** The loop over the wallets before a position. *)
Lemma fetchWallets_firstn (wallets : list Wallet) (a : App) :
  forall n, (n <= length wallets)%nat ->
    let start := mkApp (client a) (snd (loadTokenConfig (store a))) in
    let run := fetchWallets toLowerCase meanwhile (firstn n wallets) 0 [] [] start in
    fst (fst run) = flat_map (tokensAt toLowerCase meanwhile wallets a) (seq 0 n)
    /\ snd (fst run) = flat_map (fetchErrorAt toLowerCase meanwhile wallets a) (seq 0 n)
    /\ snd run = reached toLowerCase meanwhile wallets n a.
Proof.
  induction n as [|n IH]; intros Hle start run.
  - unfold run, reached. rewrite loadTokensOf_eq. simpl. auto.
  - destruct (nth_error wallets n) as [wallet|] eqn:Hn;
      [|apply nth_error_None in Hn; lia].
    destruct (IH ltac:(lia)) as [IHt [IHe IHs]].
    destruct (fetchWallets_one wallets a n wallet Hn) as [Ht [He [Hs _]]].
    unfold run. rewrite (firstn_succ_nth_error wallets n wallet Hn).
    rewrite fetchWallets_app.
    assert (Hlen : length (firstn n wallets) = n) by (apply firstn_length_le; lia).
    rewrite Hlen. cbn [Nat.add].
    rewrite fetchWallets_acc. cbn [fst snd]. unfold start.
    rewrite IHt, IHe, IHs, Ht, He, Hs.
    rewrite seq_S, !flat_map_app. cbn [Nat.add flat_map]. rewrite !app_nil_r.
    auto.
Qed.


End TokenListFacts.

(** X19. Filtering trust lines calls [isTokenWhitelisted] once for each
    line, each call loading the whitelist again; the lines kept are exactly
    those matching the list the first load returns, in their order, and
    the store is left as one load leaves it. *)
Theorem filterWhitelisted_pure (toLowerCase : jsstring -> jsstring)
    (lines : list TrustLine) (w : Store) :
  fst (filterWhitelisted toLowerCase lines w)
  = Ok (List.filter
          (fun line =>
             existsb (matchesToken toLowerCase (line_currency line) (account line))
               (loaded w))
          lines)
  /\ loaded (snd (filterWhitelisted toLowerCase lines w)) = loaded w
  /\ (lines <> [] -> snd (filterWhitelisted toLowerCase lines w) = snd (loadTokenConfig w)).
Proof.
  split; [|split].
  - rewrite filterWhitelisted_eq. reflexivity.
  - apply filterWhitelisted_loaded.
  - intros Hne. rewrite filterWhitelisted_eq. destruct lines; [congruence | reflexivity].
Qed.

(** X20. What [loadTokens] shows, wallet by wallet, when other code may
    change the whitelist while a fetch is awaited. The tokens are, for the
    wallets in their order, the lines that [fetchAccountLines] returned for
    the wallet, from the client as the wallets before it left it, that
    match the whitelist as it reads when that fetch has settled, each
    shown under the wallet's name; the errors are one for each wallet
    whose address fails validation, followed by one for each wallet whose
    fetch threw, with its message; a wallet whose fetch returned adds no
    error. So a token is shown exactly when it is such a line. A wallet
    with an invalid address changes neither state; a wallet with a valid
    one is fetched once, and the run itself leaves the whitelist reading
    as it found it. *)
Theorem loadTokens_by_wallet (toLowerCase : jsstring -> jsstring)
    (meanwhile : nat -> Store -> Store) (wallets : list Wallet) (a : App) :
  let shown := loadTokensOf toLowerCase meanwhile wallets a in
  let here := reached toLowerCase meanwhile wallets in
  fst (fst shown)
  = flat_map (tokensAt toLowerCase meanwhile wallets a) (seq 0 (length wallets))
  /\ snd (fst shown)
     = validationErrors wallets
       ++ flat_map (fetchErrorAt toLowerCase meanwhile wallets a) (seq 0 (length wallets))
  /\ (forall tok,
        In tok (fst (fst shown)) <->
        exists position wallet lines c line,
          nth_error wallets position = Some wallet
          /\ validateXRPLAddress (wallet_address wallet) = true
          /\ fetchAccountLines (wallet_address wallet) (client (here position a))
             = (Ok lines, c)
          /\ In line lines
          /\ existsb (matchesToken toLowerCase (line_currency line) (account line))
               (whitelistAt toLowerCase meanwhile wallets position a) = true
          /\ tok = toToken (wallet_name wallet) line)
  /\ here 0%nat a = mkApp (client a) (snd (loadTokenConfig (store a)))
  /\ (forall position wallet,
        nth_error wallets position = Some wallet ->
        if validateXRPLAddress (wallet_address wallet)
        then client (here (S position) a)
             = snd (fetchAccountLines (wallet_address wallet) (client (here position a)))
             /\ loaded (store (here (S position) a))
                = whitelistAt toLowerCase meanwhile wallets position a
        else here (S position) a = here position a).
Proof.
  intros shown here.
  destruct (fetchWallets_firstn toLowerCase meanwhile wallets a (length wallets)
              (Nat.le_refl _)) as [Ht [He _]].
  rewrite firstn_all in Ht, He.
  assert (Etok : fst (fst shown)
                 = flat_map (tokensAt toLowerCase meanwhile wallets a)
                     (seq 0 (length wallets))).
  { unfold shown. rewrite loadTokensOf_eq. exact Ht. }
  split; [exact Etok|]. split; [|split; [|split]].
  - unfold shown. rewrite loadTokensOf_eq. cbn [fst snd]. rewrite He. reflexivity.
  - intros tok. rewrite Etok, in_flat_map. unfold tokensAt. fold here. split.
    + intros [position [_ Hin]].
      destruct (nth_error wallets position) as [wallet|] eqn:Hn; [|destruct Hin].
      destruct (validateXRPLAddress (wallet_address wallet)) eqn:Hv; [|destruct Hin].
      destruct (fetchAccountLines (wallet_address wallet) (client (here position a)))
        as [[lines|e] c] eqn:Ef; [|destruct Hin].
      apply in_map_iff in Hin as [line [Htok Hline]].
      apply filter_In in Hline as [Hline Hm].
      exists position, wallet, lines, c, line. repeat split; auto.
    + intros [position [wallet [lines [c [line [Hn [Hv [Ef [Hline [Hm Htok]]]]]]]]]].
      exists position. split.
      * apply in_seq. split; [lia|]. apply nth_error_Some. congruence.
      * rewrite Hn, Hv, Ef. apply in_map_iff. exists line. split; [auto|].
        apply filter_In. auto.
  - unfold here, reached. rewrite loadTokensOf_eq. reflexivity.
  - intros position wallet Hn.
    destruct (fetchWallets_one toLowerCase meanwhile wallets a position wallet Hn)
      as [_ [_ [Hs [Hbad Hgood]]]].
    unfold here. rewrite <- Hs.
    destruct (validateXRPLAddress (wallet_address wallet)); auto.
Qed.


Example loadTokens_WALLETS_valid :
  forallb (fun x => validateXRPLAddress (wallet_address x)) WALLETS = true.
Proof. vm_compute. reflexivity. Qed.

Lemma decoded_is_not_40 (cur : jsstring) :
  hexToString cur <> cur -> length (hexToString cur) <> 40%nat.
Proof.
  intros Hne. destruct (hexToString_cases cur) as [H|[Hl _]]; [congruence | lia].
Qed.

Lemma strictEq_length (a b : jsstring) : length a <> length b -> strictEq a b = false.
Proof.
  intros H. apply not_true_iff_false. intros E. apply strictEq_spec in E. congruence.
Qed.

(** X21. The token list shows a 40-hex currency decoded, and the token
    metrics look the token up by comparing that shown currency with the raw
    currency of each trust line. So a token shown from a line with a plain
    currency is found on that line again, but a token whose currency was
    decoded matches no trust line with a 40-character currency, the line it
    came from included. *)
Theorem decoded_token_not_found (walletName : jsstring) (line : TrustLine) :
  (isHexCurrency (line_currency line) = false ->
   holdsToken (toToken walletName line) line = true)
  /\ (isHexCurrency (line_currency line) = true ->
      hexToString (line_currency line) <> line_currency line ->
      holdsToken (toToken walletName line) line = false
      /\ forall lines,
           Forall (fun other => length (line_currency other) = 40%nat) lines ->
           matchingLine (toToken walletName line) lines = None).
Proof.
  unfold holdsToken, toToken. cbn [token_currency token_issuer].
  unfold displayCurrency. split.
  - intros H. rewrite H, !strictEq_refl. reflexivity.
  - intros H Hne. rewrite H.
    pose proof (decoded_is_not_40 _ Hne) as Hl.
    assert (Hno : forall other, length (line_currency other) = 40%nat ->
              strictEq (line_currency other) (hexToString (line_currency line)) = false).
    { intros other H40. apply strictEq_length. congruence. }
    split.
    + rewrite Hno; [reflexivity|].
      unfold isHexCurrency in H. apply andb_true_iff in H as [H _].
      apply Nat.eqb_eq, H.
    + intros lines Hall. unfold matchingLine.
      induction Hall as [|other rest H40 _ IH]; [reflexivity|].
      cbn [find]. unfold holdsToken at 1. cbn [token_currency token_issuer].
      rewrite (Hno other H40). exact IH.
Qed.

Lemma decoded_token_not_found_witness :
  holdsToken (toToken (js "GreedyJEW Issuer") hexLine) hexLine = false
  /\ forall lines,
       Forall (fun other => length (line_currency other) = 40%nat) lines ->
       matchingLine (toToken (js "GreedyJEW Issuer") hexLine) lines = None.
Proof.
  apply (proj2 (decoded_token_not_found (js "GreedyJEW Issuer") hexLine)).
  - vm_compute. reflexivity.
  - vm_compute. discriminate.
Defined.

(** ** The wallet view *)

Lemma requestsOf_app (t1 t2 : list Event) :
  requestsOf (t1 ++ t2) = requestsOf t1 ++ requestsOf t2.
Proof. unfold requestsOf. apply flat_map_app. Qed.

Lemma makeXRPLRequest_requests (method : Method) (address : jsstring) (w : Client) :
  validateXRPLAddress address = true ->
  requestsOf (trace (snd (makeXRPLRequest method address w)))
  = requestsOf (trace w) ++ [method].
Proof.
  intros Hv. rewrite (makeXRPLRequest_eq _ _ _ Hv).
  assert (Hs : requestsOf (trace (sent method address w)) = requestsOf (trace w) ++ [method])
    by (unfold sent; simpl; rewrite requestsOf_app; reflexivity).
  destruct (net w (requestsSent w) (currentServerIndex w)) as [t|status text json];
    [exact Hs|].
  destruct (ok status).
  - destruct json as [[|[r|]]|t]; try (destruct (truthy (error r))); exact Hs.
  - destruct text; exact Hs.
Qed.

Lemma requestsOf_wait (ms : Z) (w : Client) :
  requestsOf (trace (wait ms w)) = requestsOf (trace w).
Proof. unfold wait, emit. simpl. rewrite requestsOf_app. simpl. apply app_nil_r. Qed.

Lemma retryDefault_requests (method : Method) (address : jsstring) (w : Client) :
  validateXRPLAddress address = true ->
  exists k, (1 <= k <= 3)%nat
    /\ requestsOf (trace (snd (retryDefault (makeXRPLRequest method address) w)))
       = requestsOf (trace w) ++ replicate k method.
Proof.
  intros Hv. rewrite retryDefault_eq.
  pose proof (makeXRPLRequest_requests method address w Hv) as H1.
  destruct (makeXRPLRequest method address w) as [[r|e1] w1]; simpl in H1 |- *.
  - exists 1%nat. split; [lia | exact H1].
  - pose proof (makeXRPLRequest_requests method address (wait (retryDelay 1) w1) Hv) as H2.
    rewrite requestsOf_wait, H1 in H2.
    destruct (makeXRPLRequest method address (wait (retryDelay 1) w1)) as [[r|e2] w2];
      simpl in H2 |- *.
    + exists 2%nat. split; [lia|]. rewrite H2, <- app_assoc. reflexivity.
    + pose proof (makeXRPLRequest_requests method address (wait (retryDelay 2) w2) Hv) as H3.
      rewrite requestsOf_wait, H2 in H3.
      exists 3%nat. split; [lia|]. rewrite H3, <- !app_assoc. reflexivity.
Qed.

Lemma fetch_sends (address : jsstring) (w : Client) :
  validateXRPLAddress address = true ->
  (requestsSent (snd (fetchAccountInfo address w)) <= requestsSent w + 3)%nat
  /\ (requestsSent (snd (fetchAccountLines address w)) <= requestsSent w + 3)%nat
  /\ (requestsSent (snd (fetchAccountNFTs address w)) <= requestsSent w + 3)%nat.
Proof.
  intros Hv.
  rewrite (fetchAccountInfo_eq _ _ Hv), (fetchAccountLines_eq _ _ Hv),
    (fetchAccountNFTs_eq _ _ Hv).
  pose proof (retryDefault_sends account_info address w) as Hi.
  pose proof (retryDefault_sends account_lines address w) as Hl.
  pose proof (retryDefault_sends account_nfts address w) as Hn.
  destruct (retryDefault (makeXRPLRequest account_info address) w) as [[ri|ei] wi];
    destruct (retryDefault (makeXRPLRequest account_lines address) w) as [[rl|el] wl];
    destruct (retryDefault (makeXRPLRequest account_nfts address) w) as [[rn|en] wn];
    try destruct (account_data ri); simpl in *; auto.
Qed.

(** X22. On a valid address the wallet view is never failed by the NFT
    fetch: once the account info and the trust lines are fetched, the view
    is loaded, whatever the replies to the NFT requests. Loading the view
    sends at most 9 requests. *)
Theorem loadWalletData_nfts_never_fail (walletAddress : jsstring) (w : Client) :
  validateXRPLAddress walletAddress = true ->
  (forall info w1 lines w2,
     fetchAccountInfo walletAddress w = (Ok info, w1) ->
     fetchAccountLines walletAddress w1 = (Ok lines, w2) ->
     exists nfts w3, loadWalletData walletAddress w = (ViewLoaded info lines nfts, w3))
  /\ (forall e w',
        loadWalletData walletAddress w = (ViewFailed e, w') ->
        fetchAccountInfo walletAddress w = (Err e, w')
        \/ exists info w1,
             fetchAccountInfo walletAddress w = (Ok info, w1)
             /\ fetchAccountLines walletAddress w1 = (Err e, w'))
  /\ (requestsSent (snd (loadWalletData walletAddress w)) <= requestsSent w + 9)%nat.
Proof.
  intros Hv. unfold loadWalletData. rewrite Hv. cbn [negb].
  split; [|split].
  - intros info w1 lines w2 Hi Hl. rewrite Hi, Hl.
    rewrite (fetchAccountNFTs_eq _ _ Hv).
    destruct (retryDefault _ w2) as [[r|e] w3]; eauto.
  - intros e w'.
    destruct (fetchAccountInfo walletAddress w) as [[info|e1] w1]; [|intros [= <- <-]; auto].
    destruct (fetchAccountLines walletAddress w1) as [[lines|e2] w2] eqn:El.
    + rewrite (fetchAccountNFTs_eq _ _ Hv).
      destruct (retryDefault _ w2) as [[r|e3] w3]; discriminate.
    + intros [= <- <-]. right. eauto.
  - pose proof (fetch_sends walletAddress w Hv) as [Hi _].
    destruct (fetchAccountInfo walletAddress w) as [[info|e1] w1]; simpl in *; [|lia].
    pose proof (fetch_sends walletAddress w1 Hv) as [_ [Hl _]].
    destruct (fetchAccountLines walletAddress w1) as [[lines|e2] w2]; simpl in *; [|lia].
    pose proof (fetch_sends walletAddress w2 Hv) as [_ [_ Hn]].
    destruct (fetchAccountNFTs walletAddress w2) as [[nfts|e3] w3]; simpl in *; lia.
Qed.

Lemma loadWalletData_nfts_never_fail_witness :
  (requestsSent (snd (loadWalletData sampleIssuer deadClient))
   <= requestsSent deadClient + 9)%nat.
Proof.
  apply (proj2 (proj2 (loadWalletData_nfts_never_fail sampleIssuer deadClient
                         ltac:(vm_compute; reflexivity)))).
Defined.

(** X23. When the account-info fetch throws, the wallet view fails with
    that error and nothing else is asked of the ledger: the 1 to 3 requests
    made are all [account_info], the trust lines and the NFTs are never
    requested. *)
Theorem loadWalletData_stops_at_info (walletAddress : jsstring) (w w1 : Client)
    (e : RpcError) :
  validateXRPLAddress walletAddress = true ->
  fetchAccountInfo walletAddress w = (Err e, w1) ->
  loadWalletData walletAddress w = (ViewFailed e, w1)
  /\ exists k, (1 <= k <= 3)%nat
       /\ requestsOf (trace w1) = requestsOf (trace w) ++ replicate k account_info.
Proof.
  intros Hv Hi. unfold loadWalletData. rewrite Hv, Hi. split; [reflexivity|].
  rewrite (fetchAccountInfo_eq _ _ Hv) in Hi.
  destruct (retryDefault_requests account_info walletAddress w Hv) as [k [Hk Hr]].
  exists k. split; [exact Hk|].
  destruct (retryDefault (makeXRPLRequest account_info walletAddress) w) as [[r|e0] w0].
  - destruct (account_data r); [discriminate|]. injection Hi as _ <-. exact Hr.
  - injection Hi as _ <-. exact Hr.
Qed.

Lemma loadWalletData_stops_at_info_witness :
  loadWalletData sampleIssuer (answering noData)
  = (ViewFailed ErrMissingAccountData, sent account_info sampleIssuer (answering noData))
  /\ exists k, (1 <= k <= 3)%nat
       /\ requestsOf (trace (sent account_info sampleIssuer (answering noData)))
          = requestsOf (trace (answering noData)) ++ replicate k account_info.
Proof.
  apply (loadWalletData_stops_at_info sampleIssuer (answering noData)).
  - vm_compute. reflexivity.
  - vm_compute. reflexivity.
Defined.

(** ** Runs of the further properties *)

Lemma hexToString_result_witness : (@nil N) = [].
Proof. apply (proj2 (hexToString_result [])). reflexivity. Defined.

Lemma removeToken_effect_witness :
  stored (snd (removeToken (js "none") sampleIssuer (roomyStore (Json DEFAULT_TOKENS))))
  = loaded (roomyStore (Json DEFAULT_TOKENS)).
Proof.
  destruct (removeToken_effect (js "none") sampleIssuer (roomyStore (Json DEFAULT_TOKENS)))
    as [[w2 [E [_ [_ [_ H]]]]]|E].
  - rewrite E. apply H. vm_compute. reflexivity.
  - vm_compute in E. discriminate.
Defined.

Lemma filterWhitelisted_pure_witness :
  snd (filterWhitelisted toLowerCaseLatin1 [hexLine] (roomyStore NoItem))
  = snd (loadTokenConfig (roomyStore NoItem)).
Proof.
  apply (proj2 (proj2 (filterWhitelisted_pure toLowerCaseLatin1 [hexLine]
                         (roomyStore NoItem)))).
  discriminate.
Defined.

Lemma loadTokens_by_wallet_witness :
  fst (fst (loadTokensOf toLowerCaseLatin1 removingABCD WALLETS appABCD))
  = [toToken (js "GreedyJEW Issuer") lineABCD]
  /\ tokensAt toLowerCaseLatin1 removingABCD WALLETS appABCD 0
     = [toToken (js "GreedyJEW Issuer") lineABCD]
  /\ tokensAt toLowerCaseLatin1 removingABCD WALLETS appABCD 1 = []
  /\ exists lines c,
       fetchAccountLines (js "rdRvw4pKmEtSnz3cjXBL6HLJJmejtkoQ4")
         (client (reached toLowerCaseLatin1 removingABCD WALLETS 0 appABCD))
       = (Ok lines, c)
       /\ In lineABCD lines.
Proof.
  pose proof (loadTokens_by_wallet toLowerCaseLatin1 removingABCD WALLETS appABCD)
    as [Ht [_ [Hin _]]].
  assert (E0 : tokensAt toLowerCaseLatin1 removingABCD WALLETS appABCD 0
               = [toToken (js "GreedyJEW Issuer") lineABCD])
    by (vm_compute; reflexivity).
  assert (E1 : tokensAt toLowerCaseLatin1 removingABCD WALLETS appABCD 1 = [])
    by (vm_compute; reflexivity).
  assert (Eshown : fst (fst (loadTokensOf toLowerCaseLatin1 removingABCD WALLETS appABCD))
                   = [toToken (js "GreedyJEW Issuer") lineABCD]).
  { rewrite Ht. change (length WALLETS) with 2%nat. cbn [seq flat_map].
    rewrite E0, E1. reflexivity. }
  split; [exact Eshown|split; [exact E0|split; [exact E1|]]].
  assert (Hshown : In (toToken (js "GreedyJEW Issuer") lineABCD)
                     (fst (fst (loadTokensOf toLowerCaseLatin1 removingABCD WALLETS
                                  appABCD))))
    by (rewrite Eshown; left; reflexivity).
  apply Hin in Hshown
    as [position [wallet [lines [c [line [Hn [Hv [Ef [Hline [Hm Htok]]]]]]]]]].
  destruct position as [|[|position]].
  - injection Hn as <-. exists lines, c. split; [exact Ef|].
    vm_compute in Ef. injection Ef as <- _. left. vm_compute. reflexivity.
  - exfalso. injection Hn as <-. vm_compute in Htok. discriminate.
  - exfalso. destruct position; discriminate.
Defined.

Example loadTokens_sample :
  List.map token_currency (fst (fst (loadTokens toLowerCaseLatin1 undisturbed sampleApp)))
  = [js "GreedyJEW"; js "GreedyJEW"]
  /\ snd (fst (loadTokens toLowerCaseLatin1 undisturbed sampleApp)) = [].
Proof. vm_compute. auto. Qed.
